(** * The pet match engine ([match-engine.js])

    The engine compares the embedding vectors of lost pets with those of
    found pets, keeps the pairs that are similar and near enough, records
    each new pair once in the match store and notifies the owner and the
    shelter.  This file embeds its five parts (similarity kernel, candidate
    scanner, dedup gate, notification fan-out, scan scheduler) and proves
    the properties its specification states.  The report generator the
    fan-out calls ([match-report-generator.js]) is embedded after them.

    Numbers.  A JavaScript number is an IEEE-754 binary64 value.
    [cosineSimilarity] is written once, over the arithmetic operations it
    uses ([JsNumber]), and read at two instances: [R], exact real
    arithmetic, in which the analytic properties are proved, and [float],
    the binary64 numbers the program computes with.  The candidate scanner
    and [calculateDistance] are read twice as well: over [R], where the pass
    and the analytic properties are stated, and over binary64 numbers
    ([Binary64]), where which candidates are kept and what
    [calculateDistance] returns are decided as the program decides them.
    The language standard leaves the values of [Math.sin], [Math.cos] and
    [Math.atan2] to the implementation; the binary64 reading takes them as
    a parameter ([Binary64.Math]) and its properties hold for every such
    library unless they say otherwise.

    The outside world.  Supabase, the SMS gateway and the report generator
    are reached through calls whose answers the engine does not control.  A
    pass is a function of the tables and of a [World] that fixes the answer
    of every call; properties hold for every world unless they say
    otherwise.

    Time.  [processMatches] is read twice: as a function from the match
    store before the pass to the store after it, and as a [Pass] that stops
    at each [await], which is how the scheduler sees it when more than one
    pass is in flight.  Run alone, the second does what the first does
    ([processMatches_async_alone]). *)

From Stdlib Require Import Floats.PrimFloat String.
From Stdlib Require Import Reals Lra Lia List Bool Arith Permutation Sorted.
From Stdlib Require Floats.FloatAxioms Floats.SpecFloat.
Import ListNotations.

Set Implicit Arguments.

(** ** JavaScript values used by the engine *)

(** The arithmetic [cosineSimilarity] performs on vector entries. *)
Class JsNumber (T : Type) : Type := {
  num_zero : T;
  num_add : T -> T -> T;
  num_mul : T -> T -> T;
  num_div : T -> T -> T;
  num_sqrt : T -> T;            (* Math.sqrt *)
  num_is_zero : T -> bool       (* x === 0 *)
}.

(** The one fact about the arithmetic the degenerate branches rely on:
    [Math.sqrt(0) === 0]. *)
Class JsNumberLaws {T : Type} (N : JsNumber T) : Prop := {
  sqrt_zero_is_zero : num_is_zero (num_sqrt num_zero) = true
}.

(** [x === 0] on reals. *)
Definition Ris_zero (x : R) : bool :=
  if Req_dec_T x 0 then true else false.

#[export] Instance RNumber : JsNumber R := {
  num_zero := 0%R;
  num_add := Rplus;
  num_mul := Rmult;
  num_div := Rdiv;
  num_sqrt := sqrt;
  num_is_zero := Ris_zero
}.

(** binary64: [===] is IEEE equality, so [-0 === 0] and [NaN === 0] is false. *)
#[export] Instance FNumber : JsNumber float := {
  num_zero := 0%float;
  num_add := PrimFloat.add;
  num_mul := PrimFloat.mul;
  num_div := PrimFloat.div;
  num_sqrt := PrimFloat.sqrt;
  num_is_zero := fun x => PrimFloat.eqb x 0%float
}.

(** An embedding vector as the code receives it: [None] is [null] or
    [undefined], [Some v] an array of numbers. *)
Definition vector (T : Type) : Type := option (list T).

(** ** Similarity kernel *)

Section Kernel.
Context {T : Type} `{JsNumber T}.

(** The [for] loop of [cosineSimilarity]: the three running sums, updated
    index by index from left to right.  It is entered only with arrays of
    one length. *)
Fixpoint accumulate (vec1 vec2 : list T) (dotProduct norm1 norm2 : T)
  : T * T * T :=
  match vec1, vec2 with
  | x :: vec1', y :: vec2' =>
      accumulate vec1' vec2'
        (num_add dotProduct (num_mul x y))
        (num_add norm1 (num_mul x x))
        (num_add norm2 (num_mul y y))
  | _, _ => (dotProduct, norm1, norm2)
  end.

Definition cosineSimilarity (vec1 vec2 : vector T) : T :=
  match vec1, vec2 with
  | Some v1, Some v2 =>
      if negb (length v1 =? length v2) then num_zero
      else
        let '(dotProduct, norm1, norm2) :=
          accumulate v1 v2 num_zero num_zero num_zero in
        let norm1 := num_sqrt norm1 in
        let norm2 := num_sqrt norm2 in
        if num_is_zero norm1 || num_is_zero norm2 then num_zero
        else num_div dotProduct (num_mul norm1 norm2)
  | _, _ => num_zero
  end.

(** The sum of squares the loop accumulates for one vector, and the norm
    the code takes from it. *)
Definition sum_squares (v : list T) : T :=
  fold_left (fun acc x => num_add acc (num_mul x x)) v num_zero.

Definition computed_norm (v : list T) : T := num_sqrt (sum_squares v).

End Kernel.

(** ** Geographic distance (over exact reals)

    The formula read in exact arithmetic, where the haversine term stays in
    [[0, 1]] and the result is a real number or the [Infinity] of the guard.
    What the program returns, [NaN] included, is [Binary64.calculateDistance]. *)

Open Scope R_scope.

Definition Rleb (x y : R) : bool := if Rle_dec x y then true else false.

(** A number as [calculateDistance] returns it and as the threshold test
    reads it: [Infinity] or a finite value. *)
Inductive miles : Type :=
| Infinity
| Finite (d : R).

(** [d <= limit] for a finite [limit]. *)
Definition miles_leb (d : miles) (limit : R) : bool :=
  match d with
  | Infinity => false
  | Finite x => Rleb x limit
  end.

(** A coordinate field of a record: [None] is [null]/[undefined].  The guard
    [!lat] also rejects the number [0]; [truthy] keeps what passes it. *)
Definition coordinate : Type := option R.

Definition truthy (c : coordinate) : option R :=
  match c with
  | Some x => if Ris_zero x then None else Some x
  | None => None
  end.

(** [Math.atan2(y, x)] on reals. *)
Definition atan2 (y x : R) : R :=
  if Rlt_dec 0 x then atan (y / x)
  else if Rlt_dec x 0 then
    (if Rle_dec 0 y then atan (y / x) + PI else atan (y / x) - PI)
  else if Rlt_dec 0 y then PI / 2
  else if Rlt_dec y 0 then - (PI / 2)
  else 0.

(** The haversine term [a] and the distance computed from it.  In exact
    arithmetic [a] lies between [0] and [1] (see [haversine_a_range]), so
    neither [Math.sqrt] is taken of a negative number. *)
Definition haversine_a (lat1 lon1 lat2 lon2 : R) : R :=
  let dLat := (lat2 - lat1) * PI / 180 in
  let dLon := (lon2 - lon1) * PI / 180 in
  sin (dLat / 2) * sin (dLat / 2) +
  cos (lat1 * PI / 180) * cos (lat2 * PI / 180) *
  sin (dLon / 2) * sin (dLon / 2).

Definition calculateDistance (lat1 lon1 lat2 lon2 : coordinate) : miles :=
  match truthy lat1, truthy lon1, truthy lat2, truthy lon2 with
  | Some lat1, Some lon1, Some lat2, Some lon2 =>
      let R := 3959 in
      let a := haversine_a lat1 lon1 lat2 lon2 in
      let c := 2 * atan2 (sqrt a) (sqrt (1 - a)) in
      Finite (R * c)
  | _, _, _, _ => Infinity
  end.

(** ** Records and configuration *)

Record Config : Type := {
  MATCH_THRESHOLD : R;
  BATCH_SIZE : nat;
  CHECK_INTERVAL : nat;
  MAX_DISTANCE_MILES : R
}.

Definition CONFIG : Config := {|
  MATCH_THRESHOLD := 85 / 100;
  BATCH_SIZE := 50;
  CHECK_INTERVAL := 5;
  MAX_DISTANCE_MILES := 50
|}.

Inductive PetStatus : Type := StatusLost | StatusFound | StatusOther.

(** A row of [lost_pets], with the fields the engine reads. *)
Record Pet : Type := {
  id : nat;
  pet_name : string;
  status : PetStatus;
  image_vectors : option (list (vector R));
  location_lat : coordinate;
  location_lon : coordinate;
  owner_phone : option string;
  contact_phone : option string
}.

(** An entry of the [matches] array. *)
Record Match : Type := {
  foundPetId : nat;
  foundPetName : string;
  similarity : R;
  distance : miles;
  foundPet : Pet
}.

(** ** Candidate scanner (over exact reals)

    The scanner read in exact arithmetic, with the threshold [17/20].  The
    pass is stated over it: what a pass does with the candidates does not
    depend on how they were computed.  Which candidates the program keeps
    is decided on binary64 numbers, in [Binary64]. *)

(** The two nested [for ... of] loops: [Math.max] folded over every pair,
    lost vectors outermost, starting from [0]. *)
Definition maxSimilarity (lostVectors foundVectors : list (vector R)) : R :=
  fold_left
    (fun acc lostVector =>
       fold_left
         (fun acc foundVector =>
            Rmax acc (cosineSimilarity lostVector foundVector))
         foundVectors acc)
    lostVectors 0.

(** [!p.image_vectors || p.image_vectors.length === 0] *)
Definition no_vectors (p : Pet) : bool :=
  match image_vectors p with
  | None => true
  | Some [] => true
  | Some (_ :: _) => false
  end.

Definition embeddings (p : Pet) : list (vector R) :=
  match image_vectors p with
  | Some vs => vs
  | None => []
  end.

Definition pair_distance (lostPet foundPet : Pet) : miles :=
  calculateDistance (location_lat lostPet) (location_lon lostPet)
                    (location_lat foundPet) (location_lon foundPet).

(** The body of [for (const foundPet of foundPets)]: what it pushes. *)
Definition scan_one (lostPet foundPet : Pet) : list Match :=
  if no_vectors foundPet then []
  else
    let maxSim := maxSimilarity (embeddings lostPet) (embeddings foundPet) in
    let dist := pair_distance lostPet foundPet in
    if Rleb (MATCH_THRESHOLD CONFIG) maxSim
       && miles_leb dist (MAX_DISTANCE_MILES CONFIG)
    then [ {| foundPetId := id foundPet;
              foundPetName := pet_name foundPet;
              similarity := maxSim;
              distance := dist;
              foundPet := foundPet |} ]
    else [].

(** [Array.prototype.sort] with a comparator: a stable sort that puts [a]
    before [b] when [cmp a b <= 0]. *)
Section Sort.
Variable A : Type.
Variable cmp : A -> A -> R.

Fixpoint sort_insert (x : A) (l : list A) : list A :=
  match l with
  | [] => [x]
  | y :: l' => if Rleb (cmp x y) 0 then x :: y :: l' else y :: sort_insert x l'
  end.

Definition js_sort (l : list A) : list A := fold_right sort_insert [] l.
End Sort.

(** [(a, b) => b.similarity - a.similarity] *)
Definition by_similarity_desc (a b : Match) : R := similarity b - similarity a.

(** [findMatchesForLostPet]; [reply] is what the query for the found pets
    returned: [Some foundPets], or [None] for an error or no data. *)
Definition findMatchesForLostPet (reply : option (list Pet)) (lostPet : Pet)
  : list Match :=
  if no_vectors lostPet then []
  else match reply with
       | None => []
       | Some foundPets =>
           js_sort by_similarity_desc (flat_map (scan_one lostPet) foundPets)
       end.

(** ** The scanner on binary64 numbers

    [calculateDistance] and [findMatchesForLostPet] as the program computes
    them: every number is a binary64 value, [>=] and [<=] are the IEEE
    comparisons, and [cosineSimilarity] is the one of the similarity kernel
    at its binary64 instance. *)

Module Binary64.

(** [Math.sin], [Math.cos] and [Math.atan2], whose values the language
    standard leaves to the implementation. *)
Record Math : Type := {
  Math_sin : float -> float;
  Math_cos : float -> float;
  Math_atan2 : float -> float -> float
}.

Definition Math_PI : float := 0x1.921fb54442d18p+1%float.

(** [Math.max(a, b)]: [NaN] when either is [NaN]; [+0] is above [-0]. *)
Definition Math_max (a b : float) : float :=
  if PrimFloat.is_nan a || PrimFloat.is_nan b then PrimFloat.nan
  else if PrimFloat.ltb a b then b
  else if PrimFloat.ltb b a then a
  else if PrimFloat.get_sign a then b else a.

Definition coordinate : Type := option float.

(** What passes [!lat]: a number that is neither [0], [-0] nor [NaN]. *)
Definition truthy (c : coordinate) : option float :=
  match c with
  | Some x => if PrimFloat.is_nan x || PrimFloat.is_zero x then None else Some x
  | None => None
  end.

Definition calculateDistance (M : Math) (lat1 lon1 lat2 lon2 : coordinate)
  : float :=
  match truthy lat1, truthy lon1, truthy lat2, truthy lon2 with
  | Some lat1, Some lon1, Some lat2, Some lon2 =>
      let R := 3959%float in
      let dLat := ((lat2 - lat1) * Math_PI / 180)%float in
      let dLon := ((lon2 - lon1) * Math_PI / 180)%float in
      let a :=
        (Math_sin M (dLat / 2) * Math_sin M (dLat / 2) +
         Math_cos M (lat1 * Math_PI / 180) * Math_cos M (lat2 * Math_PI / 180) *
         Math_sin M (dLon / 2) * Math_sin M (dLon / 2))%float in
      let c := (2 * Math_atan2 M (PrimFloat.sqrt a) (PrimFloat.sqrt (1 - a)))%float in
      (R * c)%float
  | _, _, _, _ => PrimFloat.infinity
  end.

(** The configuration as binary64 numbers: [0.85] is the double nearest to
    17/20, which is below it. *)
Record Config : Type := {
  MATCH_THRESHOLD : float;
  MAX_DISTANCE_MILES : float
}.

Definition CONFIG : Config := {|
  MATCH_THRESHOLD := 0x1.b333333333333p-1%float;
  MAX_DISTANCE_MILES := 50%float
|}.

(** A row of [lost_pets], with the fields the scanner reads. *)
Record Pet : Type := {
  id : nat;
  pet_name : string;
  image_vectors : option (list (vector float));
  location_lat : coordinate;
  location_lon : coordinate
}.

Record Match : Type := {
  foundPetId : nat;
  foundPetName : string;
  similarity : float;
  distance : float;
  foundPet : Pet
}.

Definition maxSimilarity (lostVectors foundVectors : list (vector float))
  : float :=
  fold_left
    (fun acc lostVector =>
       fold_left
         (fun acc foundVector =>
            Math_max acc (cosineSimilarity lostVector foundVector))
         foundVectors acc)
    lostVectors 0%float.

Definition no_vectors (p : Pet) : bool :=
  match image_vectors p with
  | None => true
  | Some [] => true
  | Some (_ :: _) => false
  end.

Definition embeddings (p : Pet) : list (vector float) :=
  match image_vectors p with
  | Some vs => vs
  | None => []
  end.

Definition pair_distance (M : Math) (lostPet foundPet : Pet) : float :=
  calculateDistance M (location_lat lostPet) (location_lon lostPet)
                      (location_lat foundPet) (location_lon foundPet).

(** The body of [for (const foundPet of foundPets)]: [>=] and [<=] are the
    comparisons of binary64 numbers, false when a side is [NaN]. *)
Definition scan_one (M : Math) (lostPet foundPet : Pet) : list Match :=
  if no_vectors foundPet then []
  else
    let maxSim := maxSimilarity (embeddings lostPet) (embeddings foundPet) in
    let dist := pair_distance M lostPet foundPet in
    if PrimFloat.leb (MATCH_THRESHOLD CONFIG) maxSim
       && PrimFloat.leb dist (MAX_DISTANCE_MILES CONFIG)
    then [ {| foundPetId := id foundPet;
              foundPetName := pet_name foundPet;
              similarity := maxSim;
              distance := dist;
              foundPet := foundPet |} ]
    else [].

(** [Array.prototype.sort] with a comparator that returns a binary64
    number: stable, [a] before [b] unless [cmp a b > 0] (a [NaN] counts as
    [0]). *)
Section Sort.
Variable A : Type.
Variable cmp : A -> A -> float.

Fixpoint sort_insert (x : A) (l : list A) : list A :=
  match l with
  | [] => [x]
  | y :: l' =>
      if PrimFloat.ltb 0 (cmp x y) then y :: sort_insert x l' else x :: y :: l'
  end.

Definition js_sort (l : list A) : list A := fold_right sort_insert [] l.
End Sort.

Definition by_similarity_desc (a b : Match) : float :=
  (similarity b - similarity a)%float.

Definition findMatchesForLostPet (M : Math) (reply : option (list Pet))
           (lostPet : Pet) : list Match :=
  if no_vectors lostPet then []
  else match reply with
       | None => []
       | Some foundPets =>
           js_sort by_similarity_desc (flat_map (scan_one M lostPet) foundPets)
       end.

End Binary64.

(** ** Stores and the outside world *)

Inductive MatchStatus : Type :=
| Pending | ShelterNotified | NotificationFailed | NoShelterEmail.

(** A row of [pet_matches] ([created_at] is a time stamp and is left out). *)
Record MatchRow : Type := {
  row_id : nat;
  lost_pet_id : nat;
  found_pet_id : nat;
  similarity_score : R;
  distance_miles : miles;
  match_status : MatchStatus
}.

(** What [sendMatchNotification] did on one call. *)
Inductive SmsOutcome : Type :=
| SmsNotConfigured                 (* SINCH_* unset: warn, return *)
| SmsNoPhone                       (* no owner or contact phone: warn, return *)
| SmsSent (to : string)            (* axios.post resolved *)
| SmsFailed (to : string).         (* axios.post threw; caught and logged *)

(** What [processMatchReport] (match-report-generator) did on one call: the
    object it returned, or the exception it raised, and the status it wrote
    with [updateMatchStatus] when that update went through. *)
Inductive ReportOutcome : Type :=
| ReportSent (email : string) (updated : bool)     (* { success: true, email } *)
| ReportNotSent (written : option MatchStatus)     (* { success: false, ... } *)
| ReportThrew.                                     (* rejected *)

Definition report_writes (o : ReportOutcome) : option MatchStatus :=
  match o with
  | ReportSent _ true => Some ShelterNotified
  | ReportSent _ false => None
  | ReportNotSent written => written
  | ReportThrew => None
  end.

(** The answers of the outside world during one pass.  The Supabase client
    resolves every call to [{ data, error }]; a read is answered ([true]) or
    comes back with an error ([false]).  Calls made inside the loops are
    named by their position: [i] is the index of the lost pet in the batch,
    [j] the index of the match in that pet's sorted list. *)
Record World : Type := {
  lost_query_ok : bool;
  found_query_ok : nat -> bool;
  exists_query_ok : nat -> nat -> bool;
  insert_reply : nat -> nat -> option nat;   (* [None]: error; [Some id]: row id *)
  sms_configured : bool;                     (* SINCH_API_TOKEN && SINCH_SERVICE_PLAN_ID *)
  sms_post_ok : nat -> nat -> bool;          (* axios.post resolves *)
  report_outcome : nat -> nat -> ReportOutcome
}.

Definition status_eqb (a b : PetStatus) : bool :=
  match a, b with
  | StatusLost, StatusLost | StatusFound, StatusFound
  | StatusOther, StatusOther => true
  | _, _ => false
  end.

(** [.from('lost_pets').select('*').eq('status', st)
     .not('image_vectors', 'is', null).limit(n)] *)
Definition select_pets (st : PetStatus) (n : nat) (table : list Pet) : list Pet :=
  firstn n
    (filter (fun p => status_eqb (status p) st
                      && match image_vectors p with Some _ => true | None => false end)
            table).

Definition query (ok : bool) (st : PetStatus) (n : nat) (table : list Pet)
  : option (list Pet) :=
  if ok then Some (select_pets st n table) else None.

(** ** Dedup and persistence gate *)

Definition same_pair (lostPetId foundPetId : nat) (r : MatchRow) : bool :=
  (lost_pet_id r =? lostPetId)%nat && (found_pet_id r =? foundPetId)%nat.

(** [matchExists]: [!!data] of the single-row lookup; an error leaves [data]
    empty. *)
Definition matchExists (ok : bool) (rows : list MatchRow)
           (lostPetId foundPetId : nat) : bool :=
  if ok then
    match find (same_pair lostPetId foundPetId) rows with
    | Some _ => true
    | None => false
    end
  else false.

(** The row [saveMatch] inserts. *)
Definition pending_row (new_id lostPetId foundPetId : nat) (sim : R)
           (dist : miles) : MatchRow :=
  {| row_id := new_id;
     lost_pet_id := lostPetId;
     found_pet_id := foundPetId;
     similarity_score := sim;
     distance_miles := dist;
     match_status := Pending |}.

(** [saveMatch]: the rows after the insert and the id it returns ([None] for
    [null]). *)
Definition saveMatch (reply : option nat) (rows : list MatchRow)
           (lostPetId foundPetId : nat) (sim : R) (dist : miles)
  : list MatchRow * option nat :=
  match reply with
  | None => (rows, None)
  | Some new_id =>
      (rows ++ [pending_row new_id lostPetId foundPetId sim dist], Some new_id)
  end.

(** [updateMatchStatus]: [.update({ status }).eq('id', matchId)]. *)
Definition updateMatchStatus (matchId : nat) (st : MatchStatus)
           (rows : list MatchRow) : list MatchRow :=
  map (fun r =>
         if (row_id r =? matchId)%nat
         then {| row_id := row_id r;
                 lost_pet_id := lost_pet_id r;
                 found_pet_id := found_pet_id r;
                 similarity_score := similarity_score r;
                 distance_miles := distance_miles r;
                 match_status := st |}
         else r)
      rows.

(** ** Notification fan-out *)

(** [a || b] on optional strings: the empty string is falsy. *)
Definition or_string (a b : option string) : option string :=
  match a with
  | Some EmptyString | None => b
  | Some _ => a
  end.

Definition truthy_string (a : option string) : option string :=
  match a with
  | Some EmptyString | None => None
  | Some _ => a
  end.

(** [sendMatchNotification]: it returns normally on every path. *)
Definition sendMatchNotification (configured post_ok : bool)
           (lostPet : Pet) (m : Match) : SmsOutcome :=
  if negb configured then SmsNotConfigured
  else
    match truthy_string (or_string (owner_phone lostPet) (contact_phone lostPet)) with
    | None => SmsNoPhone
    | Some ownerPhone => if post_ok then SmsSent ownerPhone else SmsFailed ownerPhone
    end.

(** ** One pass *)

Inductive Event : Type :=
| Persisted (row : MatchRow)
| Notified (lostPetId foundPetId : nat) (outcome : SmsOutcome)
| Reported (matchId : nat) (outcome : ReportOutcome).

(** The match store, the two counters of [processMatches] and the calls made
    so far. *)
Record PassState : Type := {
  match_rows : list MatchRow;
  totalMatches : nat;
  notificationsSent : nat;
  events : list Event
}.

(** [if (matchId)]: [null] and [0] are falsy. *)
Definition truthy_id (matchId : option nat) : option nat :=
  match matchId with
  | Some (S n) => Some (S n)
  | _ => None
  end.

(** The body of [for (const match of matches)]. *)
Definition process_match (w : World) (i j : nat) (lostPet : Pet) (m : Match)
           (s : PassState) : PassState :=
  if matchExists (exists_query_ok w i j) (match_rows s) (id lostPet) (foundPetId m)
  then s
  else
    let '(rows1, saved) :=
      saveMatch (insert_reply w i j) (match_rows s)
                (id lostPet) (foundPetId m) (similarity m) (distance m) in
    let events1 :=
      match saved with
      | Some new_id =>
          events s ++ [Persisted (pending_row new_id (id lostPet) (foundPetId m)
                                              (similarity m) (distance m))]
      | None => events s
      end in
    match truthy_id saved with
    | None =>
        {| match_rows := rows1;
           totalMatches := totalMatches s;
           notificationsSent := notificationsSent s;
           events := events1 |}
    | Some matchId =>
        let sms := sendMatchNotification (sms_configured w) (sms_post_ok w i j)
                                         lostPet m in
        let report := report_outcome w i j in
        let rows2 :=
          match report_writes report with
          | Some st => updateMatchStatus matchId st rows1
          | None => rows1
          end in
        {| match_rows := rows2;
           totalMatches := S (totalMatches s);
           notificationsSent := S (notificationsSent s);
           events := events1 ++ [Notified (id lostPet) (foundPetId m) sms;
                                 Reported matchId report] |}
    end.

Fixpoint for_matches (w : World) (i j : nat) (lostPet : Pet)
         (matches : list Match) (s : PassState) : PassState :=
  match matches with
  | [] => s
  | m :: rest => for_matches w i (S j) lostPet rest (process_match w i j lostPet m s)
  end.

(** The body of [for (const lostPet of lostPets)].  Every call in it
    resolves to a [{ data, error }] object or catches its own exception, so
    the [catch] of the per-pet [try] is not reached. *)
Definition process_pet (w : World) (table : list Pet) (i : nat) (lostPet : Pet)
           (s : PassState) : PassState :=
  let matches :=
    findMatchesForLostPet (query (found_query_ok w i) StatusFound 1000 table)
                          lostPet in
  for_matches w i 0 lostPet matches s.

Fixpoint for_lostPets (w : World) (table : list Pet) (i : nat)
         (lostPets : list Pet) (s : PassState) : PassState :=
  match lostPets with
  | [] => s
  | p :: rest => for_lostPets w table (S i) rest (process_pet w table i p s)
  end.

(** [processMatches] returns early when the batch cannot be fetched, before
    its counters exist; otherwise it runs to the final log line. *)
Inductive PassResult : Type :=
| Aborted
| Completed (s : PassState).

Definition processMatches (w : World) (table : list Pet) (rows : list MatchRow)
  : PassResult :=
  match query (lost_query_ok w) StatusLost (BATCH_SIZE CONFIG) table with
  | None => Aborted
  | Some lostPets =>
      Completed
        (for_lostPets w table 0 lostPets
           {| match_rows := rows; totalMatches := 0;
              notificationsSent := 0; events := [] |})
  end.

(** The match store a pass leaves behind. *)
Definition rows_after (rows : list MatchRow) (r : PassResult) : list MatchRow :=
  match r with
  | Aborted => rows
  | Completed s => match_rows s
  end.

Definition events_of (r : PassResult) : list Event :=
  match r with
  | Aborted => []
  | Completed s => events s
  end.

(** ** Passes in flight *)

(** [processMatches] is an [async] function: it runs until its next [await]
    and resumes when the awaited call settles, and other passes may run in
    between.  A pass in flight is what remains of it: the call it awaits and
    how it goes on from the answer.  Its two counters are local to it. *)
Inductive Pass : Type :=
| Finished (counters : option (nat * nat))
| AwaitLost (k : option (list Pet) -> Pass)
| AwaitFound (i : nat) (k : option (list Pet) -> Pass)
| AwaitExists (i j : nat) (lostPetId foundPetId : nat) (k : bool -> Pass)
| AwaitInsert (i j : nat) (lostPetId foundPetId : nat) (sim : R) (dist : miles)
              (k : option nat -> Pass)
| AwaitSms (i j : nat) (lostPet : Pet) (m : Match) (k : Pass)
| AwaitReport (i j : nat) (matchId : nat) (k : Pass).

(** [for (const match of matches)], from the match at index [j] on.  The
    counters are read at the end of the pass only; both stand one higher
    once the SMS call has returned. *)
Fixpoint matches_async (i j : nat) (lostPet : Pet) (matches : list Match)
         (total sent : nat) (k : nat -> nat -> Pass) : Pass :=
  match matches with
  | [] => k total sent
  | m :: rest =>
      AwaitExists i j (id lostPet) (foundPetId m) (fun exists_ =>
        if exists_ then matches_async i (S j) lostPet rest total sent k
        else
          AwaitInsert i j (id lostPet) (foundPetId m) (similarity m) (distance m)
            (fun saved =>
               match truthy_id saved with
               | None => matches_async i (S j) lostPet rest total sent k
               | Some matchId =>
                   AwaitSms i j lostPet m
                     (AwaitReport i j matchId
                        (matches_async i (S j) lostPet rest
                                       (S total) (S sent) k))
               end))
  end.

(** [for (const lostPet of lostPets)], from the pet at index [i] on;
    [findMatchesForLostPet] awaits the found pets only for a pet that has
    vectors. *)
Fixpoint lostPets_async (i : nat) (lostPets : list Pet) (total sent : nat)
  : Pass :=
  match lostPets with
  | [] => Finished (Some (total, sent))
  | p :: rest =>
      if no_vectors p then lostPets_async (S i) rest total sent
      else
        AwaitFound i (fun reply =>
          matches_async i 0 p (findMatchesForLostPet reply p) total sent
                        (fun total' sent' => lostPets_async (S i) rest total' sent'))
  end.

Definition processMatches_async : Pass :=
  AwaitLost (fun reply =>
    match reply with
    | None => Finished None
    | Some lostPets => lostPets_async 0 lostPets 0 0
    end).

(** The awaited call settles: what it does to the match store, and the pass
    that goes on. *)
Definition resume (w : World) (table : list Pet) (p : Pass)
           (rows : list MatchRow) : Pass * list MatchRow :=
  match p with
  | Finished _ => (p, rows)
  | AwaitLost k =>
      (k (query (lost_query_ok w) StatusLost (BATCH_SIZE CONFIG) table), rows)
  | AwaitFound i k =>
      (k (query (found_query_ok w i) StatusFound 1000 table), rows)
  | AwaitExists i j l f k =>
      (k (matchExists (exists_query_ok w i j) rows l f), rows)
  | AwaitInsert i j l f sim dist k =>
      let '(rows', saved) := saveMatch (insert_reply w i j) rows l f sim dist in
      (k saved, rows')
  | AwaitSms i j lostPet m k => (k, rows)
  | AwaitReport i j matchId k =>
      (k, match report_writes (report_outcome w i j) with
          | Some st => updateMatchStatus matchId st rows
          | None => rows
          end)
  end.

(** A pass run to its end with no other pass in between. *)
Fixpoint complete (w : World) (table : list Pet) (p : Pass)
         (rows : list MatchRow) : list MatchRow * option (nat * nat) :=
  match p with
  | Finished counters => (rows, counters)
  | AwaitLost k =>
      complete w table
        (k (query (lost_query_ok w) StatusLost (BATCH_SIZE CONFIG) table)) rows
  | AwaitFound i k =>
      complete w table (k (query (found_query_ok w i) StatusFound 1000 table)) rows
  | AwaitExists i j l f k =>
      complete w table (k (matchExists (exists_query_ok w i j) rows l f)) rows
  | AwaitInsert i j l f sim dist k =>
      complete w table (k (snd (saveMatch (insert_reply w i j) rows l f sim dist)))
               (fst (saveMatch (insert_reply w i j) rows l f sim dist))
  | AwaitSms i j lostPet m k => complete w table k rows
  | AwaitReport i j matchId k =>
      complete w table k
        (match report_writes (report_outcome w i j) with
         | Some st => updateMatchStatus matchId st rows
         | None => rows
         end)
  end.

(** ** Scan scheduler *)

(** [startMatchEngine] calls [processMatches()] once without awaiting it and
    registers [async () => { await processMatches(); }] with the cron
    library for every [CHECK_INTERVAL] minutes.  Neither the engine nor the
    callback keeps a flag that a pass is in flight: the callback starts a
    pass each time it is invoked, and the pass started at once is not the
    cron library's to know of.  Passes in flight take turns at their
    [await]s. *)
Module Scheduler.

Section Engine.
(** The record store, which the engine only reads. *)
Variable table : list Pet.

(** The engine: the match store, the passes in flight, each with the answers
    the outside world will give it, and how many passes have been started
    and have settled. *)
Record Engine : Type := {
  store : list MatchRow;
  in_flight : list (World * Pass);
  started : nat;
  settled : nat
}.

Definition running (e : Engine) : nat := length (in_flight e).

Inductive Trigger : Type :=
| Tick (w : World)     (* the interval elapses: the cron callback is invoked *)
| Resume (n : nat).    (* the call awaited by the [n]-th pass in flight settles *)

(** The state [startMatchEngine] leaves: the immediate pass is in flight. *)
Definition startMatchEngine (w : World) (rows : list MatchRow) : Engine :=
  {| store := rows;
     in_flight := [(w, processMatches_async)];
     started := 1;
     settled := 0 |}.

(** The cron callback: [await processMatches()], unconditionally. *)
Definition on_tick (w : World) (e : Engine) : Engine :=
  {| store := store e;
     in_flight := in_flight e ++ [(w, processMatches_async)];
     started := S (started e);
     settled := settled e |}.

Definition remove_nth (A : Type) (n : nat) (l : list A) : list A :=
  firstn n l ++ skipn (S n) l.

Definition replace_nth (A : Type) (n : nat) (x : A) (l : list A) : list A :=
  firstn n l ++ x :: skipn (S n) l.

Definition on_resume (n : nat) (e : Engine) : option Engine :=
  match nth_error (in_flight e) n with
  | None => None
  | Some (w, p) =>
      let '(p', rows') := resume w table p (store e) in
      Some match p' with
           | Finished _ =>
               {| store := rows';
                  in_flight := remove_nth n (in_flight e);
                  started := started e;
                  settled := S (settled e) |}
           | _ =>
               {| store := rows';
                  in_flight := replace_nth n (w, p') (in_flight e);
                  started := started e;
                  settled := settled e |}
           end
  end.

Definition step (e : Engine) (t : Trigger) : option Engine :=
  match t with
  | Tick w => Some (on_tick w e)
  | Resume n => on_resume n e
  end.

(** The engine after a trace of triggers ([None]: the trace resumes a pass
    that is not in flight, which cannot happen). *)
Fixpoint run (e : Engine) (trace : list Trigger) : option Engine :=
  match trace with
  | [] => Some e
  | t :: rest =>
      match step e t with
      | Some e' => run e' rest
      | None => None
      end
  end.

(** Every [Tick] of the trace arrives while no pass is in flight. *)
Fixpoint ticks_when_idle (e : Engine) (trace : list Trigger) : bool :=
  match trace with
  | [] => true
  | t :: rest =>
      match t with
      | Tick _ => (running e =? 0)%nat
      | Resume _ => true
      end
      && match step e t with
         | Some e' => ticks_when_idle e' rest
         | None => true
         end
  end.

(** The worlds of the passes the triggers of a trace start. *)
Fixpoint tick_worlds (trace : list Trigger) : list World :=
  match trace with
  | [] => []
  | Tick w :: rest => w :: tick_worlds rest
  | Resume _ :: rest => tick_worlds rest
  end.

(** The match store after passes run one after another, each to its end. *)
Definition sequential (worlds : list World) (rows : list MatchRow)
  : list MatchRow :=
  fold_left (fun r w => rows_after r (processMatches w table r)) worlds rows.

(** The match store once the pass in flight, if there is one, has run to
    its end. *)
Definition settle (e : Engine) : list MatchRow :=
  match in_flight e with
  | [(w, p)] => fst (complete w table p (store e))
  | _ => store e
  end.

End Engine.
End Scheduler.

(** ** The report generator ([match-report-generator.js])

    [processMatchReport] is what the fan-out calls for every new match.  It
    reads the match row, the two pet records and the shelter directory,
    has the PDF made, hands it to one mail service and writes the status
    of the match.  The answers of the directory and of the mail services,
    and whether the PDF library produces the document, are not the
    program's to decide; a [ReportWorld] fixes them for one call. *)

(** The columns of a [lost_pets] row that [getShelterEmail] reads. *)
Record PetDetails : Type := {
  shelter_id : option nat;
  owner_name : option string;
  location_city : option string;
  location_state : option string
}.

(** A row of [shelters_directory] as the three lookups select it. *)
Record Shelter : Type := {
  shelter_email : option string;
  shelter_name : option string
}.

(** The answers of the shelter directory: the [data] of each lookup, [None]
    for [null] (no row, or an error). *)
Record Directory : Type := {
  shelter_by_id : nat -> option Shelter;
      (* .eq('id', shelter_id).single() *)
  shelter_by_name : string -> option Shelter;
      (* .ilike('name', `%${owner_name}%`).limit(1).single() *)
  shelters_by_location : string -> string -> option (list Shelter)
      (* .ilike('city', `%${location_city}%`).eq('state', location_state).limit(1) *)
}.

(** [{ email, name }] of a shelter record as [getShelterEmail] returns it. *)
Record ShelterInfo : Type := {
  info_email : string;
  info_name : option string
}.

(** [if (shelter?.email) return { email: shelter.email, name: shelter.name }] *)
Definition shelter_info (shelter : option Shelter) : option ShelterInfo :=
  match shelter with
  | Some sh =>
      match truthy_string (shelter_email sh) with
      | Some email => Some {| info_email := email; info_name := shelter_name sh |}
      | None => None
      end
  | None => None
  end.

(** The three attempts of [getShelterEmail], each made only under its guard. *)
Definition by_shelter_id (d : Directory) (foundPet : PetDetails)
  : option ShelterInfo :=
  match truthy_id (shelter_id foundPet) with
  | Some sid => shelter_info (shelter_by_id d sid)
  | None => None
  end.

Definition by_owner_name (d : Directory) (foundPet : PetDetails)
  : option ShelterInfo :=
  match truthy_string (owner_name foundPet) with
  | Some name =>
      if String.eqb name "Unknown" then None
      else shelter_info (shelter_by_name d name)
  | None => None
  end.

Definition by_location (d : Directory) (foundPet : PetDetails)
  : option ShelterInfo :=
  match truthy_string (location_city foundPet),
        truthy_string (location_state foundPet) with
  | Some city, Some state =>
      match shelters_by_location d city state with
      | Some (sh :: _) => shelter_info (Some sh)      (* shelters?.[0]?.email *)
      | _ => None
      end
  | _, _ => None
  end.

Definition getShelterEmail (d : Directory) (foundPet : PetDetails)
  : option ShelterInfo :=
  match by_shelter_id d foundPet with
  | Some info => Some info
  | None =>
      match by_owner_name d foundPet with
      | Some info => Some info
      | None => by_location d foundPet
      end
  end.

Inductive Provider : Type := Sinch | SendGrid | Resend.

(** The mail configuration and the mail services during one call: which of
    the three API keys are set, and whether the [try] block of the sender of
    a provider runs to its end. *)
Record Mailer : Type := {
  SINCH_EMAIL_API_KEY : bool;
  SENDGRID_API_KEY : bool;
  RESEND_API_KEY : bool;
  provider_accepts : Provider -> bool
}.

(** The object the senders return, [{ success: true, messageId }] or
    [{ success: false, error }], with the provider that was called. *)
Inductive EmailResult : Type :=
| EmailSent (via : Provider)
| EmailNotSent (tried : option Provider).

(** [sendViaSinchEmail], [sendViaSendGrid], [sendViaResend]: each catches
    what its call throws. *)
Definition sendVia (p : Provider) (m : Mailer) : EmailResult :=
  if provider_accepts m p then EmailSent p else EmailNotSent (Some p).

Definition sendViaSinchEmail : Mailer -> EmailResult := sendVia Sinch.
Definition sendViaSendGrid : Mailer -> EmailResult := sendVia SendGrid.
Definition sendViaResend : Mailer -> EmailResult := sendVia Resend.

(** [sendMatchReportEmail]: the two bodies are built by string
    interpolation; then the first service whose key is set is called, and
    its answer is the answer. *)
Definition sendMatchReportEmail (m : Mailer) : EmailResult :=
  if SINCH_EMAIL_API_KEY m then sendViaSinchEmail m
  else if SENDGRID_API_KEY m then sendViaSendGrid m
  else if RESEND_API_KEY m then sendViaResend m
  else EmailNotSent None.

(** The answers [processMatchReport] gets during one call. *)
Record ReportWorld : Type := {
  match_query_ok : bool;
  pet_details : nat -> option PetDetails;
      (* from('lost_pets').select('*').eq('id', id).single(): data *)
  directory : Directory;
  pdf_generated : bool;          (* generateMatchReport resolves *)
  mailer : Mailer;
  status_update_ok : bool        (* the update of updateMatchStatus goes through *)
}.

(** [.from('pet_matches').select('*').eq('id', matchId).single()]: the row,
    when there is exactly one. *)
Definition match_by_id (ok : bool) (rows : list MatchRow) (matchId : nat)
  : option MatchRow :=
  if ok then
    match filter (fun r => (row_id r =? matchId)%nat) rows with
    | [r] => Some r
    | _ => None
    end
  else None.

(** The status a call of [updateMatchStatus] leaves written. *)
Definition written (rw : ReportWorld) (st : MatchStatus) : option MatchStatus :=
  if status_update_ok rw then Some st else None.

(** [processMatchReport].  The store client resolves every call to
    [{ data, error }] and the senders catch what they throw, so the call is
    rejected only when [generateMatchReport] is. *)
Definition processMatchReport (rw : ReportWorld) (rows : list MatchRow)
           (matchId : nat) : ReportOutcome :=
  match match_by_id (match_query_ok rw) rows matchId with
  | None => ReportNotSent None                        (* 'Match not found' *)
  | Some m =>
      match pet_details rw (lost_pet_id m), pet_details rw (found_pet_id m) with
      | Some _, Some foundPet =>
          match getShelterEmail (directory rw) foundPet with
          | None => ReportNotSent (written rw NoShelterEmail)
          | Some shelterInfo =>
              if pdf_generated rw then
                match sendMatchReportEmail (mailer rw) with
                | EmailSent _ =>
                    ReportSent (info_email shelterInfo) (status_update_ok rw)
                | EmailNotSent _ =>
                    ReportNotSent (written rw NotificationFailed)
                end
              else ReportThrew
          end
      | _, _ => ReportNotSent None                    (* 'Pet data not found' *)
      end
  end.

(** The match store after a call of [processMatchReport]. *)
Definition rows_after_report (rw : ReportWorld) (rows : list MatchRow)
           (matchId : nat) : list MatchRow :=
  match report_writes (processMatchReport rw rows matchId) with
  | Some st => updateMatchStatus matchId st rows
  | None => rows
  end.

(** ** Notions used to state the properties *)

(** The dot product of two real vectors of one length. *)
Fixpoint dot (v1 v2 : list R) : R :=
  match v1, v2 with
  | x :: v1', y :: v2' => x * y + dot v1' v2'
  | _, _ => 0
  end.

(** The Euclidean norm of a vector of reals. *)
Definition euclidean_norm (v : list R) : R := sqrt (dot v v).

(** The degenerate inputs of [cosineSimilarity]. *)
Inductive degenerate : vector R -> vector R -> Prop :=
| degenerate_null_left (vec2 : vector R) : degenerate None vec2
| degenerate_null_right (vec1 : vector R) : degenerate vec1 None
| degenerate_lengths (v1 v2 : list R) :
    length v1 <> length v2 -> degenerate (Some v1) (Some v2)
| degenerate_empty_left (v2 : list R) : degenerate (Some []) (Some v2)
| degenerate_empty_right (v1 : list R) : degenerate (Some v1) (Some [])
| degenerate_norm_left (v1 v2 : list R) :
    euclidean_norm v1 = 0 -> degenerate (Some v1) (Some v2)
| degenerate_norm_right (v1 v2 : list R) :
    euclidean_norm v2 = 0 -> degenerate (Some v1) (Some v2).

(** [d <= limit] as a proposition. *)
Definition within (d : miles) (limit : R) : Prop :=
  match d with
  | Infinity => False
  | Finite x => x <= limit
  end.

(** Every pairwise similarity of the Cartesian product, lost vectors outermost. *)
Definition pairwise (lostVectors foundVectors : list (vector R)) : list R :=
  flat_map (fun lostVector =>
              map (fun foundVector => cosineSimilarity lostVector foundVector)
                  foundVectors)
           lostVectors.

(** [m] is the greatest element of [l]. *)
Definition is_maximum (m : R) (l : list R) : Prop :=
  In m l /\ forall x, In x l -> x <= m.

(** The pair a row records, and the pairs a store holds. *)
Definition pair_of (r : MatchRow) : nat * nat := (lost_pet_id r, found_pet_id r).

Definition recorded (rows : list MatchRow) (lostPetId foundPetId : nat) : Prop :=
  In (lostPetId, foundPetId) (map pair_of rows).

(** Every store call of the pass succeeds. *)
Definition store_answers (w : World) : Prop :=
  lost_query_ok w = true
  /\ (forall i, found_query_ok w i = true)
  /\ (forall i j, insert_reply w i j <> None).

(** The candidates of the lost pet at position [i] of the batch. *)
Definition matches_of (w : World) (table : list Pet) (i : nat) (lostPet : Pet)
  : list Match :=
  findMatchesForLostPet (query (found_query_ok w i) StatusFound 1000 table)
                        lostPet.

(** Every store call that failed in the pass of [w1] fails again in the
    pass of [w2]. *)
Definition repeats_failures (w1 w2 : World) : Prop :=
  (lost_query_ok w2 = true -> lost_query_ok w1 = true)
  /\ (forall i, found_query_ok w2 i = true -> found_query_ok w1 i = true)
  /\ (forall i j, insert_reply w1 i j = None -> insert_reply w2 i j = None).

(** Every existence lookup of the pass is answered. *)
Definition lookups_answered (w : World) : Prop :=
  forall i j, exists_query_ok w i j = true.

(** A call of the pass without its outcome. *)
Inductive Call : Type :=
| CallInsert (row : MatchRow)
| CallNotify (lostPetId foundPetId : nat)
| CallReport (matchId : nat).

Definition call_of (e : Event) : Call :=
  match e with
  | Persisted row => CallInsert row
  | Notified l f _ => CallNotify l f
  | Reported matchId _ => CallReport matchId
  end.

(** A row without its status. *)
Definition row_key (r : MatchRow) : nat * nat * nat * R * miles :=
  (row_id r, lost_pet_id r, found_pet_id r, similarity_score r, distance_miles r).

(** The world [w] with other outcomes of the SMS posts and of the report
    generator. *)
Definition with_outcomes (w : World) (post : nat -> nat -> bool)
           (report : nat -> nat -> ReportOutcome) : World :=
  {| lost_query_ok := lost_query_ok w;
     found_query_ok := found_query_ok w;
     exists_query_ok := exists_query_ok w;
     insert_reply := insert_reply w;
     sms_configured := sms_configured w;
     sms_post_ok := post;
     report_outcome := report |}.

(** The shape of a pass's log: every persisted row whose id the code sees
    is followed at once by its notification call and its report call. *)
Inductive fanout_log : list Event -> Prop :=
| fanout_done : fanout_log []
| fanout_unseen (row : MatchRow) (rest : list Event) :
    row_id row = 0%nat -> fanout_log rest ->
    fanout_log (Persisted row :: rest)
| fanout_block (row : MatchRow) (sms : SmsOutcome) (report : ReportOutcome)
               (rest : list Event) :
    row_id row <> 0%nat -> fanout_log rest ->
    fanout_log (Persisted row
                :: Notified (lost_pet_id row) (found_pet_id row) sms
                :: Reported (row_id row) report :: rest).

Definition is_notified (e : Event) : bool :=
  match e with Notified _ _ _ => true | _ => false end.

Definition is_seen_insert (e : Event) : bool :=
  match e with
  | Persisted row => negb (row_id row =? 0)%nat
  | _ => false
  end.

(** Two pass states that differ in outcomes only. *)
Definition same_calls (s s' : PassState) : Prop :=
  map row_key (match_rows s) = map row_key (match_rows s')
  /\ totalMatches s = totalMatches s'
  /\ notificationsSent s = notificationsSent s'
  /\ map call_of (events s) = map call_of (events s').

(** The invariant of the two counters of a pass. *)
Definition counters_agree (s : PassState) : Prop :=
  notificationsSent s = totalMatches s
  /\ totalMatches s = length (filter is_notified (events s))
  /\ totalMatches s = length (filter is_seen_insert (events s)).

(** [c * v], entry by entry. *)
Definition scale (c : R) (v : list R) : list R := map (Rmult c) v.

(** A coordinate the guard of [calculateDistance] rejects. *)
Definition missing (c : coordinate) : Prop := c = None \/ c = Some 0.

(** What the loop over the pool pushes: the entries of the counterparts
    that pass, in pool order. *)
Definition passes (lostPet foundPet : Pet) : bool :=
  negb (no_vectors foundPet)
  && Rleb (MATCH_THRESHOLD CONFIG)
          (maxSimilarity (embeddings lostPet) (embeddings foundPet))
  && miles_leb (pair_distance lostPet foundPet) (MAX_DISTANCE_MILES CONFIG).

(** The rows a pass inserted, in the order of the inserts. *)
Definition persisted (evs : list Event) : list MatchRow :=
  flat_map (fun e => match e with Persisted row => [row] | _ => [] end) evs.

(** A record the two queries of the engine can return. *)
Definition scannable (p : Pet) : bool :=
  match status p, image_vectors p with
  | StatusLost, Some _ | StatusFound, Some _ => true
  | _, _ => false
  end.

(** The row was inserted as pending for a lost record of the table and a
    candidate the scan returned for it, a found record of the table, with
    the score and the distance of the candidate. *)
Definition inserted_for (w : World) (table : list Pet) (row : MatchRow)
  : Prop :=
  exists (i : nat) (lostPet : Pet) (m : Match),
    In lostPet table /\ status lostPet = StatusLost
    /\ In m (matches_of w table i lostPet)
    /\ In (foundPet m) table /\ status (foundPet m) = StatusFound
    /\ lost_pet_id row = id lostPet /\ found_pet_id row = id (foundPet m)
    /\ similarity_score row = similarity m
    /\ distance_miles row = distance m
    /\ match_status row = Pending.

(** The invariant of the loops of a pass that started from [rows0]. *)
Definition ledger (w : World) (table : list Pet) (rows0 : list MatchRow)
           (s : PassState) : Prop :=
  map row_key (match_rows s)
  = map row_key rows0 ++ map row_key (persisted (events s))
  /\ Forall (inserted_for w table) (persisted (events s))
  /\ (totalMatches s <= length (persisted (events s)))%nat.

(** The API key of a provider, and the providers [sendMatchReportEmail]
    asks for before it. *)
Definition api_key (m : Mailer) (p : Provider) : bool :=
  match p with
  | Sinch => SINCH_EMAIL_API_KEY m
  | SendGrid => SENDGRID_API_KEY m
  | Resend => RESEND_API_KEY m
  end.

Definition asked_before (p : Provider) : list Provider :=
  match p with
  | Sinch => []
  | SendGrid => [Sinch]
  | Resend => [Sinch; SendGrid]
  end.

(** The lookup that gave [getShelterEmail] its answer [sh]. *)
Inductive found_by (d : Directory) (foundPet : PetDetails) (sh : Shelter)
  : Prop :=
| found_by_id (sid : nat) :
    shelter_id foundPet = Some sid -> sid <> 0%nat ->
    shelter_by_id d sid = Some sh -> found_by d foundPet sh
| found_by_name (name : string) :
    owner_name foundPet = Some name ->
    name <> EmptyString -> name <> "Unknown"%string ->
    shelter_by_name d name = Some sh -> found_by d foundPet sh
| found_by_location (city state : string) (rest : list Shelter) :
    location_city foundPet = Some city -> city <> EmptyString ->
    location_state foundPet = Some state -> state <> EmptyString ->
    shelters_by_location d city state = Some (sh :: rest) ->
    found_by d foundPet sh.

(** What a call found before it reached the mail: the one row of the match,
    both pet records and a shelter address. *)
Definition ready_to_send (rw : ReportWorld) (rows : list MatchRow)
           (matchId : nat) (info : ShelterInfo) : Prop :=
  exists (m : MatchRow) (lostPet foundPet : PetDetails),
    match_by_id (match_query_ok rw) rows matchId = Some m
    /\ pet_details rw (lost_pet_id m) = Some lostPet
    /\ pet_details rw (found_pet_id m) = Some foundPet
    /\ getShelterEmail (directory rw) foundPet = Some info.

(** The state in which a pass starts. *)
Definition pass_start (rows : list MatchRow) : PassState :=
  {| match_rows := rows; totalMatches := 0; notificationsSent := 0; events := [] |}.

(** The state of a pass when its loops reach the match at index [j] of the
    lost pet at index [i] of the batch. *)
Definition state_before (w : World) (table : list Pet) (rows : list MatchRow)
           (i j : nat) : PassState :=
  let lostPets := select_pets StatusLost (BATCH_SIZE CONFIG) table in
  let s := for_lostPets w table 0 (firstn i lostPets) (pass_start rows) in
  match nth_error lostPets i with
  | Some lostPet =>
      for_matches w i 0 lostPet (firstn j (matches_of w table i lostPet)) s
  | None => s
  end.

(** The match at index [j] of the lost pet at index [i] is new in the pass:
    the loop reaches it and its lookup does not find the pair. *)
Definition new_match (w : World) (table : list Pet) (rows : list MatchRow)
           (i j : nat) (lostPet : Pet) (m : Match) : Prop :=
  lost_query_ok w = true
  /\ nth_error (select_pets StatusLost (BATCH_SIZE CONFIG) table) i = Some lostPet
  /\ nth_error (matches_of w table i lostPet) j = Some m
  /\ matchExists (exists_query_ok w i j)
                 (match_rows (state_before w table rows i j))
                 (id lostPet) (foundPetId m) = false.

(** ** A concrete record set

    One lost pet and found pets photographed alike at the same place. *)

Definition demo_lost : Pet :=
  {| id := 1; pet_name := "Rex"%string; status := StatusLost;
     image_vectors := Some [Some [1; 0]];
     location_lat := Some 45; location_lon := Some (-73);
     owner_phone := Some "+15550100"%string; contact_phone := None |}.

Definition demo_found : Pet :=
  {| id := 2; pet_name := "Stray"%string; status := StatusFound;
     image_vectors := Some [Some [1; 0]];
     location_lat := Some 45; location_lon := Some (-73);
     owner_phone := None; contact_phone := None |}.

Definition demo_table : list Pet := [demo_lost; demo_found].

(** The entry the scan pushes for [demo_found]. *)
Definition demo_match : Match :=
  {| foundPetId := 2; foundPetName := "Stray"%string;
     similarity := maxSimilarity (embeddings demo_lost) (embeddings demo_found);
     distance := pair_distance demo_lost demo_found;
     foundPet := demo_found |}.

(** A world in which every call succeeds and the match store numbers its
    rows from [first_id]; and one in which the match store rejects every
    insert. *)
Definition store_up_from (first_id : nat) : World :=
  {| lost_query_ok := true;
     found_query_ok := fun _ => true;
     exists_query_ok := fun _ _ => true;
     insert_reply := fun i j => Some (first_id + i + j)%nat;
     sms_configured := true;
     sms_post_ok := fun _ _ => true;
     report_outcome := fun _ _ => ReportSent "shelter@example.org"%string true |}.

Definition store_up : World := store_up_from 1.

Definition insert_down : World :=
  {| lost_query_ok := true;
     found_query_ok := fun _ => true;
     exists_query_ok := fun _ _ => true;
     insert_reply := fun _ _ => None;
     sms_configured := true;
     sms_post_ok := fun _ _ => true;
     report_outcome := fun _ _ => ReportSent "shelter@example.org"%string true |}.

(** A world in which every existence lookup comes back with an error. *)
Definition lookup_down : World :=
  {| lost_query_ok := true;
     found_query_ok := fun _ => true;
     exists_query_ok := fun _ _ => false;
     insert_reply := fun i j => Some (S (i + j));
     sms_configured := true;
     sms_post_ok := fun _ _ => true;
     report_outcome := fun _ _ => ReportSent "shelter@example.org"%string true |}.

(** A second found pet, alike the first. *)
Definition demo_found2 : Pet :=
  {| id := 3; pet_name := "Buddy"%string; status := StatusFound;
     image_vectors := Some [Some [1; 0]];
     location_lat := Some 45; location_lon := Some (-73);
     owner_phone := None; contact_phone := None |}.

Definition demo_table2 : list Pet := [demo_lost; demo_found; demo_found2].

Definition demo_match2 : Match :=
  {| foundPetId := 3; foundPetName := "Buddy"%string;
     similarity := 1;
     distance := Finite 0;
     foundPet := demo_found2 |}.

(** Every store call succeeds; for the first match the SMS post throws and
    the report generator throws. *)
Definition first_fanout_fails : World :=
  {| lost_query_ok := true;
     found_query_ok := fun _ => true;
     exists_query_ok := fun _ _ => true;
     insert_reply := fun i j => Some (S (i + j));
     sms_configured := true;
     sms_post_ok := fun _ j => negb (j =? 0)%nat;
     report_outcome := fun _ j =>
       match j with
       | O => ReportThrew
       | S _ => ReportSent "shelter@example.org"%string true
       end |}.

(** One pass over the concrete records run to its end, step by step, and
    then a trigger. *)
Definition sequential_trace : list Scheduler.Trigger :=
  [ Scheduler.Resume 0;      (* the batch of lost pets arrives *)
    Scheduler.Resume 0;      (* the found pets arrive *)
    Scheduler.Resume 0;      (* the lookup: no record *)
    Scheduler.Resume 0;      (* the insert *)
    Scheduler.Resume 0;      (* the SMS *)
    Scheduler.Resume 0;      (* the report; the pass ends *)
    Scheduler.Tick (store_up_from 2) ].

(** A trigger while the first pass is in flight, and the two passes taking
    turns at their awaits: both look the pair up before either inserts it. *)
Definition overlapping_trace : list Scheduler.Trigger :=
  [ Scheduler.Tick (store_up_from 2);
    Scheduler.Resume 0; Scheduler.Resume 1;    (* both get the batch of lost pets *)
    Scheduler.Resume 0; Scheduler.Resume 1;    (* both get the found pets *)
    Scheduler.Resume 0; Scheduler.Resume 1;    (* both look the pair up: no record *)
    Scheduler.Resume 0; Scheduler.Resume 1 ].  (* both insert it *)

(** A shelter directory that knows one shelter by its town, a found pet
    handed in by an unknown owner there, and a mail configuration without
    the first of the three keys. *)
Definition demo_directory : Directory :=
  {| shelter_by_id := fun _ => None;
     shelter_by_name := fun _ => None;
     shelters_by_location := fun _ _ =>
       Some [ {| shelter_email := Some "shelter@example.org"%string;
                 shelter_name := Some "City Shelter"%string |} ] |}.

Definition demo_details : PetDetails :=
  {| shelter_id := None;
     owner_name := Some "Unknown"%string;
     location_city := Some "Montreal"%string;
     location_state := Some "QC"%string |}.

Definition demo_mailer : Mailer :=
  {| SINCH_EMAIL_API_KEY := false;
     SENDGRID_API_KEY := true;
     RESEND_API_KEY := true;
     provider_accepts := fun _ => true |}.

(** A call of the report generator in which everything succeeds. *)
Definition demo_report_world : ReportWorld :=
  {| match_query_ok := true;
     pet_details := fun _ => Some demo_details;
     directory := demo_directory;
     pdf_generated := true;
     mailer := demo_mailer;
     status_update_ok := true |}.

(** The same, with a mail service that refuses the message. *)
Definition demo_report_world_refused : ReportWorld :=
  {| match_query_ok := true;
     pet_details := fun _ => Some demo_details;
     directory := demo_directory;
     pdf_generated := true;
     mailer := {| SINCH_EMAIL_API_KEY := false;
                  SENDGRID_API_KEY := true;
                  RESEND_API_KEY := true;
                  provider_accepts := fun _ => false |};
     status_update_ok := true |}.

(** The match store after the insert of the pair of the concrete records. *)
Definition demo_rows : list MatchRow := [pending_row 1 1 2 1 (Finite 0)].

(** The Math library at the arguments of the calls evaluated below: the
    correctly rounded sine, cosine and arc tangent there, [Math.sin]
    extended as an odd function with [Math.sin(0)] = [0], [Math.atan2(0, x)]
    = [0] for a positive [x], and no answer ([NaN]) elsewhere. *)
Definition rounded_sin (x : float) : float :=
  if PrimFloat.eqb x 0x1.acee9f37bebd5p-3 then 0x1.a9cd9ac4258f5p-3%float
  else if PrimFloat.eqb x 0x1.921fb54442d18p+0 then 1%float
  else PrimFloat.nan.

Definition odd_extension (f : float -> float) (x : float) : float :=
  if PrimFloat.ltb x 0 then (- f (- x))%float
  else if PrimFloat.ltb 0 x then f x
  else x.

Definition rounded_cos (x : float) : float :=
  if PrimFloat.eqb (PrimFloat.abs x) 0x1.acee9f37bebd5p-3
  then 0x1.f4cfc327a0080p-1%float
  else PrimFloat.nan.

Definition rounded_atan2 (y x : float) : float :=
  if PrimFloat.is_nan y || PrimFloat.is_nan x then PrimFloat.nan
  else if PrimFloat.is_zero y && PrimFloat.ltb 0 x then y
  else if PrimFloat.eqb y 0x1.a9cd9ac4258f5p-3
          && PrimFloat.eqb x 0x1.f4cfc327a0080p-1
       then 0x1.acee9f37bebd4p-3%float
  else PrimFloat.nan.

Definition rounded_math : Binary64.Math :=
  {| Binary64.Math_sin := odd_extension rounded_sin;
     Binary64.Math_cos := rounded_cos;
     Binary64.Math_atan2 := rounded_atan2 |}.

(** A lost and a found pet at one place whose only vectors have a
    similarity that is exactly the double [0.85]. *)
Definition lost_at_threshold : Binary64.Pet :=
  {| Binary64.id := 1; Binary64.pet_name := "Rex"%string;
     Binary64.image_vectors := Some [Some [1; 0]%float];
     Binary64.location_lat := Some 12%float;
     Binary64.location_lon := Some 1%float |}.

Definition found_at_threshold : Binary64.Pet :=
  {| Binary64.id := 2; Binary64.pet_name := "Stray"%string;
     Binary64.image_vectors := Some [Some [0x1.9d12d4cfd6f0ep+0; 1]%float];
     Binary64.location_lat := Some 12%float;
     Binary64.location_lon := Some 1%float |}.

(** * Properties *)

(** ** Similarity kernel, for every arithmetic *)

Section KernelFacts.
Context {T : Type} {N : JsNumber T} {L : JsNumberLaws N}.

(** The second and third running sums are the sums of squares of each
    vector on its own. *)
Lemma accumulate_norms (v1 : list T) :
  forall (v2 : list T) (d a b : T),
    length v1 = length v2 ->
    exists d',
      accumulate v1 v2 d a b
      = (d', fold_left (fun acc x => num_add acc (num_mul x x)) v1 a,
             fold_left (fun acc x => num_add acc (num_mul x x)) v2 b).
Proof.
  induction v1 as [|x v1 IH]; intros [|y v2] d a b Hlen; simpl in *;
    try discriminate.
  - now exists d.
  - apply IH. now injection Hlen.
Qed.

Lemma cosineSimilarity_null_left (vec2 : vector T) :
  cosineSimilarity None vec2 = num_zero.
Proof. reflexivity. Qed.

Lemma cosineSimilarity_null_right (vec1 : vector T) :
  cosineSimilarity vec1 None = num_zero.
Proof. now destruct vec1. Qed.

Lemma cosineSimilarity_length_mismatch (v1 v2 : list T) :
  length v1 <> length v2 ->
  cosineSimilarity (Some v1) (Some v2) = num_zero.
Proof.
  intros Hne. unfold cosineSimilarity.
  apply Nat.eqb_neq in Hne. now rewrite Hne.
Qed.

(** A computed norm that [=== 0] sends the code to [return 0]. *)
Lemma cosineSimilarity_zero_computed_norm (v1 v2 : list T) :
  num_is_zero (computed_norm v1) = true
  \/ num_is_zero (computed_norm v2) = true ->
  cosineSimilarity (Some v1) (Some v2) = num_zero.
Proof.
  intros Hz. unfold cosineSimilarity.
  destruct (length v1 =? length v2)%nat eqn:Hlen; [simpl | reflexivity].
  apply Nat.eqb_eq in Hlen.
  destruct (accumulate_norms v1 v2 num_zero num_zero num_zero Hlen)
    as [d' ->].
  unfold computed_norm, sum_squares in Hz.
  destruct Hz as [-> | ->]; [reflexivity | now rewrite orb_true_r].
Qed.

Lemma cosineSimilarity_empty (v1 v2 : list T) :
  v1 = [] \/ v2 = [] ->
  cosineSimilarity (Some v1) (Some v2) = num_zero.
Proof.
  intros He. apply cosineSimilarity_zero_computed_norm.
  destruct He as [-> | ->]; [left | right]; apply sqrt_zero_is_zero.
Qed.

(** All degenerate branches at once, in any arithmetic in which
    [Math.sqrt(0) === 0]; in particular in binary64. *)
Lemma cosineSimilarity_degenerate_any (vec1 vec2 : vector T) :
  vec1 = None \/ vec2 = None
  \/ (exists v1 v2 : list T,
         vec1 = Some v1 /\ vec2 = Some v2
         /\ (length v1 <> length v2 \/ v1 = [] \/ v2 = []
             \/ num_is_zero (computed_norm v1) = true
             \/ num_is_zero (computed_norm v2) = true)) ->
  cosineSimilarity vec1 vec2 = num_zero.
Proof.
  intros [-> | [-> | (v1 & v2 & -> & -> & Hd)]].
  - apply cosineSimilarity_null_left.
  - apply cosineSimilarity_null_right.
  - destruct Hd as [Hlen | [He | [He | [Hn | Hn]]]].
    + now apply cosineSimilarity_length_mismatch.
    + apply cosineSimilarity_empty. now left.
    + apply cosineSimilarity_empty. now right.
    + apply cosineSimilarity_zero_computed_norm. now left.
    + apply cosineSimilarity_zero_computed_norm. now right.
Qed.

End KernelFacts.

#[export] Instance RNumberLaws : JsNumberLaws RNumber.
Proof.
  constructor. simpl. rewrite sqrt_0. unfold Ris_zero.
  destruct (Req_dec_T 0 0); [reflexivity | contradiction].
Qed.

#[export] Instance FNumberLaws : JsNumberLaws FNumber.
Proof. constructor. reflexivity. Qed.

Lemma Ris_zero_true (x : R) : Ris_zero x = true <-> x = 0.
Proof. unfold Ris_zero. destruct (Req_dec_T x 0); split; congruence. Qed.

Lemma Ris_zero_false (x : R) : Ris_zero x = false <-> x <> 0.
Proof. unfold Ris_zero. destruct (Req_dec_T x 0); split; congruence. Qed.

Lemma Rleb_true (x y : R) : Rleb x y = true <-> x <= y.
Proof. unfold Rleb. destruct (Rle_dec x y); split; auto; discriminate. Qed.

Lemma Rleb_false (x y : R) : Rleb x y = false <-> y < x.
Proof.
  unfold Rleb. destruct (Rle_dec x y); split; intros;
    try discriminate; try lra; auto.
Qed.

(** ** Exact arithmetic: dot products and the Cauchy-Schwarz bound *)

Lemma accumulate_sums (v1 : list R) :
  forall (v2 : list R) (d a b : R),
    length v1 = length v2 ->
    accumulate v1 v2 d a b = (d + dot v1 v2, a + dot v1 v1, b + dot v2 v2).
Proof.
  induction v1 as [|x v1 IH]; intros [|y v2] d a b Hlen; cbn in *;
    try discriminate.
  - f_equal; [f_equal |]; ring.
  - rewrite IH by now injection Hlen. f_equal; [f_equal |]; ring.
Qed.

Lemma sum_squares_dot (v : list R) : sum_squares v = dot v v.
Proof.
  unfold sum_squares.
  assert (G : forall a, fold_left (fun acc x => num_add acc (num_mul x x)) v a
                        = a + dot v v).
  { induction v as [|x v IH]; intros a; cbn.
    - ring.
    - rewrite IH. cbn. ring. }
  rewrite G. cbn. ring.
Qed.

Lemma dot_self_nonneg (v : list R) : 0 <= dot v v.
Proof. induction v as [|x v IH]; simpl; [lra | nra]. Qed.

Lemma dot_self_zero (v : list R) : dot v v = 0 <-> Forall (fun x => x = 0) v.
Proof.
  induction v as [|x v IH]; simpl.
  - split; [constructor | reflexivity].
  - pose proof (dot_self_nonneg v) as Hv. split.
    + intros Hs. assert (x * x = 0 /\ dot v v = 0) as [Hx Hd] by nra.
      constructor; [nra | now apply IH].
    + intros Hall. inversion Hall as [|? ? Hx Hrest]; subst.
      apply IH in Hrest. rewrite Hrest. ring.
Qed.

Lemma euclidean_norm_zero (v : list R) :
  euclidean_norm v = 0 <-> Forall (fun x => x = 0) v.
Proof.
  unfold euclidean_norm. rewrite <- dot_self_zero. split.
  - intros Hs. apply sqrt_eq_0; [apply dot_self_nonneg | exact Hs].
  - intros ->. apply sqrt_0.
Qed.

Lemma cross_term_bound (x y d A B : R) :
  0 <= A -> 0 <= B -> d * d <= A * B ->
  2 * (x * y * d) <= A * (y * y) + B * (x * x).
Proof.
  intros HA HB Hd.
  set (u := 2 * (x * y * d)). set (w := A * (y * y) + B * (x * x)).
  assert (Hw : 0 <= w) by (unfold w; nra).
  assert (Hsq : u * u <= w * w).
  { assert (Hxy : 0 <= 4 * ((x * y) * (x * y))) by nra.
    pose proof (Rmult_le_compat_l _ _ _ Hxy Hd) as Hscaled.
    pose proof (Rle_0_sqr (A * (y * y) - B * (x * x))) as Hdiff.
    unfold Rsqr in Hdiff.
    replace (u * u) with (4 * (x * y * (x * y)) * (d * d)) by (unfold u; ring).
    replace (w * w)
      with ((A * (y * y) - B * (x * x)) * (A * (y * y) - B * (x * x))
            + 4 * (x * y * (x * y)) * (A * B)) by (unfold w; ring).
    lra. }
  destruct (Rle_dec u w) as [|Hn]; [assumption|].
  exfalso. apply Hn. nra.
Qed.

Lemma cauchy_schwarz (v1 : list R) :
  forall v2 : list R, dot v1 v2 * dot v1 v2 <= dot v1 v1 * dot v2 v2.
Proof.
  induction v1 as [|x v1 IH]; intros [|y v2]; simpl; try nra.
  specialize (IH v2).
  pose proof (dot_self_nonneg v1) as HA.
  pose proof (dot_self_nonneg v2) as HB.
  pose proof (cross_term_bound x y HA HB IH) as Hcross.
  nra.
Qed.

(** [cosineSimilarity] on two real vectors of one length, in closed form. *)
Lemma cosineSimilarity_closed_form (v1 v2 : list R) :
  length v1 = length v2 ->
  cosineSimilarity (Some v1) (Some v2)
  = if Ris_zero (euclidean_norm v1) || Ris_zero (euclidean_norm v2) then 0
    else dot v1 v2 / (euclidean_norm v1 * euclidean_norm v2).
Proof.
  intros Hlen. unfold cosineSimilarity.
  apply Nat.eqb_eq in Hlen as Hb. rewrite Hb. cbn [negb].
  rewrite accumulate_sums by assumption. cbn.
  rewrite !Rplus_0_l. reflexivity.
Qed.

Lemma quotient_within_unit (d A B : R) :
  0 <= A -> 0 <= B -> d * d <= A * B ->
  sqrt A <> 0 -> sqrt B <> 0 ->
  -1 <= d / (sqrt A * sqrt B) <= 1.
Proof.
  intros HA HB Hd HnA HnB.
  pose proof (sqrt_pos A) as HsA. pose proof (sqrt_pos B) as HsB.
  assert (Hpos : 0 < sqrt A * sqrt B) by nra.
  assert (Hsq : (sqrt A * sqrt B) * (sqrt A * sqrt B) = A * B).
  { replace (sqrt A * sqrt B * (sqrt A * sqrt B))
      with ((sqrt A * sqrt A) * (sqrt B * sqrt B)) by ring.
    now rewrite !sqrt_sqrt. }
  set (n := sqrt A * sqrt B) in *.
  assert (Hd' : d * d <= n * n) by lra.
  assert (Hle : d <= n).
  { destruct (Rle_dec d n) as [|Hn]; [assumption | exfalso; apply Hn; nra]. }
  assert (Hge : - n <= d).
  { destruct (Rle_dec (- n) d) as [|Hn]; [assumption | exfalso; apply Hn; nra]. }
  split.
  - apply Rmult_le_reg_r with n; [assumption|].
    unfold Rdiv. rewrite Rmult_assoc, Rinv_l by lra. lra.
  - apply Rmult_le_reg_r with n; [assumption|].
    unfold Rdiv. rewrite Rmult_assoc, Rinv_l by lra. lra.
Qed.

Lemma computed_norm_euclidean (v : list R) : computed_norm v = euclidean_norm v.
Proof. unfold computed_norm, euclidean_norm. now rewrite sum_squares_dot. Qed.

(** C6.  On every degenerate input (a null vector, different lengths, an
    empty vector, a vector of Euclidean norm 0) [cosineSimilarity] returns
    exactly [0]; it is a total function, so no error is raised. *)
Theorem cosineSimilarity_degenerate_zero (vec1 vec2 : vector R) :
  degenerate vec1 vec2 -> cosineSimilarity vec1 vec2 = 0.
Proof.
  intros Hd. change (cosineSimilarity vec1 vec2 = num_zero).
  destruct Hd as [vec2 | vec1 | v1 v2 Hlen | v2 | v1
                  | v1 v2 Hn | v1 v2 Hn].
  - apply (cosineSimilarity_null_left (T := R)).
  - apply (cosineSimilarity_null_right (T := R)).
  - now apply (cosineSimilarity_length_mismatch (T := R)).
  - apply (cosineSimilarity_empty (T := R)). now left.
  - apply (cosineSimilarity_empty (T := R)). now right.
  - apply (cosineSimilarity_zero_computed_norm (T := R)). left.
    rewrite computed_norm_euclidean. now apply Ris_zero_true.
  - apply (cosineSimilarity_zero_computed_norm (T := R)). right.
    rewrite computed_norm_euclidean. now apply Ris_zero_true.
Qed.

Lemma cosineSimilarity_degenerate_zero_witness :
  cosineSimilarity (Some [0; 0]) (Some [3; 4]) = 0
  /\ cosineSimilarity (Some [1; 2]) (Some [1; 2; 3]) = 0
  /\ cosineSimilarity None (Some [1]) = 0
  /\ cosineSimilarity (Some []) (Some []) = 0.
Proof.
  split; [| split; [| split]].
  - apply (@cosineSimilarity_degenerate_zero (Some [0; 0]) (Some [3; 4])).
    apply degenerate_norm_left. apply euclidean_norm_zero.
    repeat constructor.
  - apply (@cosineSimilarity_degenerate_zero (Some [1; 2]) (Some [1; 2; 3])).
    apply degenerate_lengths. simpl. lia.
  - apply (@cosineSimilarity_degenerate_zero None (Some [1])).
    apply degenerate_null_left.
  - apply (@cosineSimilarity_degenerate_zero (Some []) (Some [])).
    apply degenerate_empty_left.
Defined.

(** On binary64 numbers the degenerate branches return [0] as well. *)
Lemma cosineSimilarity_degenerate_binary64 :
  cosineSimilarity (Some [0; 0]%float) (Some [3; 4]%float) = 0%float
  /\ cosineSimilarity (Some [1; 2]%float) (Some [1; 2; 3]%float) = 0%float
  /\ cosineSimilarity None (Some [1]%float) = 0%float
  /\ cosineSimilarity (Some (@nil float)) (Some (@nil float)) = 0%float.
Proof. repeat split; reflexivity. Qed.

(** C8, in exact arithmetic: the result of [cosineSimilarity] lies in
    [[-1, 1]] for all inputs (Cauchy-Schwarz for vectors of one length, [0]
    in every degenerate branch). *)
Theorem cosineSimilarity_exact_within_unit (vec1 vec2 : vector R) :
  -1 <= cosineSimilarity vec1 vec2 <= 1.
Proof.
  destruct vec1 as [v1|], vec2 as [v2|]; try (cbn; lra).
  destruct (Nat.eq_dec (length v1) (length v2)) as [Hlen | Hlen].
  - rewrite cosineSimilarity_closed_form by assumption.
    destruct (Ris_zero (euclidean_norm v1)) eqn:H1; [cbn; lra|].
    destruct (Ris_zero (euclidean_norm v2)) eqn:H2; [cbn; lra|].
    cbn [orb]. apply Ris_zero_false in H1, H2.
    apply quotient_within_unit; auto using dot_self_nonneg, cauchy_schwarz.
  - rewrite (cosineSimilarity_length_mismatch (T := R)) by assumption.
    cbn. lra.
Qed.

(** The run of [cosineSimilarity([1,1,1], [1,1,1])] on binary64 numbers:
    the three sums are [3]; [Math.sqrt(3)] is [1.7320508075688772]; the
    product of the two norms rounds to [2.9999999999999996]; and [3] divided
    by it is [1.0000000000000002]. *)
Lemma cosineSimilarity_binary64_trace :
  accumulate [1; 1; 1]%float [1; 1; 1]%float 0%float 0%float 0%float
  = (3, 3, 3)%float
  /\ PrimFloat.sqrt 3 = 0x1.bb67ae8584caap+0%float
  /\ PrimFloat.mul 0x1.bb67ae8584caap+0 0x1.bb67ae8584caap+0
     = 0x1.7ffffffffffffp+1%float
  /\ PrimFloat.div 3 0x1.7ffffffffffffp+1 = 0x1.0000000000001p+0%float.
Proof. repeat split; vm_compute; reflexivity. Qed.

(** C8 as stated fails on the numbers the program computes with: rounding
    takes the quotient above [1]. *)
Lemma cosineSimilarity_binary64_exceeds_one :
  cosineSimilarity (Some [1; 1; 1]%float) (Some [1; 1; 1]%float)
  = 0x1.0000000000001p+0%float
  /\ PrimFloat.leb
       (cosineSimilarity (Some [1; 1; 1]%float) (Some [1; 1; 1]%float))
       1%float = false.
Proof. split; vm_compute; reflexivity. Qed.

(** ** Geographic distance *)

Lemma miles_leb_within (d : miles) (limit : R) :
  miles_leb d limit = true <-> within d limit.
Proof.
  destruct d as [|x]; simpl.
  - split; [discriminate | contradiction].
  - apply Rleb_true.
Qed.

Lemma truthy_nonzero (x : R) : x <> 0 -> truthy (Some x) = Some x.
Proof. intros Hx. unfold truthy. now apply Ris_zero_false in Hx as ->. Qed.

Lemma truthy_zero : truthy (Some 0) = None.
Proof. unfold truthy. now rewrite (proj2 (Ris_zero_true 0) eq_refl). Qed.

Lemma haversine_a_sym (lat1 lon1 lat2 lon2 : R) :
  haversine_a lat1 lon1 lat2 lon2 = haversine_a lat2 lon2 lat1 lon1.
Proof.
  unfold haversine_a.
  replace ((lat1 - lat2) * PI / 180 / 2)
    with (- ((lat2 - lat1) * PI / 180 / 2)) by field.
  replace ((lon1 - lon2) * PI / 180 / 2)
    with (- ((lon2 - lon1) * PI / 180 / 2)) by field.
  rewrite !sin_neg. ring.
Qed.

Lemma haversine_a_same (lat lon : R) : haversine_a lat lon lat lon = 0.
Proof.
  unfold haversine_a.
  replace ((lat - lat) * PI / 180 / 2) with 0 by field.
  replace ((lon - lon) * PI / 180 / 2) with 0 by field.
  rewrite sin_0. ring.
Qed.

(** In exact arithmetic the haversine term stays in [[0, 1]], so both
    square roots of [calculateDistance] are taken of non-negative numbers. *)
Lemma haversine_a_range (lat1 lon1 lat2 lon2 : R) :
  0 <= haversine_a lat1 lon1 lat2 lon2 <= 1.
Proof.
  unfold haversine_a.
  set (x := (lat2 - lat1) * PI / 180 / 2).
  set (y := (lon2 - lon1) * PI / 180 / 2).
  set (m := (lat1 + lat2) * PI / 180 / 2).
  replace (lat1 * PI / 180) with (m - x) by (unfold m, x; field).
  replace (lat2 * PI / 180) with (m + x) by (unfold m, x; field).
  rewrite cos_minus, cos_plus.
  pose proof (sin2_cos2 x) as Hx. pose proof (sin2_cos2 m) as Hm.
  pose proof (sin2_cos2 y) as Hy.
  pose proof (Rle_0_sqr (sin x)) as Hsx. pose proof (Rle_0_sqr (cos x)) as Hcx.
  pose proof (Rle_0_sqr (sin m)) as Hsm. pose proof (Rle_0_sqr (cos m)) as Hcm.
  pose proof (Rle_0_sqr (sin y)) as Hsy. pose proof (Rle_0_sqr (cos y)) as Hcy.
  unfold Rsqr in *.
  assert (E : sin x * sin x
              + (cos m * cos x + sin m * sin x)
                * (cos m * cos x - sin m * sin x) * sin y * sin y
              = (sin x * sin x) * (1 - sin y * sin y)
                + (sin y * sin y) * (1 - sin m * sin m)).
  { transitivity (sin x * sin x
                  + ((cos m * cos m) * (cos x * cos x)
                     - (sin m * sin m) * (sin x * sin x)) * (sin y * sin y));
      [ring|].
    replace (cos m * cos m) with (1 - sin m * sin m) by lra.
    replace (cos x * cos x) with (1 - sin x * sin x) by lra.
    ring. }
  rewrite E.
  assert (Hs : 0 <= sin x * sin x <= 1) by lra.
  assert (Hu : 0 <= sin m * sin m <= 1) by lra.
  assert (Ht : 0 <= sin y * sin y <= 1) by lra.
  split; nra.
Qed.

Lemma atan2_0_1 : atan2 0 1 = 0.
Proof.
  unfold atan2. destruct (Rlt_dec 0 1) as [_ | Hn]; [| exfalso; lra].
  replace (0 / 1) with 0 by field. apply atan_0.
Qed.

(** In exact arithmetic [calculateDistance] does not depend on the order of
    its two endpoints, whether the guard rejects them or not. *)
Theorem calculateDistance_symmetric (lat1 lon1 lat2 lon2 : coordinate) :
  calculateDistance lat1 lon1 lat2 lon2 = calculateDistance lat2 lon2 lat1 lon1.
Proof.
  unfold calculateDistance.
  destruct (truthy lat1) as [a1|], (truthy lon1) as [o1|],
           (truthy lat2) as [a2|], (truthy lon2) as [o2|]; try reflexivity.
  cbv zeta. now rewrite (haversine_a_sym a1 o1 a2 o2).
Qed.

(** With four non-zero coordinates the guard passes and the haversine
    formula is evaluated. *)
Lemma calculateDistance_truthy (lat1 lon1 lat2 lon2 : R) :
  lat1 <> 0 -> lon1 <> 0 -> lat2 <> 0 -> lon2 <> 0 ->
  calculateDistance (Some lat1) (Some lon1) (Some lat2) (Some lon2)
  = Finite (3959 * (2 * atan2 (sqrt (haversine_a lat1 lon1 lat2 lon2))
                              (sqrt (1 - haversine_a lat1 lon1 lat2 lon2)))).
Proof.
  intros H1 H2 H3 H4. unfold calculateDistance.
  now rewrite !truthy_nonzero by assumption.
Qed.

(** C5, as the code has it: two identical endpoints whose latitude and
    longitude are both non-zero are at distance [0]. *)
Theorem calculateDistance_same_point (lat lon : R) :
  lat <> 0 -> lon <> 0 ->
  calculateDistance (Some lat) (Some lon) (Some lat) (Some lon) = Finite 0.
Proof.
  intros Hlat Hlon.
  rewrite calculateDistance_truthy by assumption.
  rewrite haversine_a_same, Rminus_0_r, sqrt_0, sqrt_1, atan2_0_1.
  f_equal. ring.
Qed.

Lemma calculateDistance_same_point_witness :
  calculateDistance (Some 45) (Some (-73)) (Some 45) (Some (-73)) = Finite 0.
Proof. apply (@calculateDistance_same_point 45 (-73)); lra. Defined.

(** C5 as stated fails where a coordinate is [0]: the guard answers
    [Infinity] for a point on the equator. *)
Lemma calculateDistance_zero_latitude :
  calculateDistance (Some 0) (Some (-73)) (Some 0) (Some (-73)) = Infinity
  /\ calculateDistance (Some 0) (Some (-73)) (Some 0) (Some (-73)) <> Finite 0.
Proof.
  assert (E : calculateDistance (Some 0) (Some (-73)) (Some 0) (Some (-73))
              = Infinity).
  { unfold calculateDistance. now rewrite truthy_zero. }
  split; [exact E | rewrite E; discriminate].
Qed.

(** A missing coordinate gives [Infinity]. *)
Lemma calculateDistance_missing (lat1 lon1 lat2 lon2 : coordinate) :
  truthy lat1 = None \/ truthy lon1 = None
  \/ truthy lat2 = None \/ truthy lon2 = None ->
  calculateDistance lat1 lon1 lat2 lon2 = Infinity.
Proof.
  unfold calculateDistance.
  intros [-> | [-> | [-> | ->]]];
    repeat match goal with |- context [match truthy ?c with _ => _ end] =>
             destruct (truthy c) end; reflexivity.
Qed.

(** ** Candidate scanner *)

Section SortFacts.
Variable A : Type.
Variable cmp : A -> A -> R.

Lemma sort_insert_perm (x : A) (l : list A) :
  Permutation (x :: l) (sort_insert cmp x l).
Proof.
  induction l as [|y l IH]; simpl.
  - apply Permutation_refl.
  - destruct (Rleb (cmp x y) 0).
    + apply Permutation_refl.
    + eapply perm_trans; [apply perm_swap | now apply perm_skip].
Qed.

Lemma js_sort_perm (l : list A) : Permutation l (js_sort cmp l).
Proof.
  induction l as [|x l IH]; simpl.
  - apply perm_nil.
  - eapply perm_trans; [apply perm_skip, IH | apply sort_insert_perm].
Qed.

Lemma js_sort_In (x : A) (l : list A) : In x (js_sort cmp l) <-> In x l.
Proof.
  split; apply Permutation_in;
    [apply Permutation_sym |]; apply js_sort_perm.
Qed.

End SortFacts.

(** The running maximum of a list, from a start value. *)
Lemma fold_Rmax_ge_start (l : list R) : forall a, a <= fold_left Rmax l a.
Proof.
  induction l as [|x l IH]; intros a; simpl; [lra|].
  eapply Rle_trans; [apply Rmax_l | apply IH].
Qed.

Lemma fold_Rmax_upper (l : list R) :
  forall a x, In x l -> x <= fold_left Rmax l a.
Proof.
  induction l as [|y l IH]; intros a x Hin; simpl in *; [contradiction|].
  destruct Hin as [-> | Hin]; [| now apply IH].
  eapply Rle_trans; [apply Rmax_r | apply fold_Rmax_ge_start].
Qed.

Lemma fold_Rmax_attained (l : list R) :
  forall a, fold_left Rmax l a = a \/ In (fold_left Rmax l a) l.
Proof.
  induction l as [|y l IH]; intros a; simpl; [now left|].
  destruct (IH (Rmax a y)) as [E | Hin]; [| now right; right].
  rewrite E. unfold Rmax. destruct (Rle_dec a y); [right; now left | now left].
Qed.

Lemma maxSimilarity_fold (lostVectors foundVectors : list (vector R)) :
  maxSimilarity lostVectors foundVectors
  = fold_left Rmax (pairwise lostVectors foundVectors) 0.
Proof.
  unfold maxSimilarity, pairwise. generalize 0.
  induction lostVectors as [|l ls IH]; intros a; simpl; [reflexivity|].
  rewrite fold_left_app, IH. f_equal.
  clear IH. revert a.
  induction foundVectors as [|f fs IHf]; intros a; simpl; [reflexivity|].
  apply IHf.
Qed.

Lemma maxSimilarity_no_found (lostVectors : list (vector R)) :
  maxSimilarity lostVectors [] = 0.
Proof.
  rewrite maxSimilarity_fold. unfold pairwise.
  induction lostVectors as [|l ls IH]; simpl; [reflexivity | exact IH].
Qed.

Lemma maxSimilarity_no_lost (foundVectors : list (vector R)) :
  maxSimilarity [] foundVectors = 0.
Proof. reflexivity. Qed.

Lemma maxSimilarity_floored (lostVectors foundVectors : list (vector R)) :
  is_maximum (maxSimilarity lostVectors foundVectors)
             (0 :: pairwise lostVectors foundVectors).
Proof.
  rewrite maxSimilarity_fold. split.
  - destruct (fold_Rmax_attained (pairwise lostVectors foundVectors) 0)
      as [E | Hin]; [left; now rewrite E | now right].
  - intros x [<- | Hin]; [apply fold_Rmax_ge_start | now apply fold_Rmax_upper].
Qed.

Lemma maxSimilarity_positive (lostVectors foundVectors : list (vector R)) :
  0 < maxSimilarity lostVectors foundVectors ->
  is_maximum (maxSimilarity lostVectors foundVectors)
             (pairwise lostVectors foundVectors).
Proof.
  intros Hpos.
  destruct (maxSimilarity_floored lostVectors foundVectors) as [Hin Hub].
  split.
  - destruct Hin as [E | Hin]; [rewrite <- E in Hpos; lra | exact Hin].
  - intros x Hx. apply Hub. now right.
Qed.

Lemma threshold_positive : 0 < MATCH_THRESHOLD CONFIG.
Proof. simpl. lra. Qed.

Lemma no_vectors_embeddings (p : Pet) : no_vectors p = true -> embeddings p = [].
Proof.
  unfold no_vectors, embeddings.
  destruct (image_vectors p) as [[|v vs]|]; intros E; congruence.
Qed.

(** What one iteration over the pool pushes. *)
Lemma scan_one_In (lostPet fp : Pet) (m : Match) :
  In m (scan_one lostPet fp) <->
  MATCH_THRESHOLD CONFIG <= maxSimilarity (embeddings lostPet) (embeddings fp)
  /\ within (pair_distance lostPet fp) (MAX_DISTANCE_MILES CONFIG)
  /\ m = {| foundPetId := id fp;
            foundPetName := pet_name fp;
            similarity := maxSimilarity (embeddings lostPet) (embeddings fp);
            distance := pair_distance lostPet fp;
            foundPet := fp |}.
Proof.
  unfold scan_one. pose proof threshold_positive as Hthr.
  destruct (no_vectors fp) eqn:Hnv.
  - rewrite (no_vectors_embeddings _ Hnv), maxSimilarity_no_found.
    split; [contradiction | intros [Hle _]; lra].
  - destruct (Rleb _ _) eqn:Hsim; cbn [andb In].
    + destruct (miles_leb _ _) eqn:Hdist; cbn [In].
      * apply Rleb_true in Hsim. apply miles_leb_within in Hdist.
        split.
        -- intros [<- | []]. auto.
        -- intros (_ & _ & ->). now left.
      * split; [contradiction|]. intros (_ & Hw & _).
        apply miles_leb_within in Hw. congruence.
    + apply Rleb_false in Hsim. split; [contradiction | intros [Hle _]; lra].
Qed.

Lemma findMatchesForLostPet_In (lostPet : Pet) (foundPets : list Pet) (m : Match) :
  In m (findMatchesForLostPet (Some foundPets) lostPet) <->
  exists fp, In fp foundPets /\ In m (scan_one lostPet fp).
Proof.
  unfold findMatchesForLostPet.
  destruct (no_vectors lostPet) eqn:Hnv.
  - split; [contradiction|]. intros (fp & _ & Hin).
    apply scan_one_In in Hin as [Hle _].
    rewrite (no_vectors_embeddings _ Hnv), maxSimilarity_no_lost in Hle.
    pose proof threshold_positive. lra.
  - rewrite js_sort_In, in_flat_map. reflexivity.
Qed.

(** In exact arithmetic a counterpart of the pool is among the returned
    candidates exactly when its best similarity reaches the threshold and
    its distance is within the limit. *)
Theorem findMatchesForLostPet_keeps_iff
        (lostPet : Pet) (foundPets : list Pet) (fp : Pet) :
  In fp (map foundPet (findMatchesForLostPet (Some foundPets) lostPet)) <->
  In fp foundPets
  /\ MATCH_THRESHOLD CONFIG <= maxSimilarity (embeddings lostPet) (embeddings fp)
  /\ within (pair_distance lostPet fp) (MAX_DISTANCE_MILES CONFIG).
Proof.
  rewrite in_map_iff. split.
  - intros (m & <- & Hin). apply findMatchesForLostPet_In in Hin
      as (fp' & Hpool & Hscan).
    apply scan_one_In in Hscan as (Hsim & Hdist & ->). simpl. auto.
  - intros (Hpool & Hsim & Hdist).
    eexists. split; [| apply findMatchesForLostPet_In; exists fp; split;
                       [exact Hpool | apply scan_one_In; eauto]].
    reflexivity.
Qed.

(** Every returned entry carries the values computed for its counterpart,
    and they pass both thresholds. *)
Lemma findMatchesForLostPet_sound
      (lostPet : Pet) (foundPets : list Pet) (m : Match) :
  In m (findMatchesForLostPet (Some foundPets) lostPet) ->
  In (foundPet m) foundPets
  /\ foundPetId m = id (foundPet m)
  /\ similarity m = maxSimilarity (embeddings lostPet) (embeddings (foundPet m))
  /\ distance m = pair_distance lostPet (foundPet m)
  /\ MATCH_THRESHOLD CONFIG <= similarity m
  /\ within (distance m) (MAX_DISTANCE_MILES CONFIG).
Proof.
  intros Hin. apply findMatchesForLostPet_In in Hin as (fp & Hpool & Hscan).
  apply scan_one_In in Hscan as (Hsim & Hdist & ->). simpl. auto 6.
Qed.

(** The ranked list is in descending order of similarity. *)
Lemma sort_insert_sorted (x : Match) (l : list Match) :
  StronglySorted (fun a b => similarity b <= similarity a) l ->
  StronglySorted (fun a b => similarity b <= similarity a)
                 (sort_insert by_similarity_desc x l).
Proof.
  intros Hs. induction Hs as [|y l Hs IH Hall]; simpl.
  - repeat constructor.
  - unfold by_similarity_desc at 1. destruct (Rleb _ _) eqn:Hc.
    + apply Rleb_true in Hc. constructor; [now constructor|].
      constructor; [lra|].
      eapply Forall_impl; [| exact Hall]. simpl. intros a Ha. lra.
    + apply Rleb_false in Hc. constructor; [exact IH|].
      assert (Hp : Permutation (x :: l) (sort_insert by_similarity_desc x l))
        by apply sort_insert_perm.
      apply Forall_forall. intros a Ha.
      apply Permutation_sym in Hp. apply (Permutation_in _ Hp) in Ha.
      destruct Ha as [<- | Ha]; [lra|].
      rewrite Forall_forall in Hall. now apply Hall.
Qed.

(** X7.  [findMatchesForLostPet] returns its candidates in descending order
    of similarity, whatever the query for the found pets answered. *)
Lemma findMatchesForLostPet_ranked (reply : option (list Pet)) (lostPet : Pet) :
  StronglySorted (fun a b => similarity b <= similarity a)
                 (findMatchesForLostPet reply lostPet).
Proof.
  unfold findMatchesForLostPet.
  destruct (no_vectors lostPet); [constructor|].
  destruct reply as [foundPets|]; [| constructor].
  induction (flat_map (scan_one lostPet) foundPets) as [|m l IH]; simpl.
  - constructor.
  - now apply sort_insert_sorted.
Qed.

(** No returned candidate has a best pairwise similarity below the
    threshold or a distance above the limit. *)
Lemma findMatchesForLostPet_best_similarity
      (lostPet : Pet) (foundPets : list Pet) (m : Match) :
  In m (findMatchesForLostPet (Some foundPets) lostPet) ->
  is_maximum (similarity m)
             (pairwise (embeddings lostPet) (embeddings (foundPet m)))
  /\ MATCH_THRESHOLD CONFIG <= similarity m
  /\ distance m = pair_distance lostPet (foundPet m)
  /\ within (distance m) (MAX_DISTANCE_MILES CONFIG).
Proof.
  intros Hin. apply findMatchesForLostPet_sound in Hin
    as (_ & _ & Hsim & Hdist & Hthr & Hwithin).
  split; [| now repeat split].
  rewrite Hsim in *. apply maxSimilarity_positive.
  pose proof threshold_positive. lra.
Qed.

(** C4, as the code has it: the value computed for a counterpart is the
    greatest of [0] and all pairwise similarities, and for every counterpart
    the scan records it is the greatest pairwise similarity. *)
Theorem maxSimilarity_floored_maximum (lostPet : Pet) (foundPets : list Pet) :
  (forall fp : Pet,
      is_maximum (maxSimilarity (embeddings lostPet) (embeddings fp))
                 (0 :: pairwise (embeddings lostPet) (embeddings fp)))
  /\ (forall m : Match,
         In m (findMatchesForLostPet (Some foundPets) lostPet) ->
         is_maximum (similarity m)
                    (pairwise (embeddings lostPet) (embeddings (foundPet m)))).
Proof.
  split.
  - intros fp. apply maxSimilarity_floored.
  - intros m Hin. apply findMatchesForLostPet_sound in Hin
      as (_ & _ & Hsim & _ & Hthr & _).
    rewrite Hsim in *. apply maxSimilarity_positive.
    pose proof threshold_positive. lra.
Qed.

Lemma cosineSimilarity_opposite : cosineSimilarity (Some [1]) (Some [-1]) = -1.
Proof.
  rewrite cosineSimilarity_closed_form by reflexivity.
  unfold euclidean_norm. simpl.
  replace (1 * 1 + 0) with 1 by ring.
  replace (-1 * -1 + 0) with 1 by ring.
  rewrite sqrt_1.
  assert (E : Ris_zero 1 = false) by (apply Ris_zero_false; lra).
  rewrite E. simpl. field.
Qed.

(** C4 as stated fails when every pairwise similarity is negative: the
    computed value is [0], which no pair attains. *)
Lemma maxSimilarity_all_negative :
  maxSimilarity [Some [1]] [Some [-1]] = 0
  /\ pairwise [Some [1]] [Some [-1]] = [-1]
  /\ ~ is_maximum (maxSimilarity [Some [1]] [Some [-1]])
                  (pairwise [Some [1]] [Some [-1]]).
Proof.
  assert (Ep : pairwise [Some [1]] [Some [-1]] = [-1]).
  { unfold pairwise. cbn [flat_map map app]. now rewrite cosineSimilarity_opposite. }
  assert (Em : maxSimilarity [Some [1]] [Some [-1]] = 0).
  { rewrite maxSimilarity_fold, Ep. simpl.
    unfold Rmax. destruct (Rle_dec 0 (-1)); [exfalso; lra | reflexivity]. }
  repeat split; try assumption.
  rewrite Em, Ep. intros [[H | []] _]. lra.
Qed.

(** ** Dedup gate *)

Lemma find_same_pair (rows : list MatchRow) (l f : nat) :
  (exists r, find (same_pair l f) rows = Some r) <-> recorded rows l f.
Proof.
  unfold recorded. induction rows as [|r rows IH]; simpl.
  - split; [intros [? ?]; discriminate | contradiction].
  - destruct (same_pair l f r) eqn:Hp.
    + split; [intros _ | intros _; now exists r].
      left. unfold same_pair in Hp. apply andb_prop in Hp as [H1 H2].
      apply Nat.eqb_eq in H1, H2. unfold pair_of. congruence.
    + rewrite IH. split; [now right | intros [E | H]; [| exact H]].
      unfold pair_of in E. injection E as E1 E2.
      unfold same_pair in Hp. rewrite E1, E2, !Nat.eqb_refl in Hp. discriminate.
Qed.

Lemma matchExists_true (ok : bool) (rows : list MatchRow) (l f : nat) :
  matchExists ok rows l f = true <-> ok = true /\ recorded rows l f.
Proof.
  unfold matchExists. rewrite <- find_same_pair. destruct ok.
  - destruct (find (same_pair l f) rows) as [r|].
    + split; [intros _; split; [reflexivity | now exists r] | reflexivity].
    + split; [discriminate | intros [_ [r Hr]]; discriminate].
  - split; [discriminate | intros [H _]; discriminate].
Qed.

Lemma updateMatchStatus_pairs (matchId : nat) (st : MatchStatus)
      (rows : list MatchRow) :
  map pair_of (updateMatchStatus matchId st rows) = map pair_of rows.
Proof.
  unfold updateMatchStatus. rewrite map_map. apply map_ext.
  intros r. now destruct (row_id r =? matchId)%nat.
Qed.

(** The rows [process_match] leaves: the old ones, with at most one new row
    for the pair at hand, up to status updates. *)
Lemma process_match_pairs (w : World) (i j : nat) (lostPet : Pet) (m : Match)
      (s : PassState) :
  map pair_of (match_rows (process_match w i j lostPet m s))
  = map pair_of (match_rows s)
    ++ (if matchExists (exists_query_ok w i j) (match_rows s)
                       (id lostPet) (foundPetId m)
        then []
        else match insert_reply w i j with
             | Some _ => [(id lostPet, foundPetId m)]
             | None => []
             end).
Proof.
  unfold process_match.
  destruct (matchExists _ _ _ _); [now rewrite app_nil_r|].
  unfold saveMatch.
  destruct (insert_reply w i j) as [[|n]|]; cbn [truthy_id match_rows].
  - now rewrite map_app.
  - destruct (report_writes _); [rewrite updateMatchStatus_pairs|];
      now rewrite map_app.
  - now rewrite app_nil_r.
Qed.

Lemma process_match_keeps (w : World) (i j : nat) (lostPet : Pet) (m : Match)
      (s : PassState) (l f : nat) :
  recorded (match_rows s) l f ->
  recorded (match_rows (process_match w i j lostPet m s)) l f.
Proof.
  unfold recorded. rewrite process_match_pairs, in_app_iff. now left.
Qed.

Lemma process_match_records (w : World) (i j : nat) (lostPet : Pet) (m : Match)
      (s : PassState) :
  insert_reply w i j <> None ->
  recorded (match_rows (process_match w i j lostPet m s))
           (id lostPet) (foundPetId m).
Proof.
  intros Hins. unfold recorded. rewrite process_match_pairs, in_app_iff.
  destruct (matchExists _ _ _ _) eqn:Hex.
  - left. now apply matchExists_true in Hex as [_ Hrec].
  - right. destruct (insert_reply w i j); [now left | contradiction].
Qed.

Lemma process_match_skips (w : World) (i j : nat) (lostPet : Pet) (m : Match)
      (s : PassState) :
  exists_query_ok w i j = true ->
  recorded (match_rows s) (id lostPet) (foundPetId m) ->
  process_match w i j lostPet m s = s.
Proof.
  intros Hok Hrec. unfold process_match.
  now rewrite (proj2 (matchExists_true _ _ _ _) (conj Hok Hrec)).
Qed.

Lemma for_matches_keeps (w : World) (i : nat) (lostPet : Pet)
      (matches : list Match) :
  forall (j : nat) (s : PassState) (l f : nat),
    recorded (match_rows s) l f ->
    recorded (match_rows (for_matches w i j lostPet matches s)) l f.
Proof.
  induction matches as [|m rest IH]; intros j s l f Hrec; simpl; [assumption|].
  now apply IH, process_match_keeps.
Qed.

Lemma for_lostPets_keeps (w : World) (table : list Pet) (lostPets : list Pet) :
  forall (i : nat) (s : PassState) (l f : nat),
    recorded (match_rows s) l f ->
    recorded (match_rows (for_lostPets w table i lostPets s)) l f.
Proof.
  induction lostPets as [|p rest IH]; intros i s l f Hrec; simpl; [assumption|].
  apply IH. unfold process_pet. now apply for_matches_keeps.
Qed.

(** After its iteration a candidate is recorded, unless the store refused
    its insert. *)
Lemma process_match_covers (w : World) (i j : nat) (lostPet : Pet) (m : Match)
      (s : PassState) :
  recorded (match_rows (process_match w i j lostPet m s))
           (id lostPet) (foundPetId m)
  \/ insert_reply w i j = None.
Proof.
  destruct (insert_reply w i j) eqn:Hins; [left | now right].
  apply process_match_records. congruence.
Qed.

(** An iteration changes nothing when the lookup is answered and the pair is
    recorded or its insert refused. *)
Lemma process_match_idle (w : World) (i j : nat) (lostPet : Pet) (m : Match)
      (s : PassState) :
  exists_query_ok w i j = true ->
  recorded (match_rows s) (id lostPet) (foundPetId m)
  \/ insert_reply w i j = None ->
  process_match w i j lostPet m s = s.
Proof.
  intros Hok [Hrec | Hins]; [now apply process_match_skips|].
  unfold process_match. destruct (matchExists _ _ _ _); [reflexivity|].
  rewrite Hins. now destruct s.
Qed.

Lemma for_matches_covers (w : World) (i : nat) (lostPet : Pet)
      (matches : list Match) :
  forall (j : nat) (s : PassState) (k : nat) (m : Match),
    nth_error matches k = Some m ->
    recorded (match_rows (for_matches w i j lostPet matches s))
             (id lostPet) (foundPetId m)
    \/ insert_reply w i (j + k) = None.
Proof.
  induction matches as [|m0 rest IH]; intros j s [|k] m Hk; simpl in Hk;
    try discriminate.
  - injection Hk as ->. rewrite Nat.add_0_r. simpl.
    destruct (process_match_covers w i j lostPet m s) as [Hrec | Hnone];
      [left; now apply for_matches_keeps | now right].
  - simpl. replace (j + S k)%nat with (S j + k)%nat by lia. now apply IH.
Qed.

Lemma for_matches_idle (w : World) (i : nat) (lostPet : Pet)
      (matches : list Match) (s : PassState) :
  lookups_answered w ->
  forall j : nat,
    (forall k m, nth_error matches k = Some m ->
                 recorded (match_rows s) (id lostPet) (foundPetId m)
                 \/ insert_reply w i (j + k) = None) ->
    for_matches w i j lostPet matches s = s.
Proof.
  intros Hok. induction matches as [|m0 rest IH]; intros j Hcov; simpl;
    [reflexivity|].
  rewrite process_match_idle; [| apply Hok |].
  - apply IH. intros k m Hk.
    replace (S j + k)%nat with (j + S k)%nat by lia. now apply Hcov.
  - specialize (Hcov 0%nat m0 eq_refl). now rewrite Nat.add_0_r in Hcov.
Qed.

(** After a pass every candidate of the batch is recorded, unless the store
    refused its insert. *)
Lemma for_lostPets_covers (w : World) (table : list Pet) (lostPets : list Pet) :
  forall (i : nat) (s : PassState) (n : nat) (p : Pet) (k : nat) (m : Match),
    nth_error lostPets n = Some p ->
    nth_error (matches_of w table (i + n) p) k = Some m ->
    recorded (match_rows (for_lostPets w table i lostPets s))
             (id p) (foundPetId m)
    \/ insert_reply w (i + n) k = None.
Proof.
  induction lostPets as [|p0 rest IH]; intros i s [|n] p k m Hn Hk;
    simpl in Hn; try discriminate.
  - injection Hn as ->. rewrite Nat.add_0_r in *. simpl.
    destruct (@for_matches_covers w i p (matches_of w table i p) 0 s k m Hk)
      as [Hrec | Hnone]; [left; now apply for_lostPets_keeps | now right].
  - simpl. replace (i + S n)%nat with (S i + n)%nat in * by lia.
    now apply IH.
Qed.

(** A pass whose candidates are all recorded or refused changes nothing. *)
Lemma for_lostPets_idle (w : World) (table : list Pet) (lostPets : list Pet)
      (s : PassState) :
  lookups_answered w ->
  forall i : nat,
    (forall n p k m,
        nth_error lostPets n = Some p ->
        nth_error (matches_of w table (i + n) p) k = Some m ->
        recorded (match_rows s) (id p) (foundPetId m)
        \/ insert_reply w (i + n) k = None) ->
    for_lostPets w table i lostPets s = s.
Proof.
  intros Hok. induction lostPets as [|p0 rest IH]; intros i Hcov; simpl;
    [reflexivity|].
  assert (Hp : process_pet w table i p0 s = s).
  { unfold process_pet. apply for_matches_idle; [assumption|].
    intros k m Hk. specialize (Hcov 0%nat p0 k m eq_refl).
    rewrite Nat.add_0_r in Hcov. now apply Hcov. }
  rewrite Hp. apply IH. intros n p k m Hn Hk.
  replace (S i + n)%nat with (i + S n)%nat in * by lia. now apply Hcov.
Qed.

(** Two cases of [repeats_failures]: nothing failed in the first pass, and
    both passes get the same answers. *)
Lemma store_answers_repeats (w1 w2 : World) :
  store_answers w1 -> repeats_failures w1 w2.
Proof.
  intros (Hlost & Hfound & Hins). repeat split; intros; auto.
  now destruct (Hins i j).
Qed.

Lemma same_world_repeats (w : World) : repeats_failures w w.
Proof. repeat split; auto. Qed.

(** C2, as the code has it: when no store call that failed in the first
    pass succeeds in the second (so in particular when none failed, or when
    the store answers both passes alike) and the second pass's existence
    lookups are answered, the second pass over the same records inserts no
    row, makes no call and counts no match. *)
Theorem second_pass_inserts_nothing
        (w1 w2 : World) (table : list Pet) (rows0 : list MatchRow) :
  repeats_failures w1 w2 ->
  lookups_answered w2 ->
  let rows1 := rows_after rows0 (processMatches w1 table rows0) in
  let second := processMatches w2 table rows1 in
  rows_after rows1 second = rows1
  /\ events_of second = []
  /\ (second = Aborted
      \/ second = Completed {| match_rows := rows1; totalMatches := 0;
                               notificationsSent := 0; events := [] |}).
Proof.
  intros (Hlost & Hfound & Hins) Hlook rows1 second.
  assert (Hsecond : second = Aborted
            \/ second = Completed {| match_rows := rows1; totalMatches := 0;
                                     notificationsSent := 0; events := [] |}).
  { subst second. destruct (lost_query_ok w2) eqn:Hlost2.
    - right. unfold processMatches, query. rewrite Hlost2. f_equal.
      apply for_lostPets_idle; [assumption|].
      intros n p k m Hn Hk. cbn [match_rows plus] in *.
      unfold matches_of in Hk. destruct (found_query_ok w2 n) eqn:Hfound2.
      + subst rows1. unfold processMatches, query.
        rewrite (Hlost eq_refl). cbn [rows_after].
        destruct (@for_lostPets_covers w1 table
                    (select_pets StatusLost (BATCH_SIZE CONFIG) table) 0
                    {| match_rows := rows0; totalMatches := 0;
                       notificationsSent := 0; events := [] |} n p k m Hn)
          as [Hrec | Hnone]; [| now left | right; now apply Hins].
        unfold matches_of. cbn [plus]. now rewrite (Hfound n Hfound2).
      + unfold query, findMatchesForLostPet in Hk.
        destruct (no_vectors p); now destruct k.
    - left. unfold processMatches, query. now rewrite Hlost2. }
  destruct Hsecond as [E | E]; rewrite E; cbn; auto.
Qed.

(** ** Counters *)

Lemma process_match_counters (w : World) (i j : nat) (lostPet : Pet) (m : Match)
      (s : PassState) :
  counters_agree s -> counters_agree (process_match w i j lostPet m s).
Proof.
  intros (Hn & Hs & Hp). unfold process_match, counters_agree.
  destruct (matchExists _ _ _ _); [auto|].
  unfold saveMatch.
  destruct (insert_reply w i j) as [[|n]|];
    cbn [truthy_id totalMatches notificationsSent events];
    rewrite ?filter_app, ?length_app; cbn; auto; repeat split; lia.
Qed.

Lemma for_matches_counters (w : World) (i : nat) (lostPet : Pet)
      (matches : list Match) :
  forall (j : nat) (s : PassState),
    counters_agree s -> counters_agree (for_matches w i j lostPet matches s).
Proof.
  induction matches as [|m rest IH]; intros j s Hs; simpl; [assumption|].
  now apply IH, process_match_counters.
Qed.

Lemma for_lostPets_counters (w : World) (table : list Pet) (lostPets : list Pet) :
  forall (i : nat) (s : PassState),
    counters_agree s -> counters_agree (for_lostPets w table i lostPets s).
Proof.
  induction lostPets as [|p rest IH]; intros i s Hs; simpl; [assumption|].
  apply IH. unfold process_pet. now apply for_matches_counters.
Qed.

(** C9.  A pass that reaches its final log line reports as many
    notifications sent as new matches: both counters equal the number of
    inserts that returned an id the code accepts, and the number of calls of
    [sendMatchNotification], whatever those calls did. *)
Theorem notificationsSent_equals_totalMatches
        (w : World) (table : list Pet) (rows : list MatchRow) :
  match processMatches w table rows with
  | Aborted => True
  | Completed s =>
      notificationsSent s = totalMatches s
      /\ totalMatches s = length (filter is_notified (events s))
      /\ totalMatches s = length (filter is_seen_insert (events s))
  end.
Proof.
  unfold processMatches. destruct (query _ _ _ _) as [lostPets|]; [| exact I].
  apply (for_lostPets_counters w table lostPets 0).
  repeat split.
Qed.

(** ** Failure isolation in the fan-out *)

Lemma row_key_pairs (rows rows' : list MatchRow) :
  map row_key rows = map row_key rows' -> map pair_of rows = map pair_of rows'.
Proof.
  intros E.
  assert (G : forall l, map pair_of l
                        = map (fun k : nat * nat * nat * R * miles =>
                                 let '(_, a, b, _, _) := k in (a, b))
                              (map row_key l)).
  { intros l. rewrite map_map. now apply map_ext. }
  now rewrite !G, E.
Qed.

Lemma matchExists_pairs (ok : bool) (rows rows' : list MatchRow) (l f : nat) :
  map pair_of rows = map pair_of rows' ->
  matchExists ok rows l f = matchExists ok rows' l f.
Proof.
  intros E.
  destruct (matchExists ok rows l f) eqn:H1, (matchExists ok rows' l f) eqn:H2;
    try reflexivity.
  - apply matchExists_true in H1 as [Hok Hrec]. unfold recorded in Hrec.
    rewrite E in Hrec.
    now rewrite (proj2 (matchExists_true ok rows' l f) (conj Hok Hrec)) in H2.
  - apply matchExists_true in H2 as [Hok Hrec]. unfold recorded in Hrec.
    rewrite <- E in Hrec.
    now rewrite (proj2 (matchExists_true ok rows l f) (conj Hok Hrec)) in H1.
Qed.

Lemma updateMatchStatus_keys (matchId : nat) (st : MatchStatus)
      (rows : list MatchRow) :
  map row_key (updateMatchStatus matchId st rows) = map row_key rows.
Proof.
  unfold updateMatchStatus. rewrite map_map. apply map_ext.
  intros r. now destruct (row_id r =? matchId)%nat.
Qed.

Section Isolation.
Variable w : World.
Variable post : nat -> nat -> bool.
Variable report : nat -> nat -> ReportOutcome.

Lemma process_match_same_calls (i j : nat) (lostPet : Pet) (m : Match)
      (s s' : PassState) :
  same_calls s s' ->
  same_calls (process_match w i j lostPet m s)
             (process_match (with_outcomes w post report) i j lostPet m s').
Proof.
  intros (Hrows & Ht & Hn & Hev). unfold process_match.
  cbn [exists_query_ok insert_reply with_outcomes].
  rewrite (@matchExists_pairs _ _ _ _ _ (@row_key_pairs _ _ Hrows)).
  destruct (matchExists _ _ _ _); [now repeat split|].
  unfold saveMatch, same_calls.
  destruct (insert_reply w i j) as [[|n]|];
    cbn [truthy_id match_rows totalMatches notificationsSent events].
  - rewrite !map_app, Hrows, Hev. auto.
  - repeat split; try congruence.
    + destruct (report_writes (report_outcome w i j)),
               (report_writes (report_outcome (with_outcomes w post report) i j));
        rewrite ?updateMatchStatus_keys, !map_app, Hrows; reflexivity.
    + rewrite !map_app, Hev. reflexivity.
  - auto.
Qed.

Lemma for_matches_same_calls (i : nat) (lostPet : Pet) (matches : list Match) :
  forall (j : nat) (s s' : PassState),
    same_calls s s' ->
    same_calls (for_matches w i j lostPet matches s)
               (for_matches (with_outcomes w post report) i j lostPet matches s').
Proof.
  induction matches as [|m rest IH]; intros j s s' Hs; simpl; [assumption|].
  now apply IH, process_match_same_calls.
Qed.

Lemma for_lostPets_same_calls (table : list Pet) (lostPets : list Pet) :
  forall (i : nat) (s s' : PassState),
    same_calls s s' ->
    same_calls (for_lostPets w table i lostPets s)
               (for_lostPets (with_outcomes w post report) table i lostPets s').
Proof.
  induction lostPets as [|p rest IH]; intros i s s' Hs; simpl; [assumption|].
  apply IH. unfold process_pet. now apply for_matches_same_calls.
Qed.

End Isolation.

Lemma fanout_log_app (a b : list Event) :
  fanout_log a -> fanout_log b -> fanout_log (a ++ b).
Proof.
  intros Ha Hb. induction Ha; simpl; [assumption | |].
  - now apply fanout_unseen.
  - now apply fanout_block.
Qed.

Lemma process_match_fanout (w : World) (i j : nat) (lostPet : Pet) (m : Match)
      (s : PassState) :
  fanout_log (events s) -> fanout_log (events (process_match w i j lostPet m s)).
Proof.
  intros Hs. unfold process_match.
  destruct (matchExists _ _ _ _); [assumption|].
  unfold saveMatch.
  destruct (insert_reply w i j) as [[|n]|]; cbn [truthy_id events].
  - apply fanout_log_app; [assumption|].
    apply fanout_unseen; [reflexivity | constructor].
  - rewrite <- app_assoc. apply fanout_log_app; [assumption|].
    apply (@fanout_block
             (pending_row (S n) (id lostPet) (foundPetId m)
                          (similarity m) (distance m)) _ _ []);
      [discriminate | constructor].
  - assumption.
Qed.

Lemma for_matches_fanout (w : World) (i : nat) (lostPet : Pet)
      (matches : list Match) :
  forall (j : nat) (s : PassState),
    fanout_log (events s) ->
    fanout_log (events (for_matches w i j lostPet matches s)).
Proof.
  induction matches as [|m rest IH]; intros j s Hs; simpl; [assumption|].
  now apply IH, process_match_fanout.
Qed.

Lemma for_lostPets_fanout (w : World) (table : list Pet) (lostPets : list Pet) :
  forall (i : nat) (s : PassState),
    fanout_log (events s) ->
    fanout_log (events (for_lostPets w table i lostPets s)).
Proof.
  induction lostPets as [|p rest IH]; intros i s Hs; simpl; [assumption|].
  apply IH. unfold process_pet. now apply for_matches_fanout.
Qed.

(** In every pass each persisted match the code sees is followed by its own
    notification call and report call, and what is persisted and which
    calls are made do not depend on how any SMS post or report generation
    turns out: a pass run against other outcomes inserts the same rows,
    makes the same calls in the same order and ends with the same counters. *)
Theorem fanout_failures_isolated
        (w : World) (table : list Pet) (rows : list MatchRow)
        (post : nat -> nat -> bool) (report : nat -> nat -> ReportOutcome) :
  let pass := processMatches w table rows in
  let pass' := processMatches (with_outcomes w post report) table rows in
  fanout_log (events_of pass)
  /\ map call_of (events_of pass) = map call_of (events_of pass')
  /\ map row_key (rows_after rows pass) = map row_key (rows_after rows pass')
  /\ match pass, pass' with
     | Aborted, Aborted => True
     | Completed s, Completed s' =>
         totalMatches s = totalMatches s'
         /\ notificationsSent s = notificationsSent s'
     | _, _ => False
     end.
Proof.
  cbv zeta. unfold processMatches.
  cbn [lost_query_ok with_outcomes].
  destruct (query _ _ _ _) as [lostPets|]; cbn [events_of rows_after];
    [| repeat split; constructor].
  set (s0 := {| match_rows := rows; totalMatches := 0;
                notificationsSent := 0; events := [] |}).
  destruct (for_lostPets_same_calls w post report table lostPets 0
              (s := s0) (s' := s0)) as (Hrows & Ht & Hn & Hev);
    [now repeat split|].
  split; [apply for_lostPets_fanout; constructor | auto].
Qed.

(** ** Passes over the concrete record set *)

Lemma demo_similarity :
  maxSimilarity (embeddings demo_lost) (embeddings demo_found) = 1.
Proof.
  rewrite maxSimilarity_fold. unfold pairwise.
  cbn [embeddings image_vectors demo_lost demo_found flat_map map app fold_left].
  rewrite cosineSimilarity_closed_form by reflexivity.
  unfold euclidean_norm. cbn [dot].
  replace (1 * 1 + (0 * 0 + 0)) with 1 by ring.
  rewrite sqrt_1.
  assert (E : Ris_zero 1 = false) by (apply Ris_zero_false; lra).
  rewrite E. cbn [orb].
  replace (1 / (1 * 1)) with 1 by field.
  unfold Rmax. destruct (Rle_dec 0 1); [reflexivity | exfalso; lra].
Qed.

Lemma demo_distance : pair_distance demo_lost demo_found = Finite 0.
Proof.
  unfold pair_distance. cbn [location_lat location_lon demo_lost demo_found].
  rewrite calculateDistance_truthy by lra.
  rewrite haversine_a_same, Rminus_0_r, sqrt_0, sqrt_1, atan2_0_1.
  f_equal. ring.
Qed.

Lemma demo_scan :
  findMatchesForLostPet (Some (select_pets StatusFound 1000 demo_table)) demo_lost
  = [demo_match].
Proof.
  assert (Hsel : select_pets StatusFound 1000 demo_table = [demo_found])
    by reflexivity.
  rewrite Hsel. unfold findMatchesForLostPet.
  cbn [no_vectors image_vectors demo_lost flat_map app].
  unfold scan_one. cbn [no_vectors image_vectors demo_found].
  rewrite demo_similarity, demo_distance.
  assert (E1 : Rleb (MATCH_THRESHOLD CONFIG) 1 = true)
    by (apply Rleb_true; simpl; lra).
  assert (E2 : miles_leb (Finite 0) (MAX_DISTANCE_MILES CONFIG) = true)
    by (apply Rleb_true; simpl; lra).
  rewrite E1, E2. cbn [andb app js_sort fold_right sort_insert].
  unfold demo_match. now rewrite demo_similarity, demo_distance.
Qed.

(** A pass over the demo records is one run of the loop body. *)
Lemma demo_pass (w : World) (rows : list MatchRow) :
  lost_query_ok w = true -> found_query_ok w 0%nat = true ->
  processMatches w demo_table rows
  = Completed (process_match w 0 0 demo_lost demo_match
                 {| match_rows := rows; totalMatches := 0;
                    notificationsSent := 0; events := [] |}).
Proof.
  intros Hl Hf. unfold processMatches, query. rewrite Hl.
  assert (Hsel : select_pets StatusLost (BATCH_SIZE CONFIG) demo_table
                 = [demo_lost]) by reflexivity.
  rewrite Hsel. cbn [for_lostPets]. unfold process_pet, query.
  rewrite Hf, demo_scan. reflexivity.
Qed.

Lemma maxSimilarity_floored_maximum_witness :
  is_maximum (similarity demo_match)
             (pairwise (embeddings demo_lost) (embeddings (foundPet demo_match))).
Proof.
  apply (proj2 (@maxSimilarity_floored_maximum
                  demo_lost (select_pets StatusFound 1000 demo_table))).
  rewrite demo_scan. now left.
Defined.

Lemma second_pass_inserts_nothing_witness :
  let rows1 := rows_after [] (processMatches store_up demo_table []) in
  let second := processMatches store_up demo_table rows1 in
  rows_after rows1 second = rows1
  /\ events_of second = []
  /\ (second = Aborted
      \/ second = Completed {| match_rows := rows1; totalMatches := 0;
                               notificationsSent := 0; events := [] |}).
Proof.
  apply (@second_pass_inserts_nothing store_up store_up demo_table []).
  - repeat split; intros; assumption.
  - intros i j. reflexivity.
Defined.

(** C2 as stated fails when the first pass could not persist a candidate:
    the second pass finds no record of the pair and inserts it. *)
Lemma second_pass_inserts_after_failed_insert :
  let rows1 := rows_after [] (processMatches insert_down demo_table []) in
  let second := processMatches store_up demo_table rows1 in
  rows1 = []
  /\ map pair_of (rows_after rows1 second) = [(1, 2)]%nat
  /\ rows_after rows1 second <> rows1.
Proof.
  cbv zeta.
  rewrite (@demo_pass insert_down []) by reflexivity.
  assert (E1 : rows_after []
                 (Completed (process_match insert_down 0 0 demo_lost demo_match
                    {| match_rows := []; totalMatches := 0;
                       notificationsSent := 0; events := [] |})) = [])
    by reflexivity.
  rewrite E1. rewrite (@demo_pass store_up []) by reflexivity.
  cbn [rows_after]. rewrite process_match_pairs.
  repeat split.
  intros E. apply (f_equal (map pair_of)) in E.
  rewrite process_match_pairs in E. discriminate E.
Qed.

(** [matchExists] reads a failed lookup as "no record": when the lookups
    fail, a second pass against the same answers inserts the pair again. *)
Lemma failed_lookup_inserts_again :
  let rows1 := rows_after [] (processMatches lookup_down demo_table []) in
  let second := processMatches lookup_down demo_table rows1 in
  map pair_of rows1 = [(1, 2)]%nat
  /\ map pair_of (rows_after rows1 second) = [(1, 2); (1, 2)]%nat.
Proof.
  cbv zeta. rewrite !(@demo_pass lookup_down) by reflexivity.
  cbn [rows_after]. rewrite !process_match_pairs. split; reflexivity.
Qed.

(** ** A pass with two new matches, the first of which fails to notify *)

Lemma demo_match_values :
  demo_match = {| foundPetId := 2; foundPetName := "Stray"%string;
                  similarity := 1; distance := Finite 0;
                  foundPet := demo_found |}.
Proof. unfold demo_match. now rewrite demo_similarity, demo_distance. Qed.

Lemma demo_scan2 :
  findMatchesForLostPet (Some (select_pets StatusFound 1000 demo_table2)) demo_lost
  = [demo_match; demo_match2].
Proof.
  assert (Hsel : select_pets StatusFound 1000 demo_table2
                 = [demo_found; demo_found2]) by reflexivity.
  rewrite Hsel. unfold findMatchesForLostPet.
  cbn [no_vectors image_vectors demo_lost flat_map].
  assert (E1 : Rleb (MATCH_THRESHOLD CONFIG) 1 = true)
    by (apply Rleb_true; simpl; lra).
  assert (E2 : miles_leb (Finite 0) (MAX_DISTANCE_MILES CONFIG) = true)
    by (apply Rleb_true; simpl; lra).
  assert (S1 : scan_one demo_lost demo_found = [demo_match]).
  { unfold scan_one. cbn [no_vectors image_vectors demo_found].
    rewrite demo_similarity, demo_distance, E1, E2.
    now rewrite demo_match_values. }
  assert (S2 : scan_one demo_lost demo_found2 = [demo_match2]).
  { unfold scan_one. cbn [no_vectors image_vectors demo_found2].
    change (embeddings demo_found2) with (embeddings demo_found).
    change (pair_distance demo_lost demo_found2)
      with (pair_distance demo_lost demo_found).
    rewrite demo_similarity, demo_distance, E1, E2. reflexivity. }
  rewrite S1, S2. cbn [app js_sort fold_right sort_insert].
  assert (E3 : Rleb (by_similarity_desc demo_match demo_match2) 0 = true).
  { apply Rleb_true. unfold by_similarity_desc.
    rewrite demo_match_values. simpl. lra. }
  now rewrite E3.
Qed.

(** The SMS post and the report of the first match fail; the second match
    is persisted, notified and reported all the same, and both counters
    stand at 2. *)
Lemma second_match_processed_after_first_fails :
  processMatches first_fanout_fails demo_table2 []
  = Completed
      {| match_rows :=
           [ pending_row 1 1 2 1 (Finite 0);
             {| row_id := 2; lost_pet_id := 1; found_pet_id := 3;
                similarity_score := 1; distance_miles := Finite 0;
                match_status := ShelterNotified |} ];
         totalMatches := 2;
         notificationsSent := 2;
         events :=
           [ Persisted (pending_row 1 1 2 1 (Finite 0));
             Notified 1 2 (SmsFailed "+15550100"%string);
             Reported 1 ReportThrew;
             Persisted (pending_row 2 1 3 1 (Finite 0));
             Notified 1 3 (SmsSent "+15550100"%string);
             Reported 2 (ReportSent "shelter@example.org"%string true) ] |}.
Proof.
  unfold processMatches, query. cbn [lost_query_ok first_fanout_fails].
  assert (Hsel : select_pets StatusLost (BATCH_SIZE CONFIG) demo_table2
                 = [demo_lost]) by reflexivity.
  rewrite Hsel. cbn [for_lostPets]. unfold process_pet, query.
  cbn [found_query_ok first_fanout_fails].
  rewrite demo_scan2, demo_match_values. reflexivity.
Qed.

(** ** Passes in flight *)

Lemma complete_resume (w : World) (table : list Pet) (p : Pass)
      (rows : list MatchRow) :
  complete w table (fst (resume w table p rows)) (snd (resume w table p rows))
  = complete w table p rows.
Proof.
  destruct p; simpl; try reflexivity.
  now destruct (saveMatch _ _ _ _ _ _).
Qed.

Lemma matches_async_complete (w : World) (table : list Pet) (i : nat)
      (lostPet : Pet) (matches : list Match) :
  forall (j : nat) (s : PassState) (k : nat -> nat -> Pass),
    complete w table
      (matches_async i j lostPet matches (totalMatches s) (notificationsSent s) k)
      (match_rows s)
    = let s' := for_matches w i j lostPet matches s in
      complete w table (k (totalMatches s') (notificationsSent s')) (match_rows s').
Proof.
  induction matches as [|m rest IH]; intros j s k; [reflexivity|].
  cbn [matches_async complete for_matches].
  unfold process_match.
  destruct (matchExists _ _ _ _); [apply IH|].
  cbn [complete]. unfold saveMatch.
  destruct (insert_reply w i j) as [[|n]|]; cbn [fst snd truthy_id complete].
  - apply (IH (S j) {| match_rows := _; totalMatches := totalMatches s;
                       notificationsSent := notificationsSent s;
                       events := _ |}).
  - apply (IH (S j) {| match_rows := _; totalMatches := S (totalMatches s);
                       notificationsSent := S (notificationsSent s);
                       events := _ |}).
  - apply (IH (S j) {| match_rows := _; totalMatches := totalMatches s;
                       notificationsSent := notificationsSent s;
                       events := _ |}).
Qed.

Lemma lostPets_async_complete (w : World) (table : list Pet)
      (lostPets : list Pet) :
  forall (i : nat) (s : PassState),
    complete w table
      (lostPets_async i lostPets (totalMatches s) (notificationsSent s))
      (match_rows s)
    = let s' := for_lostPets w table i lostPets s in
      (match_rows s', Some (totalMatches s', notificationsSent s')).
Proof.
  induction lostPets as [|p rest IH]; intros i s; [reflexivity|].
  cbn [lostPets_async for_lostPets]. unfold process_pet.
  destruct (no_vectors p) eqn:Hnv.
  - unfold findMatchesForLostPet. rewrite Hnv. cbn [for_matches]. apply IH.
  - cbn [complete]. rewrite matches_async_complete. cbv zeta. apply IH.
Qed.

(** Run alone, the asynchronous pass does what [processMatches] does. *)
Lemma processMatches_async_alone (w : World) (table : list Pet)
      (rows : list MatchRow) :
  complete w table processMatches_async rows
  = match processMatches w table rows with
    | Aborted => (rows, None)
    | Completed s => (match_rows s, Some (totalMatches s, notificationsSent s))
    end.
Proof.
  unfold processMatches_async, processMatches. cbn [complete].
  destruct (query _ _ _ _) as [lostPets|]; [| reflexivity].
  apply (lostPets_async_complete w table lostPets 0
           {| match_rows := rows; totalMatches := 0;
              notificationsSent := 0; events := [] |}).
Qed.

(** ** Scan scheduler *)

Module SchedulerProps.
Import Scheduler.

Section EngineFacts.
Variable table : list Pet.

Lemma remove_nth_length (A : Type) (n : nat) (l : list A) (x : A) :
  nth_error l n = Some x -> S (length (remove_nth n l)) = length l.
Proof.
  intros Hn. unfold remove_nth.
  assert (Hlt : (n < length l)%nat) by (apply nth_error_Some; congruence).
  rewrite length_app, length_firstn, length_skipn. lia.
Qed.

Lemma replace_nth_length (A : Type) (n : nat) (l : list A) (x y : A) :
  nth_error l n = Some x -> length (replace_nth n y l) = length l.
Proof.
  intros Hn. unfold replace_nth.
  assert (Hlt : (n < length l)%nat) by (apply nth_error_Some; congruence).
  rewrite length_app, length_firstn. cbn [length]. rewrite length_skipn. lia.
Qed.

Lemma on_resume_accounts (n : nat) (e e' : Engine) :
  on_resume table n e = Some e' ->
  started e' = started e
  /\ (running e' + settled e' = running e + settled e)%nat.
Proof.
  unfold on_resume, running.
  destruct (nth_error (in_flight e) n) as [[w p]|] eqn:Hn; [| discriminate].
  destruct (resume w table p (store e)) as [p' rows'].
  intros He. injection He as <-.
  pose proof (remove_nth_length _ _ Hn) as Hrm.
  pose proof (replace_nth_length _ _ (w, p') Hn) as Hrp.
  destruct p'; cbn [started settled in_flight]; split; lia.
Qed.

Lemma run_accounts (trace : list Trigger) :
  forall e e' : Engine,
    run table e trace = Some e' ->
    started e' = (started e + length (tick_worlds trace))%nat
    /\ (running e' + settled e'
        = running e + settled e + length (tick_worlds trace))%nat.
Proof.
  induction trace as [|t rest IH]; intros e e' Hrun; simpl in Hrun.
  - injection Hrun as <-. simpl. lia.
  - destruct t as [w | n]; simpl in Hrun.
    + apply IH in Hrun as [Hs Hr]. unfold running in *.
      cbn [on_tick started settled in_flight tick_worlds length] in *.
      rewrite length_app in Hr. cbn [length] in Hr. lia.
    + destruct (on_resume table n e) as [e1|] eqn:H1; [| discriminate].
      apply on_resume_accounts in H1 as [H1s H1r].
      apply IH in Hrun as [Hs Hr]. cbn [tick_worlds]. lia.
Qed.

Lemma sequential_cons (w : World) (worlds : list World) (rows : list MatchRow) :
  sequential table (w :: worlds) rows
  = sequential table worlds (rows_after rows (processMatches w table rows)).
Proof. reflexivity. Qed.

Lemma complete_alone_rows (w : World) (rows : list MatchRow) :
  fst (complete w table processMatches_async rows)
  = rows_after rows (processMatches w table rows).
Proof.
  rewrite processMatches_async_alone.
  now destruct (processMatches w table rows).
Qed.

(** While triggers arrive only when the engine is idle, at most one pass is
    in flight and the store moves as if the passes ran one after another. *)
Lemma run_idle_ticks (trace : list Trigger) :
  forall e e' : Engine,
    run table e trace = Some e' ->
    ticks_when_idle table e trace = true ->
    (running e <= 1)%nat ->
    (running e' <= 1)%nat
    /\ settle table e' = sequential table (tick_worlds trace) (settle table e).
Proof.
  induction trace as [|t rest IH]; intros e e' Hrun Hidle Hle;
    simpl in Hrun, Hidle.
  - injection Hrun as <-. now split.
  - destruct t as [w | n]; simpl in Hrun, Hidle.
    + apply andb_prop in Hidle as [H0 Hrest]. apply Nat.eqb_eq in H0.
      unfold running in H0. apply length_zero_iff_nil in H0.
      destruct (IH _ _ Hrun Hrest) as [Hle' Hsettle].
      { unfold running, on_tick. cbn [in_flight]. rewrite H0. simpl. lia. }
      split; [exact Hle'|]. rewrite Hsettle. cbn [tick_worlds].
      rewrite sequential_cons. f_equal.
      unfold settle, on_tick. cbn [in_flight store]. rewrite H0.
      cbn [app]. apply complete_alone_rows.
    + destruct (on_resume table n e) as [e1|] eqn:H1; [| discriminate].
      assert (Hone : (running e1 <= 1)%nat /\ settle table e1 = settle table e).
      { unfold on_resume in H1. unfold running in *.
        destruct (in_flight e) as [|[w p] [|q rest']] eqn:Hfl;
          cbn [length] in Hle; try lia.
        - destruct n; discriminate.
        - destruct n as [|n]; [| destruct n; discriminate].
          cbn [nth_error] in H1.
          pose proof (complete_resume w table p (store e)) as Hc.
          destruct (resume w table p (store e)) as [p' rows'].
          cbn [fst snd] in Hc. injection H1 as <-.
          unfold settle. rewrite Hfl.
          destruct p'; cbn [in_flight store remove_nth replace_nth firstn skipn
                            app length];
            (split; [lia | now rewrite <- Hc]). }
      destruct Hone as [Hle1 Hs1].
      destruct (IH _ _ Hrun Hidle Hle1) as [Hle' Hsettle].
      split; [exact Hle'|]. now rewrite Hsettle, Hs1.
Qed.

(** C1, as the code has it: the engine starts one pass at once and one more
    at every trigger, skipping none; the passes in flight are those started
    and not yet settled; and as long as every trigger arrives after the pass
    before it has settled, at most one pass is in flight and the match store
    ends up as if the passes had run one after another. *)
Theorem every_trigger_starts_a_pass
        (w0 : World) (rows0 : list MatchRow) (trace : list Trigger) (e : Engine) :
  run table (startMatchEngine w0 rows0) trace = Some e ->
  started e = (1 + length (tick_worlds trace))%nat
  /\ (running e + settled e = started e)%nat
  /\ (ticks_when_idle table (startMatchEngine w0 rows0) trace = true ->
      (running e <= 1)%nat
      /\ settle table e = sequential table (w0 :: tick_worlds trace) rows0).
Proof.
  intros Hrun. pose proof (run_accounts _ _ Hrun) as [Hs Hr].
  unfold running in *. cbn [startMatchEngine started settled in_flight length]
    in Hs, Hr.
  split; [lia | split; [lia|]].
  intros Hidle.
  destruct (run_idle_ticks _ _ Hrun Hidle) as [Hle Hsettle].
  { unfold running. simpl. lia. }
  split; [exact Hle|]. rewrite Hsettle, sequential_cons. f_equal.
  unfold settle. cbn [startMatchEngine in_flight store].
  apply complete_alone_rows.
Qed.

End EngineFacts.

Lemma demo_batch : select_pets StatusLost 50 demo_table = [demo_lost].
Proof. reflexivity. Qed.

(** Evaluation of a trace over the concrete records: reduce, and put in the
    batch and the scan of [demo_lost] where they are asked for. *)
Ltac run_demo_trace :=
  repeat (progress (cbn -[findMatchesForLostPet select_pets];
                    rewrite ?demo_batch, ?demo_scan)).

Lemma sequential_trace_runs :
  exists e : Engine,
    run demo_table (startMatchEngine store_up []) sequential_trace = Some e.
Proof. unfold sequential_trace. run_demo_trace. eexists. reflexivity. Qed.

Lemma sequential_trace_idle :
  ticks_when_idle demo_table (startMatchEngine store_up []) sequential_trace
  = true.
Proof. unfold sequential_trace. run_demo_trace. reflexivity. Qed.

Lemma every_trigger_starts_a_pass_witness :
  match run demo_table (startMatchEngine store_up []) sequential_trace with
  | Some e =>
      started e = 2%nat
      /\ (running e + settled e = started e)%nat
      /\ (running e <= 1)%nat
      /\ settle demo_table e
         = sequential demo_table [store_up; store_up_from 2] []
  | None => False
  end.
Proof.
  destruct (run demo_table (startMatchEngine store_up []) sequential_trace)
    as [e|] eqn:Hrun.
  - destruct (@every_trigger_starts_a_pass demo_table store_up []
                sequential_trace e Hrun) as (Hstarted & Hflight & Hidle).
    destruct (Hidle sequential_trace_idle) as [Hone Hsettle].
    split; [exact Hstarted | split; [exact Hflight | split; assumption]].
  - destruct sequential_trace_runs as [e He]. congruence.
Defined.

(** C1 as stated fails: a trigger that arrives while the first pass is
    still in flight starts a second pass; and when the two take turns at
    their awaits the store gets the pair twice, where passes run one after
    another record it once. *)
Lemma overlapping_trigger_starts_second_pass :
  option_map running
    (run demo_table (startMatchEngine store_up []) [Tick (store_up_from 2)])
  = Some 2%nat
  /\ option_map (fun e => map pair_of (store e))
       (run demo_table (startMatchEngine store_up []) overlapping_trace)
     = Some [(1, 2); (1, 2)]%nat
  /\ map pair_of (sequential demo_table [store_up; store_up_from 2] [])
     = [(1, 2)]%nat
  /\ ~ (forall (table : list Pet) (w0 : World) (rows0 : list MatchRow)
               (trace : list Trigger) (e : Engine),
           run table (startMatchEngine w0 rows0) trace = Some e ->
           (running e <= 1)%nat).
Proof.
  split; [reflexivity | split; [| split]].
  - unfold overlapping_trace. run_demo_trace. reflexivity.
  - unfold sequential. cbn [fold_left].
    rewrite !demo_pass by reflexivity. cbn [rows_after].
    rewrite !process_match_pairs. reflexivity.
  - intros Hall.
    specialize (Hall demo_table store_up [] [Tick (store_up_from 2)] _ eq_refl).
    unfold running in Hall. simpl in Hall. lia.
Qed.

End SchedulerProps.

(** * Further properties of the engine and of the report generator *)

(** ** Similarity kernel: symmetry, self-similarity, scaling *)

(** Multiplication of binary64 numbers commutes. *)
Lemma SFmul_comm (prec emax : Z) (x y : SpecFloat.spec_float) :
  SpecFloat.SFmul prec emax x y = SpecFloat.SFmul prec emax y x.
Proof.
  destruct x as [sx|sx| |sx mx ex], y as [sy|sy| |sy my ey]; simpl;
    rewrite ?(xorb_comm sx sy), ?(Pos.mul_comm mx my), ?(Z.add_comm ex ey);
    reflexivity.
Qed.

Lemma float_mul_comm (x y : float) : PrimFloat.mul x y = PrimFloat.mul y x.
Proof.
  apply FloatAxioms.Prim2SF_inj. rewrite !FloatAxioms.mul_spec.
  apply SFmul_comm.
Qed.

Section KernelSymmetry.
Context {T : Type} {N : JsNumber T}.
Hypothesis num_mul_comm : forall x y : T, num_mul x y = num_mul y x.

(** The loop run on the two vectors in the other order. *)
Lemma accumulate_swap (v1 : list T) :
  forall (v2 : list T) (d a b : T),
    length v1 = length v2 ->
    accumulate v2 v1 d b a
    = let '(d', a', b') := accumulate v1 v2 d a b in (d', b', a').
Proof.
  induction v1 as [|x v1 IH]; intros [|y v2] d a b Hlen; simpl in *;
    try discriminate; [reflexivity|].
  rewrite (num_mul_comm y x). apply IH. now injection Hlen.
Qed.

Lemma cosineSimilarity_swap (vec1 vec2 : vector T) :
  cosineSimilarity vec1 vec2 = cosineSimilarity vec2 vec1.
Proof.
  destruct vec1 as [v1|], vec2 as [v2|]; try reflexivity.
  unfold cosineSimilarity. rewrite (Nat.eqb_sym (length v2)).
  destruct (length v1 =? length v2)%nat eqn:Hlen; [| reflexivity].
  apply Nat.eqb_eq in Hlen. cbn [negb].
  rewrite (accumulate_swap v1 v2 _ _ _ Hlen).
  destruct (accumulate v1 v2 num_zero num_zero num_zero) as [[d a] b].
  rewrite (orb_comm (num_is_zero (num_sqrt b))), (num_mul_comm (num_sqrt b)).
  reflexivity.
Qed.

End KernelSymmetry.

(** X1.  [cosineSimilarity] does not depend on the order of its two
    vectors, for all inputs (null vectors and vectors of two lengths
    included): in exact arithmetic, and bit for bit on the binary64 numbers
    the program computes with. *)
Theorem cosineSimilarity_symmetric :
  (forall vec1 vec2 : vector R,
      cosineSimilarity vec1 vec2 = cosineSimilarity vec2 vec1)
  /\ (forall vec1 vec2 : vector float,
         cosineSimilarity vec1 vec2 = cosineSimilarity vec2 vec1).
Proof.
  split; intros vec1 vec2; apply cosineSimilarity_swap.
  - exact Rmult_comm.
  - exact float_mul_comm.
Qed.

Lemma dot_scale_l (c : R) (v1 : list R) :
  forall v2, dot (scale c v1) v2 = c * dot v1 v2.
Proof.
  induction v1 as [|x v1 IH]; intros [|y v2]; simpl; try ring.
  rewrite IH. ring.
Qed.

Lemma dot_scale_r (c : R) (v1 : list R) :
  forall v2, dot v1 (scale c v2) = c * dot v1 v2.
Proof.
  induction v1 as [|x v1 IH]; intros [|y v2]; simpl; try ring.
  rewrite IH. ring.
Qed.

Lemma euclidean_norm_scale (c : R) (v : list R) :
  0 <= c -> euclidean_norm (scale c v) = c * euclidean_norm v.
Proof.
  intros Hc. unfold euclidean_norm.
  rewrite dot_scale_l, dot_scale_r.
  replace (c * (c * dot v v)) with (Rsqr c * dot v v) by (unfold Rsqr; ring).
  rewrite sqrt_mult; [| apply Rle_0_sqr | apply dot_self_nonneg].
  now rewrite sqrt_Rsqr.
Qed.

Lemma euclidean_norm_sqr (v : list R) :
  euclidean_norm v * euclidean_norm v = dot v v.
Proof. apply sqrt_sqrt, dot_self_nonneg. Qed.

(** X2.  In exact arithmetic a vector with a non-zero entry has similarity
    [1] with itself. *)
Theorem cosineSimilarity_self (v : list R) :
  Exists (fun x => x <> 0) v ->
  cosineSimilarity (Some v) (Some v) = 1.
Proof.
  intros Hnz.
  assert (Hn : euclidean_norm v <> 0).
  { rewrite euclidean_norm_zero. intros Hall.
    apply Exists_exists in Hnz as (x & Hin & Hx).
    rewrite Forall_forall in Hall. now apply Hx, Hall. }
  rewrite cosineSimilarity_closed_form by reflexivity.
  apply Ris_zero_false in Hn as Hz. rewrite Hz. cbn [orb].
  rewrite <- euclidean_norm_sqr. now field.
Qed.

Lemma cosineSimilarity_self_witness :
  cosineSimilarity (Some [3; 4]) (Some [3; 4]) = 1.
Proof.
  apply (@cosineSimilarity_self [3; 4]).
  apply Exists_cons_hd. lra.
Defined.

(** X3.  In exact arithmetic the similarity does not change when either
    vector is multiplied by a positive factor: only directions count. *)
Theorem cosineSimilarity_scale_invariant (a b : R) (v1 v2 : list R) :
  0 < a -> 0 < b ->
  cosineSimilarity (Some (scale a v1)) (Some (scale b v2))
  = cosineSimilarity (Some v1) (Some v2).
Proof.
  intros Ha Hb.
  destruct (Nat.eq_dec (length v1) (length v2)) as [Hlen | Hlen].
  - rewrite !cosineSimilarity_closed_form
      by (unfold scale; now rewrite ?length_map).
    rewrite !euclidean_norm_scale by lra.
    rewrite dot_scale_l, dot_scale_r.
    destruct (Ris_zero (euclidean_norm v1)) eqn:H1.
    + apply Ris_zero_true in H1. rewrite H1, Rmult_0_r.
      now rewrite (proj2 (Ris_zero_true 0) eq_refl).
    + apply Ris_zero_false in H1.
      assert (H1' : a * euclidean_norm v1 <> 0) by (apply Rmult_integral_contrapositive; split; lra).
      apply Ris_zero_false in H1' as ->. cbn [orb].
      destruct (Ris_zero (euclidean_norm v2)) eqn:H2.
      * apply Ris_zero_true in H2. rewrite H2, Rmult_0_r.
        now rewrite (proj2 (Ris_zero_true 0) eq_refl).
      * apply Ris_zero_false in H2.
        assert (H2' : b * euclidean_norm v2 <> 0) by (apply Rmult_integral_contrapositive; split; lra).
        apply Ris_zero_false in H2' as ->. field. repeat split; lra.
  - rewrite !cosineSimilarity_length_mismatch;
      unfold scale; rewrite ?length_map; auto.
Qed.

Lemma cosineSimilarity_scale_invariant_witness :
  cosineSimilarity (Some (scale 2 [1; 0])) (Some (scale 3 [1; 1]))
  = cosineSimilarity (Some [1; 0]) (Some [1; 1]).
Proof. apply (@cosineSimilarity_scale_invariant 2 3 [1; 0] [1; 1]); lra. Defined.

(** X4.  On binary64 numbers every degenerate input gives exactly [0]: a
    null vector, vectors of two lengths, an empty vector, and a vector whose
    computed norm [=== 0], which on binary64 numbers includes non-zero
    vectors whose squares underflow. *)
Theorem cosineSimilarity_binary64_degenerate (vec1 vec2 : vector float) :
  vec1 = None \/ vec2 = None
  \/ (exists v1 v2 : list float,
         vec1 = Some v1 /\ vec2 = Some v2
         /\ (length v1 <> length v2 \/ v1 = [] \/ v2 = []
             \/ PrimFloat.eqb (computed_norm v1) 0 = true
             \/ PrimFloat.eqb (computed_norm v2) 0 = true)) ->
  cosineSimilarity vec1 vec2 = 0%float.
Proof.
  intros H.
  change (cosineSimilarity vec1 vec2 = num_zero).
  apply cosineSimilarity_degenerate_any. exact H.
Qed.

Lemma cosineSimilarity_binary64_degenerate_witness :
  cosineSimilarity (Some [0x1p-600; 0x1p-600]%float) (Some [1; 1]%float)
  = 0%float.
Proof.
  apply (@cosineSimilarity_binary64_degenerate
           (Some [0x1p-600; 0x1p-600]%float) (Some [1; 1]%float)).
  right. right. exists [0x1p-600; 0x1p-600]%float, [1; 1]%float.
  split; [reflexivity|]. split; [reflexivity|].
  right. right. right. left. vm_compute. reflexivity.
Defined.

(** ** Geographic distance: the range *)

Lemma truthy_missing (c : coordinate) : truthy c = None <-> missing c.
Proof.
  unfold truthy, missing. destruct c as [x|].
  - destruct (Ris_zero x) eqn:Hz.
    + apply Ris_zero_true in Hz as ->. split; auto.
    + apply Ris_zero_false in Hz. split; [discriminate|].
      intros [E | E]; [discriminate | injection E as E; contradiction].
  - split; auto.
Qed.

(** [Math.atan2] of two non-negative numbers is in the first quadrant. *)
Lemma atan2_quadrant (y x : R) :
  0 <= y -> 0 <= x -> 0 <= atan2 y x <= PI / 2.
Proof.
  intros Hy Hx. unfold atan2. pose proof PI_RGT_0 as Hpi.
  destruct (Rlt_dec 0 x) as [Hpos | Hnpos].
  - assert (Hq : 0 <= y / x) by (apply Rmult_le_pos; [lra | left; now apply Rinv_0_lt_compat]).
    pose proof (atan_bound (y / x)) as [_ Hub].
    split; [| lra].
    rewrite <- atan_0. destruct Hq as [Hq | <-]; [left; now apply atan_increasing | right; reflexivity].
  - destruct (Rlt_dec x 0); [lra|].
    destruct (Rlt_dec 0 y); [lra|].
    destruct (Rlt_dec y 0); lra.
Qed.

(** X6.  A finite result of [calculateDistance] is not negative and not
    more than half the circumference of the sphere of radius 3959 miles. *)
Theorem calculateDistance_bounds (lat1 lon1 lat2 lon2 : coordinate) :
  match calculateDistance lat1 lon1 lat2 lon2 with
  | Infinity => True
  | Finite d => 0 <= d <= 3959 * PI
  end.
Proof.
  unfold calculateDistance.
  destruct (truthy lat1) as [a1|]; [| exact I].
  destruct (truthy lon1) as [o1|]; [| exact I].
  destruct (truthy lat2) as [a2|]; [| exact I].
  destruct (truthy lon2) as [o2|]; [| exact I].
  cbv zeta.
  pose proof (haversine_a_range a1 o1 a2 o2) as [Hlo Hhi].
  pose proof (@atan2_quadrant (sqrt (haversine_a a1 o1 a2 o2))
                              (sqrt (1 - haversine_a a1 o1 a2 o2))
                              (sqrt_pos _) (sqrt_pos _)) as [H0 H1].
  split; nra.
Qed.

(** ** Candidate scanner: repeats, positions *)

Lemma scan_pool_filter (lostPet : Pet) (foundPets : list Pet) :
  map foundPet (flat_map (scan_one lostPet) foundPets)
  = filter (passes lostPet) foundPets.
Proof.
  induction foundPets as [|fp rest IH]; [reflexivity|].
  cbn [flat_map filter]. rewrite map_app, IH.
  unfold scan_one, passes.
  destruct (no_vectors fp); [reflexivity|]. cbn [negb andb].
  now destruct (Rleb _ _ && miles_leb _ _).
Qed.

(** The counterparts returned are those of the pool that pass, each as
    often as the pool lists it. *)
Lemma findMatchesForLostPet_pool (lostPet : Pet) (foundPets : list Pet) :
  exists kept : list Pet,
    Permutation (map foundPet (findMatchesForLostPet (Some foundPets) lostPet))
                kept
    /\ kept = filter (fun fp => negb (no_vectors lostPet) && passes lostPet fp)
                     foundPets.
Proof.
  eexists. split; [| reflexivity].
  unfold findMatchesForLostPet. destruct (no_vectors lostPet); cbn [negb andb].
  - induction foundPets as [|fp rest IH]; [constructor | exact IH].
  - rewrite <- scan_pool_filter. apply Permutation_map, Permutation_sym,
      js_sort_perm.
Qed.

Lemma filter_length_le (A : Type) (f : A -> bool) (l : list A) :
  (length (filter f l) <= length l)%nat.
Proof.
  induction l as [|x l IH]; simpl; [lia|]. destruct (f x); simpl; lia.
Qed.

Lemma findMatchesForLostPet_length (reply : option (list Pet)) (lostPet : Pet) :
  (length (findMatchesForLostPet reply lostPet)
   <= match reply with Some foundPets => length foundPets | None => 0 end)%nat.
Proof.
  destruct reply as [foundPets|].
  - destruct (findMatchesForLostPet_pool lostPet foundPets) as (kept & Hp & ->).
    apply Permutation_length in Hp. rewrite length_map in Hp. rewrite Hp.
    apply filter_length_le.
  - unfold findMatchesForLostPet. destruct (no_vectors lostPet); simpl; lia.
Qed.

(** X9.  From a pool in which no record occurs twice no counterpart is
    returned twice, and there are never more candidates than pool records. *)
Theorem findMatchesForLostPet_no_repeats (lostPet : Pet) (foundPets : list Pet) :
  NoDup foundPets ->
  NoDup (map foundPet (findMatchesForLostPet (Some foundPets) lostPet))
  /\ (length (findMatchesForLostPet (Some foundPets) lostPet)
      <= length foundPets)%nat.
Proof.
  intros Hnd. split.
  - destruct (findMatchesForLostPet_pool lostPet foundPets) as (kept & Hp & ->).
    eapply Permutation_NoDup; [apply Permutation_sym, Hp |].
    now apply NoDup_filter.
  - apply (findMatchesForLostPet_length (Some foundPets)).
Qed.

Lemma findMatchesForLostPet_no_repeats_witness :
  NoDup (map foundPet (findMatchesForLostPet (Some [demo_found; demo_found2])
                                             demo_lost))
  /\ (length (findMatchesForLostPet (Some [demo_found; demo_found2]) demo_lost)
      <= 2)%nat.
Proof.
  apply (@findMatchesForLostPet_no_repeats demo_lost [demo_found; demo_found2]).
  constructor; [| constructor; [| constructor]].
  - intros [E | []]. discriminate.
  - intros [].
Defined.

(** X10.  A candidate is returned only when the lost record and the found
    record both have a latitude and a longitude that are present and not
    [0]: a record without a position, or on the equator or the prime
    meridian, matches nothing. *)
Theorem findMatchesForLostPet_needs_locations
        (lostPet : Pet) (foundPets : list Pet) (m : Match) :
  In m (findMatchesForLostPet (Some foundPets) lostPet) ->
  ~ missing (location_lat lostPet) /\ ~ missing (location_lon lostPet)
  /\ ~ missing (location_lat (foundPet m))
  /\ ~ missing (location_lon (foundPet m)).
Proof.
  intros Hin. apply findMatchesForLostPet_sound in Hin
    as (_ & _ & _ & Hdist & _ & Hwithin).
  rewrite Hdist in Hwithin. unfold pair_distance in Hwithin.
  assert (Hfin : calculateDistance (location_lat lostPet) (location_lon lostPet)
                   (location_lat (foundPet m)) (location_lon (foundPet m))
                 <> Infinity).
  { intros E. now rewrite E in Hwithin. }
  rewrite <- !truthy_missing.
  repeat split; intros Hmiss; apply Hfin, calculateDistance_missing; auto.
Qed.

Lemma findMatchesForLostPet_needs_locations_witness :
  ~ missing (location_lat demo_lost) /\ ~ missing (location_lon demo_lost)
  /\ ~ missing (location_lat (foundPet demo_match))
  /\ ~ missing (location_lon (foundPet demo_match)).
Proof.
  apply (@findMatchesForLostPet_needs_locations
           demo_lost (select_pets StatusFound 1000 demo_table) demo_match).
  rewrite demo_scan. now left.
Defined.

(** ** Dedup gate and notification: round trip, status updates, recipient *)

Lemma recorded_app (rows rows' : list MatchRow) (l f : nat) :
  recorded (rows ++ rows') l f <-> recorded rows l f \/ recorded rows' l f.
Proof. unfold recorded. now rewrite map_app, in_app_iff. Qed.

Lemma matchExists_answered (rows : list MatchRow) (l f : nat) :
  matchExists true rows l f = false <-> ~ recorded rows l f.
Proof.
  pose proof (matchExists_true true rows l f) as Ht.
  destruct (matchExists true rows l f); split; intros H; try reflexivity;
    try discriminate.
  - exfalso. apply H. now apply Ht.
  - intros Hrec. assert (E : false = true) by (apply Ht; now split).
    discriminate.
Qed.

(** X11.  After an insert of [saveMatch] that the store accepted, an
    answered [matchExists] for that pair says [true], and for every other
    pair it answers what it answered before the insert. *)
Theorem saveMatch_then_matchExists
        (new_id : nat) (rows : list MatchRow) (l f : nat) (sim : R) (dist : miles) :
  let rows' := fst (saveMatch (Some new_id) rows l f sim dist) in
  matchExists true rows' l f = true
  /\ forall l' f' : nat,
       (l', f') <> (l, f) ->
       matchExists true rows' l' f' = matchExists true rows l' f'.
Proof.
  cbn [saveMatch fst]. split.
  - apply matchExists_true. split; [reflexivity|].
    apply recorded_app. right. now left.
  - intros l' f' Hne.
    assert (Hiff : recorded (rows ++ [pending_row new_id l f sim dist]) l' f'
                   <-> recorded rows l' f').
    { rewrite recorded_app. split; [| now left].
      intros [H | [E | []]]; [exact H|].
      unfold pair_of in E. cbn in E. congruence. }
    destruct (matchExists true rows l' f') eqn:E.
    + apply matchExists_true. apply matchExists_true in E as [_ E].
      split; [reflexivity | now apply Hiff].
    + apply matchExists_answered. apply matchExists_answered in E.
      now rewrite Hiff.
Qed.

Lemma updateMatchStatus_twice (matchId : nat) (st1 st2 : MatchStatus)
      (rows : list MatchRow) :
  updateMatchStatus matchId st2 (updateMatchStatus matchId st1 rows)
  = updateMatchStatus matchId st2 rows.
Proof.
  unfold updateMatchStatus. rewrite map_map. apply map_ext. intros r.
  destruct (row_id r =? matchId)%nat eqn:E; cbn [row_id]; now rewrite E.
Qed.

Lemma updateMatchStatus_commute (id1 id2 : nat) (st1 st2 : MatchStatus)
      (rows : list MatchRow) :
  id1 <> id2 ->
  updateMatchStatus id1 st1 (updateMatchStatus id2 st2 rows)
  = updateMatchStatus id2 st2 (updateMatchStatus id1 st1 rows).
Proof.
  intros Hne. unfold updateMatchStatus. rewrite !map_map. apply map_ext.
  intros r.
  destruct (row_id r =? id1)%nat eqn:E1, (row_id r =? id2)%nat eqn:E2;
    cbn [row_id]; rewrite ?E1, ?E2; try reflexivity.
  apply Nat.eqb_eq in E1, E2. congruence.
Qed.

(** X12.  Status updates compose: of two updates of one match the later
    one wins, updates of two matches commute, and an update changes neither
    the answer of any [matchExists] lookup nor the id, pair, score or
    distance of any row. *)
Theorem updateMatchStatus_composes
        (id1 id2 : nat) (st1 st2 : MatchStatus) (rows : list MatchRow) :
  updateMatchStatus id1 st2 (updateMatchStatus id1 st1 rows)
  = updateMatchStatus id1 st2 rows
  /\ (id1 <> id2 ->
      updateMatchStatus id1 st1 (updateMatchStatus id2 st2 rows)
      = updateMatchStatus id2 st2 (updateMatchStatus id1 st1 rows))
  /\ (forall (ok : bool) (l f : nat),
         matchExists ok (updateMatchStatus id1 st1 rows) l f
         = matchExists ok rows l f)
  /\ map row_key (updateMatchStatus id1 st1 rows) = map row_key rows.
Proof.
  split; [apply updateMatchStatus_twice|].
  split; [apply updateMatchStatus_commute|].
  split; [| apply updateMatchStatus_keys].
  intros ok l f. apply matchExists_pairs, updateMatchStatus_pairs.
Qed.

(** X13.  [sendMatchNotification] posts a message only when the SMS service
    is configured, and only to a non-empty number: the owner's phone, or
    the contact phone when the owner's phone is missing or empty.  It skips
    the post for want of a phone only when both are missing or empty. *)
Theorem sendMatchNotification_recipient
        (configured post_ok : bool) (lostPet : Pet) (m : Match) :
  match sendMatchNotification configured post_ok lostPet m with
  | SmsNotConfigured => configured = false
  | SmsNoPhone =>
      configured = true
      /\ truthy_string (owner_phone lostPet) = None
      /\ truthy_string (contact_phone lostPet) = None
  | SmsSent to =>
      configured = true /\ post_ok = true /\ to <> EmptyString
      /\ (owner_phone lostPet = Some to
          \/ truthy_string (owner_phone lostPet) = None
             /\ contact_phone lostPet = Some to)
  | SmsFailed to =>
      configured = true /\ post_ok = false /\ to <> EmptyString
      /\ (owner_phone lostPet = Some to
          \/ truthy_string (owner_phone lostPet) = None
             /\ contact_phone lostPet = Some to)
  end.
Proof.
  unfold sendMatchNotification.
  destruct configured; [| reflexivity]. cbn [negb].
  destruct (owner_phone lostPet) as [[|a s]|],
           (contact_phone lostPet) as [[|b t]|], post_ok; cbn;
    repeat split; auto; discriminate.
Qed.

(** ** One pass: what it adds to the store *)

Lemma persisted_app (a b : list Event) :
  persisted (a ++ b) = persisted a ++ persisted b.
Proof. apply flat_map_app. Qed.

(** What one iteration adds to the store and to the log. *)
Lemma process_match_ledger (w : World) (i j : nat) (lostPet : Pet) (m : Match)
      (s : PassState) :
  exists added : list MatchRow,
    map row_key (match_rows (process_match w i j lostPet m s))
    = map row_key (match_rows s) ++ map row_key added
    /\ persisted (events (process_match w i j lostPet m s))
       = persisted (events s) ++ added
    /\ (added = []
        \/ matchExists (exists_query_ok w i j) (match_rows s)
                       (id lostPet) (foundPetId m) = false
           /\ exists new_id,
               added = [pending_row new_id (id lostPet) (foundPetId m)
                                    (similarity m) (distance m)])
    /\ (totalMatches (process_match w i j lostPet m s)
        <= totalMatches s + length added)%nat.
Proof.
  unfold process_match.
  destruct (matchExists _ _ _ _) eqn:Hex.
  - exists []. rewrite !app_nil_r. repeat split; auto. lia.
  - unfold saveMatch. destruct (insert_reply w i j) as [new_id|].
    + exists [pending_row new_id (id lostPet) (foundPetId m)
                          (similarity m) (distance m)].
      destruct new_id as [|n]; cbn [truthy_id match_rows events totalMatches].
      * rewrite map_app, persisted_app. repeat split; eauto. cbn. lia.
      * rewrite !persisted_app, app_nil_r.
        split; [| split; [reflexivity | split; [eauto | cbn; lia]]].
        destruct (report_writes _);
          [rewrite updateMatchStatus_keys |]; now rewrite map_app.
    + exists []. cbn [truthy_id match_rows events totalMatches].
      rewrite !app_nil_r. repeat split; auto. lia.
Qed.

Lemma firstn_subset (A : Type) (n : nat) (l : list A) (x : A) :
  In x (firstn n l) -> In x l.
Proof.
  intros H. rewrite <- (firstn_skipn n l). apply in_or_app. now left.
Qed.

Lemma select_pets_In (st : PetStatus) (n : nat) (table : list Pet) (p : Pet) :
  In p (select_pets st n table) -> In p table /\ status p = st.
Proof.
  unfold select_pets. intros Hin.
  apply firstn_subset in Hin. apply filter_In in Hin as [Hin Hb].
  split; [exact Hin|]. apply andb_prop in Hb as [Hb _].
  destruct (status p), st; try discriminate; reflexivity.
Qed.

Lemma select_pets_length (st : PetStatus) (n : nat) (table : list Pet) :
  (length (select_pets st n table) <= n)%nat.
Proof. unfold select_pets. apply firstn_le_length. Qed.

Lemma process_match_keeps_ledger (w : World) (table : list Pet)
      (rows0 : list MatchRow) (i j : nat) (lostPet : Pet) (m : Match)
      (s : PassState) :
  In lostPet table -> status lostPet = StatusLost ->
  In m (findMatchesForLostPet
          (query (found_query_ok w i) StatusFound 1000 table) lostPet) ->
  ledger w table rows0 s ->
  ledger w table rows0 (process_match w i j lostPet m s).
Proof.
  intros Hl Hst Hm (Hkeys & Hfor & Hcount).
  destruct (process_match_ledger w i j lostPet m s)
    as (added & Ek & Ep & Hadded & Ht).
  unfold ledger. rewrite Ek, Ep, Hkeys, map_app, length_app, app_assoc.
  split; [reflexivity|]. split; [| lia].
  apply Forall_app. split; [exact Hfor|].
  destruct Hadded as [-> | (_ & new_id & ->)]; [constructor|].
  constructor; [| constructor].
  assert (Hs : In (foundPet m) table /\ status (foundPet m) = StatusFound
               /\ foundPetId m = id (foundPet m)).
  { unfold query in Hm. destruct (found_query_ok w i).
    - apply findMatchesForLostPet_sound in Hm as (Hpool & Hid & _).
      apply select_pets_In in Hpool as [Hpool Hfound]. auto.
    - unfold findMatchesForLostPet in Hm. now destruct (no_vectors lostPet). }
  destruct Hs as (Hpool & Hfound & Hid).
  exists i, lostPet, m. cbn. repeat split; auto.
Qed.

Lemma for_matches_keeps_ledger (w : World) (table : list Pet)
      (rows0 : list MatchRow) (i : nat) (lostPet : Pet) (matches : list Match) :
  In lostPet table -> status lostPet = StatusLost ->
  (forall m, In m matches ->
             In m (findMatchesForLostPet
                     (query (found_query_ok w i) StatusFound 1000 table)
                     lostPet)) ->
  forall (j : nat) (s : PassState),
    ledger w table rows0 s ->
    ledger w table rows0 (for_matches w i j lostPet matches s).
Proof.
  intros Hl Hst. induction matches as [|m rest IH]; intros Hsub j s Hs;
    simpl; [assumption|].
  apply IH; [intros m' Hm'; apply Hsub; now right|].
  apply process_match_keeps_ledger; auto. apply Hsub. now left.
Qed.

Lemma for_lostPets_keeps_ledger (w : World) (table : list Pet)
      (rows0 : list MatchRow) (lostPets : list Pet) :
  (forall p, In p lostPets -> In p table /\ status p = StatusLost) ->
  forall (i : nat) (s : PassState),
    ledger w table rows0 s ->
    ledger w table rows0 (for_lostPets w table i lostPets s).
Proof.
  induction lostPets as [|p rest IH]; intros Hsub i s Hs; simpl; [assumption|].
  apply IH; [intros p' Hp'; apply Hsub; now right|].
  unfold process_pet. destruct (Hsub p (or_introl eq_refl)) as [Hin Hst].
  apply for_matches_keeps_ledger; auto.
Qed.

Lemma processMatches_ledger (w : World) (table : list Pet) (rows : list MatchRow) :
  match processMatches w table rows with
  | Aborted => True
  | Completed s => ledger w table rows s
  end.
Proof.
  unfold processMatches, query. destruct (lost_query_ok w); [| exact I].
  apply for_lostPets_keeps_ledger.
  - intros p Hp. now apply select_pets_In in Hp.
  - unfold ledger. cbn. rewrite app_nil_r. repeat split; auto.
Qed.

(** X14.  A pass never removes or renumbers a row of the match store: the
    store it leaves is the store it found followed by the rows it inserted,
    in the order of the inserts, up to the status column. *)
Theorem processMatches_only_appends
        (w : World) (table : list Pet) (rows : list MatchRow) :
  map row_key (rows_after rows (processMatches w table rows))
  = map row_key rows
    ++ map row_key (persisted (events_of (processMatches w table rows))).
Proof.
  pose proof (processMatches_ledger w table rows) as H.
  destruct (processMatches w table rows) as [|s]; cbn.
  - now rewrite app_nil_r.
  - apply H.
Qed.


Lemma for_matches_adds_at_most (w : World) (i : nat) (lostPet : Pet)
      (matches : list Match) :
  forall (j : nat) (s : PassState),
    (length (persisted (events (for_matches w i j lostPet matches s)))
     <= length (persisted (events s)) + length matches)%nat.
Proof.
  induction matches as [|m rest IH]; intros j s; simpl; [lia|].
  specialize (IH (S j) (process_match w i j lostPet m s)).
  destruct (process_match_ledger w i j lostPet m s)
    as (added & _ & Ep & Hadded & _).
  rewrite Ep, length_app in IH.
  destruct Hadded as [-> | (_ & new_id & ->)]; simpl in IH; lia.
Qed.

Lemma for_lostPets_adds_at_most (w : World) (table : list Pet)
      (lostPets : list Pet) :
  forall (i : nat) (s : PassState),
    (length (persisted (events (for_lostPets w table i lostPets s)))
     <= length (persisted (events s)) + length lostPets * 1000)%nat.
Proof.
  induction lostPets as [|p rest IH]; intros i s; simpl; [lia|].
  specialize (IH (S i) (process_pet w table i p s)).
  unfold process_pet in *.
  pose proof (for_matches_adds_at_most w i p
                (findMatchesForLostPet
                   (query (found_query_ok w i) StatusFound 1000 table) p) 0 s)
    as Hm.
  pose proof (findMatchesForLostPet_length
                (query (found_query_ok w i) StatusFound 1000 table) p) as Hl.
  assert (Hq : (match query (found_query_ok w i) StatusFound 1000 table with
                | Some foundPets => length foundPets
                | None => 0
                end <= 1000)%nat).
  { unfold query. destruct (found_query_ok w i); [| lia].
    apply select_pets_length. }
  lia.
Qed.

(** X16.  A pass inserts at most [BATCH_SIZE * 1000] rows, that is 50000:
    the batch holds at most 50 lost pets and each is compared with at most
    1000 found pets.  Its counter of new matches is at most the number of
    rows it inserted, and the store grows by exactly that number. *)
Theorem processMatches_bounded
        (w : World) (table : list Pet) (rows : list MatchRow) :
  match processMatches w table rows with
  | Aborted => True
  | Completed s =>
      (totalMatches s <= length (persisted (events s)))%nat
      /\ (length (persisted (events s)) <= BATCH_SIZE CONFIG * 1000)%nat
      /\ length (match_rows s) = (length rows + length (persisted (events s)))%nat
  end.
Proof.
  pose proof (processMatches_ledger w table rows) as H.
  unfold processMatches, query in *. destruct (lost_query_ok w); [| exact I].
  destruct H as (Hkeys & _ & Hcount).
  split; [exact Hcount|]. split.
  - pose proof (for_lostPets_adds_at_most w table
                  (select_pets StatusLost (BATCH_SIZE CONFIG) table) 0
                  {| match_rows := rows; totalMatches := 0;
                     notificationsSent := 0; events := [] |}) as Hb.
    pose proof (select_pets_length StatusLost (BATCH_SIZE CONFIG) table) as Hn.
    cbn [events persisted flat_map length] in Hb.
    apply (Nat.le_trans _ _ _ Hb). cbn [plus].
    apply Nat.mul_le_mono_r. exact Hn.
  - apply (f_equal (@length _)) in Hkeys.
    now rewrite length_app, !length_map in Hkeys.
Qed.






Lemma filter_filter_implied (A : Type) (f g : A -> bool) (l : list A) :
  (forall x, f x = true -> g x = true) ->
  filter f (filter g l) = filter f l.
Proof.
  intros Himp. induction l as [|x l IH]; simpl; [reflexivity|].
  destruct (g x) eqn:Hg; simpl.
  - now rewrite IH.
  - destruct (f x) eqn:Hf; [| exact IH].
    apply Himp in Hf. congruence.
Qed.

Lemma select_pets_scannable (st : PetStatus) (n : nat) (table : list Pet) :
  st <> StatusOther ->
  select_pets st n (filter scannable table) = select_pets st n table.
Proof.
  intros Hst. unfold select_pets. f_equal. apply filter_filter_implied.
  intros p Hp. apply andb_prop in Hp as [H1 H2]. unfold scannable.
  destruct (status p), st, (image_vectors p); try discriminate;
    try reflexivity; contradiction.
Qed.

Lemma for_lostPets_same_pool (w : World) (table table' : list Pet)
      (lostPets : list Pet) :
  select_pets StatusFound 1000 table' = select_pets StatusFound 1000 table ->
  forall (i : nat) (s : PassState),
    for_lostPets w table' i lostPets s = for_lostPets w table i lostPets s.
Proof.
  intros E. induction lostPets as [|p rest IH]; intros i s; simpl;
    [reflexivity|].
  rewrite IH. f_equal. unfold process_pet, query. now rewrite E.
Qed.

(** X18.  A pass reads only the records with status lost or found whose
    vectors column is not null: removing all other records from the table
    changes nothing of the pass. *)
Theorem processMatches_reads_scannable_only
        (w : World) (table : list Pet) (rows : list MatchRow) :
  processMatches w (filter scannable table) rows = processMatches w table rows.
Proof.
  unfold processMatches, query.
  rewrite select_pets_scannable by discriminate.
  destruct (lost_query_ok w); [| reflexivity]. f_equal.
  apply for_lostPets_same_pool, select_pets_scannable. discriminate.
Qed.

(** ** Report generator *)

Lemma truthy_string_nonempty (a : option string) (s : string) :
  truthy_string a = Some s -> a = Some s /\ s <> EmptyString.
Proof.
  destruct a as [[|c t]|]; cbn; intros E; try discriminate.
  injection E as <-. split; [reflexivity | discriminate].
Qed.

Lemma truthy_id_nonzero (a : option nat) (n : nat) :
  truthy_id a = Some n -> a = Some n /\ n <> 0%nat.
Proof.
  destruct a as [[|k]|]; cbn; intros E; try discriminate.
  injection E as <-. split; [reflexivity | discriminate].
Qed.

Lemma shelter_info_email (shelter : option Shelter) (info : ShelterInfo) :
  shelter_info shelter = Some info ->
  info_email info <> EmptyString
  /\ exists sh, shelter = Some sh
                /\ shelter_email sh = Some (info_email info)
                /\ shelter_name sh = info_name info.
Proof.
  unfold shelter_info. destruct shelter as [sh|]; [| discriminate].
  destruct (truthy_string (shelter_email sh)) as [email|] eqn:E; [| discriminate].
  intros H. injection H as <-. cbn.
  apply truthy_string_nonempty in E as [E Hne]. eauto.
Qed.

Lemma shelter_info_found (d : Directory) (foundPet : PetDetails)
      (shelter : option Shelter) (info : ShelterInfo) :
  (forall sh, shelter = Some sh -> found_by d foundPet sh) ->
  shelter_info shelter = Some info ->
  info_email info <> EmptyString
  /\ exists sh : Shelter,
       found_by d foundPet sh
       /\ shelter_email sh = Some (info_email info)
       /\ shelter_name sh = info_name info.
Proof.
  intros Hby Hinfo. apply shelter_info_email in Hinfo
    as (Hne & sh & -> & He & Hn).
  split; [exact Hne|]. exists sh. auto.
Qed.

Lemma shelter_info_None (shelter : option Shelter) :
  shelter_info shelter = None
  <-> forall sh, shelter = Some sh -> truthy_string (shelter_email sh) = None.
Proof.
  unfold shelter_info. destruct shelter as [sh|].
  - destruct (truthy_string (shelter_email sh)) eqn:E.
    + split; [discriminate|]. intros H. specialize (H sh eq_refl).
      rewrite E in H. discriminate.
    + split; [| reflexivity]. intros _ sh' Hsh'. now injection Hsh' as <-.
  - split; [intros _ sh H; discriminate | reflexivity].
Qed.

(** X19.  An address [getShelterEmail] returns is never empty, and it is
    the address, with the name, of a directory row that one of the three
    lookups returned for this pet: by a shelter id that is not [0], by an
    owner name that is neither empty nor ['Unknown'], or the first row for
    a city and a state that are both non-empty. *)
Theorem getShelterEmail_from_directory
        (d : Directory) (foundPet : PetDetails) (info : ShelterInfo) :
  getShelterEmail d foundPet = Some info ->
  info_email info <> EmptyString
  /\ exists sh : Shelter,
       found_by d foundPet sh
       /\ shelter_email sh = Some (info_email info)
       /\ shelter_name sh = info_name info.
Proof.
  unfold getShelterEmail.
  destruct (by_shelter_id d foundPet) as [i1|] eqn:E1.
  - intros H. injection H as ->. unfold by_shelter_id in E1.
    destruct (truthy_id (shelter_id foundPet)) as [sid|] eqn:Hs;
      [| discriminate].
    apply truthy_id_nonzero in Hs as [Hs Hnz].
    apply (shelter_info_found (d := d) (foundPet := foundPet)) in E1;
      [exact E1|].
    intros sh Hsh. now apply found_by_id with sid.
  - destruct (by_owner_name d foundPet) as [i2|] eqn:E2.
    + intros H. injection H as ->. unfold by_owner_name in E2.
      destruct (truthy_string (owner_name foundPet)) as [name|] eqn:Hn;
        [| discriminate].
      apply truthy_string_nonempty in Hn as [Hn Hne].
      destruct (String.eqb name "Unknown") eqn:Hu; [discriminate|].
      apply String.eqb_neq in Hu.
      apply (shelter_info_found (d := d) (foundPet := foundPet)) in E2;
        [exact E2|].
      intros sh Hsh. now apply found_by_name with name.
    + unfold by_location.
      destruct (truthy_string (location_city foundPet)) as [city|] eqn:Hc;
        [| discriminate].
      destruct (truthy_string (location_state foundPet)) as [state|] eqn:Hst;
        [| discriminate].
      apply truthy_string_nonempty in Hc as [Hc Hcne], Hst as [Hst Hsne].
      destruct (shelters_by_location d city state) as [[|sh rest]|] eqn:Hl;
        try discriminate.
      intros E3.
      apply (shelter_info_found (d := d) (foundPet := foundPet)) in E3;
        [exact E3|].
      intros sh' Hsh'. injection Hsh' as <-.
      now apply found_by_location with city state rest.
Qed.

Lemma getShelterEmail_from_directory_witness :
  "shelter@example.org"%string <> EmptyString
  /\ exists sh : Shelter,
       found_by demo_directory demo_details sh
       /\ shelter_email sh = Some "shelter@example.org"%string
       /\ shelter_name sh = Some "City Shelter"%string.
Proof.
  apply (@getShelterEmail_from_directory demo_directory demo_details
           {| info_email := "shelter@example.org";
              info_name := Some "City Shelter"%string |}).
  reflexivity.
Defined.

(** X20.  [getShelterEmail] returns [null] exactly when none of the lookups
    the pet's fields allow comes back with a row that has a non-empty
    address. *)
Theorem getShelterEmail_none_iff (d : Directory) (foundPet : PetDetails) :
  getShelterEmail d foundPet = None
  <-> forall sh : Shelter,
        found_by d foundPet sh -> truthy_string (shelter_email sh) = None.
Proof.
  split.
  - intros Hnone sh Hby.
    destruct (truthy_string (shelter_email sh)) as [email|] eqn:He;
      [exfalso | reflexivity].
    revert Hnone. unfold getShelterEmail.
    destruct Hby as [sid Hs Hnz Hq | name Hn Hne Hu Hq
                     | city state rest Hc Hcne Hst Hsne Hq].
    + unfold by_shelter_id. rewrite Hs.
      destruct sid as [|k]; [contradiction|]. cbn [truthy_id].
      rewrite Hq. unfold shelter_info. rewrite He. discriminate.
    + destruct (by_shelter_id d foundPet); [discriminate|].
      unfold by_owner_name. rewrite Hn.
      destruct name as [|c t]; [contradiction|]. cbn [truthy_string].
      apply String.eqb_neq in Hu. rewrite Hu, Hq.
      unfold shelter_info. rewrite He. discriminate.
    + destruct (by_shelter_id d foundPet); [discriminate|].
      destruct (by_owner_name d foundPet); [discriminate|].
      unfold by_location. rewrite Hc, Hst.
      destruct city as [|c t]; [contradiction|].
      destruct state as [|c' t']; [contradiction|].
      cbn [truthy_string]. rewrite Hq.
      unfold shelter_info. rewrite He. discriminate.
  - intros Hall. unfold getShelterEmail.
    assert (E1 : by_shelter_id d foundPet = None).
    { unfold by_shelter_id.
      destruct (truthy_id (shelter_id foundPet)) as [sid|] eqn:Hs;
        [| reflexivity].
      apply truthy_id_nonzero in Hs as [Hs Hnz].
      apply shelter_info_None. intros sh Hq. apply Hall.
      now apply found_by_id with sid. }
    assert (E2 : by_owner_name d foundPet = None).
    { unfold by_owner_name.
      destruct (truthy_string (owner_name foundPet)) as [name|] eqn:Hn;
        [| reflexivity].
      apply truthy_string_nonempty in Hn as [Hn Hne].
      destruct (String.eqb name "Unknown") eqn:Hu; [reflexivity|].
      apply String.eqb_neq in Hu.
      apply shelter_info_None. intros sh Hq. apply Hall.
      now apply found_by_name with name. }
    rewrite E1, E2. unfold by_location.
    destruct (truthy_string (location_city foundPet)) as [city|] eqn:Hc;
      [| reflexivity].
    destruct (truthy_string (location_state foundPet)) as [state|] eqn:Hst;
      [| reflexivity].
    apply truthy_string_nonempty in Hc as [Hc Hcne], Hst as [Hst Hsne].
    destruct (shelters_by_location d city state) as [[|sh rest]|] eqn:Hq;
      try reflexivity.
    apply shelter_info_None. intros sh' Hsh'. injection Hsh' as <-.
    apply Hall. now apply found_by_location with city state rest.
Qed.

(** X21.  [sendMatchReportEmail] calls at most one mail service: the first
    of Sinch, SendGrid and Resend whose API key is set.  When that service
    fails the mail is not sent, whether or not a later key is set; it
    reports failure without a call only when no key is set. *)
Theorem sendMatchReportEmail_one_provider (m : Mailer) :
  match sendMatchReportEmail m with
  | EmailSent via =>
      api_key m via = true /\ provider_accepts m via = true
      /\ Forall (fun p => api_key m p = false) (asked_before via)
  | EmailNotSent (Some tried) =>
      api_key m tried = true /\ provider_accepts m tried = false
      /\ Forall (fun p => api_key m p = false) (asked_before tried)
  | EmailNotSent None =>
      forall p, api_key m p = false
  end.
Proof.
  unfold sendMatchReportEmail, sendViaSinchEmail, sendViaSendGrid,
    sendViaResend, sendVia.
  destruct (SINCH_EMAIL_API_KEY m) eqn:K1.
  { destruct (provider_accepts m Sinch) eqn:A; cbn; auto. }
  destruct (SENDGRID_API_KEY m) eqn:K2.
  { destruct (provider_accepts m SendGrid) eqn:A; cbn; auto. }
  destruct (RESEND_API_KEY m) eqn:K3.
  { destruct (provider_accepts m Resend) eqn:A; cbn; auto. }
  intros [| |]; assumption.
Qed.

Lemma sendMatchReportEmail_sent (m : Mailer) (via : Provider) :
  sendMatchReportEmail m = EmailSent via ->
  api_key m via = true /\ provider_accepts m via = true.
Proof.
  unfold sendMatchReportEmail, sendViaSinchEmail, sendViaSendGrid,
    sendViaResend, sendVia.
  destruct (SINCH_EMAIL_API_KEY m) eqn:K1.
  { destruct (provider_accepts m Sinch) eqn:A; intros E; [| discriminate].
    injection E as <-. auto. }
  destruct (SENDGRID_API_KEY m) eqn:K2.
  { destruct (provider_accepts m SendGrid) eqn:A; intros E; [| discriminate].
    injection E as <-. auto. }
  destruct (RESEND_API_KEY m) eqn:K3; [| discriminate].
  destruct (provider_accepts m Resend) eqn:A; intros E; [| discriminate].
  injection E as <-. auto.
Qed.

Lemma match_by_id_In (ok : bool) (rows : list MatchRow) (matchId : nat)
      (m : MatchRow) :
  match_by_id ok rows matchId = Some m ->
  ok = true /\ In m rows /\ row_id m = matchId
  /\ forall r, In r rows -> row_id r = matchId -> r = m.
Proof.
  unfold match_by_id. destruct ok; [| discriminate].
  destruct (filter _ rows) as [|r [|r' rest]] eqn:Hf; try discriminate.
  intros E. injection E as ->.
  assert (Hin : In m (filter (fun r => (row_id r =? matchId)%nat) rows))
    by (rewrite Hf; now left).
  apply filter_In in Hin as [Hin Hid]. apply Nat.eqb_eq in Hid.
  repeat split; auto.
  intros r Hr Hrid.
  assert (Hr' : In r (filter (fun r => (row_id r =? matchId)%nat) rows)).
  { apply filter_In. split; [exact Hr | now apply Nat.eqb_eq]. }
  rewrite Hf in Hr'. destruct Hr' as [E | []]. now symmetry.
Qed.

(** The ways a call of [processMatchReport] ends. *)
Lemma processMatchReport_cases (rw : ReportWorld) (rows : list MatchRow)
      (matchId : nat) :
  (processMatchReport rw rows matchId = ReportNotSent None
   /\ forall info, ~ ready_to_send rw rows matchId info)
  \/ (processMatchReport rw rows matchId = ReportNotSent (written rw NoShelterEmail)
      /\ exists (m : MatchRow) (foundPet : PetDetails),
           match_by_id (match_query_ok rw) rows matchId = Some m
           /\ pet_details rw (found_pet_id m) = Some foundPet
           /\ getShelterEmail (directory rw) foundPet = None)
  \/ exists info : ShelterInfo,
       ready_to_send rw rows matchId info
       /\ (processMatchReport rw rows matchId = ReportThrew
              /\ pdf_generated rw = false
           \/ pdf_generated rw = true
              /\ ((exists via,
                      sendMatchReportEmail (mailer rw) = EmailSent via
                      /\ processMatchReport rw rows matchId
                         = ReportSent (info_email info) (status_update_ok rw))
                  \/ (exists tried,
                         sendMatchReportEmail (mailer rw) = EmailNotSent tried
                         /\ processMatchReport rw rows matchId
                            = ReportNotSent (written rw NotificationFailed)))).
Proof.
  unfold processMatchReport, ready_to_send.
  destruct (match_by_id _ rows matchId) as [m|] eqn:Hm.
  2:{ left. split; [reflexivity|]. intros info (m & ? & ? & E & _).
      discriminate. }
  destruct (pet_details rw (lost_pet_id m)) as [lostPet|] eqn:Hl.
  2:{ left. split; [reflexivity|]. intros info (m' & ? & ? & E & E' & _).
      injection E as <-. congruence. }
  destruct (pet_details rw (found_pet_id m)) as [foundPet|] eqn:Hf.
  2:{ left. split; [reflexivity|]. intros info (m' & ? & ? & E & _ & E' & _).
      injection E as <-. congruence. }
  destruct (getShelterEmail (directory rw) foundPet) as [info|] eqn:Hs.
  2:{ right. left. split; [reflexivity|]. exists m, foundPet. auto. }
  right. right. exists info. split; [exists m, lostPet, foundPet; auto|].
  destruct (pdf_generated rw); [right | left; auto].
  split; [reflexivity|].
  destruct (sendMatchReportEmail (mailer rw)) as [via|tried];
    [left; exists via | right; exists tried]; auto.
Qed.

Lemma written_Some (rw : ReportWorld) (st st' : MatchStatus) :
  written rw st = Some st' -> status_update_ok rw = true /\ st' = st.
Proof.
  unfold written. destruct (status_update_ok rw); [| discriminate].
  intros E. injection E as <-. auto.
Qed.

(** X22.  [processMatchReport] answers [{ success: true, email }] only when
    the store holds a row with that match id, the PDF was made, a mail
    service whose key is set accepted the message, and [email] is the
    address [getShelterEmail] returned for the found pet of that row. *)
Theorem processMatchReport_sent_means_delivered
        (rw : ReportWorld) (rows : list MatchRow) (matchId : nat)
        (email : string) (updated : bool) :
  processMatchReport rw rows matchId = ReportSent email updated ->
  updated = status_update_ok rw
  /\ pdf_generated rw = true
  /\ (exists via : Provider,
         sendMatchReportEmail (mailer rw) = EmailSent via
         /\ api_key (mailer rw) via = true
         /\ provider_accepts (mailer rw) via = true)
  /\ (exists m : MatchRow,
         In m rows /\ row_id m = matchId
         /\ exists (foundPet : PetDetails) (info : ShelterInfo),
              pet_details rw (found_pet_id m) = Some foundPet
              /\ getShelterEmail (directory rw) foundPet = Some info
              /\ info_email info = email).
Proof.
  intros Hsent.
  destruct (processMatchReport_cases rw rows matchId)
    as [[E _] | [[E _] | (info & Hready & [[E _] | [Hpdf [(via & Hvia & E) | (tried & _ & E)]]])]];
    rewrite E in Hsent; try discriminate.
  injection Hsent as <- <-.
  destruct Hready as (m & lostPet & foundPet & Hm & _ & Hf & Hs).
  apply match_by_id_In in Hm as (_ & Hin & Hid & _).
  apply sendMatchReportEmail_sent in Hvia as Hacc.
  repeat split; eauto 10.
Qed.

Lemma processMatchReport_sent_means_delivered_witness :
  processMatchReport demo_report_world demo_rows 1
  = ReportSent "shelter@example.org" true
  /\ exists via : Provider,
       sendMatchReportEmail demo_mailer = EmailSent via
       /\ api_key demo_mailer via = true
       /\ provider_accepts demo_mailer via = true.
Proof.
  split; [reflexivity|].
  apply (@processMatchReport_sent_means_delivered
           demo_report_world demo_rows 1 "shelter@example.org" true).
  reflexivity.
Defined.

(** X23.  The status [processMatchReport] writes tells how the call went:
    [shelter_notified] only after a mail service accepted the message,
    [notification_failed] only when an address was found, the PDF was made
    and the message was not sent, [no_shelter_email] only when the match
    and the found pet were read and no address was found; it never writes
    [pending]. *)
Theorem processMatchReport_status_meaning
        (rw : ReportWorld) (rows : list MatchRow) (matchId : nat)
        (st : MatchStatus) :
  report_writes (processMatchReport rw rows matchId) = Some st ->
  status_update_ok rw = true
  /\ match st with
     | Pending => False
     | ShelterNotified =>
         exists (info : ShelterInfo) (via : Provider),
           ready_to_send rw rows matchId info
           /\ pdf_generated rw = true
           /\ provider_accepts (mailer rw) via = true
           /\ processMatchReport rw rows matchId
              = ReportSent (info_email info) true
     | NotificationFailed =>
         exists (info : ShelterInfo) (tried : option Provider),
           ready_to_send rw rows matchId info
           /\ pdf_generated rw = true
           /\ sendMatchReportEmail (mailer rw) = EmailNotSent tried
     | NoShelterEmail =>
         exists (m : MatchRow) (foundPet : PetDetails),
           match_by_id (match_query_ok rw) rows matchId = Some m
           /\ pet_details rw (found_pet_id m) = Some foundPet
           /\ getShelterEmail (directory rw) foundPet = None
     end.
Proof.
  intros Hw.
  destruct (processMatchReport_cases rw rows matchId)
    as [[E _] | [[E Hno] | (info & Hready & [[E _] | [Hpdf [(via & Hvia & E) | (tried & Htried & E)]]])]];
    rewrite E in Hw; cbn [report_writes] in Hw; try discriminate.
  - apply written_Some in Hw as [Hok ->]. auto.
  - destruct (status_update_ok rw) eqn:Hok; [| discriminate].
    injection Hw as <-. split; [reflexivity|].
    apply sendMatchReportEmail_sent in Hvia as [_ Hacc].
    exists info, via. rewrite E. auto.
  - apply written_Some in Hw as [Hok ->]. eauto 6.
Qed.

Lemma processMatchReport_status_meaning_witness :
  report_writes (processMatchReport demo_report_world_refused demo_rows 1)
  = Some NotificationFailed
  /\ exists (info : ShelterInfo) (tried : option Provider),
       ready_to_send demo_report_world_refused demo_rows 1 info
       /\ pdf_generated demo_report_world_refused = true
       /\ sendMatchReportEmail (mailer demo_report_world_refused)
          = EmailNotSent tried.
Proof.
  split; [reflexivity|].
  apply (@processMatchReport_status_meaning
           demo_report_world_refused demo_rows 1 NotificationFailed).
  reflexivity.
Defined.

Lemma filter_by_key (rows : list MatchRow) (matchId : nat) :
  map row_key (filter (fun r => (row_id r =? matchId)%nat) rows)
  = filter (fun k : nat * nat * nat * R * miles =>
              let '(i, _, _, _, _) := k in (i =? matchId)%nat)
           (map row_key rows).
Proof.
  induction rows as [|r rows IH]; [reflexivity|].
  cbn [filter map].
  change (let '(i, _, _, _, _) := row_key r in (i =? matchId)%nat)
    with (row_id r =? matchId)%nat.
  destruct (row_id r =? matchId)%nat; cbn [map]; now rewrite IH.
Qed.

Lemma match_by_id_keys (ok : bool) (rows rows' : list MatchRow) (matchId : nat) :
  map row_key rows = map row_key rows' ->
  option_map row_key (match_by_id ok rows matchId)
  = option_map row_key (match_by_id ok rows' matchId).
Proof.
  intros E. unfold match_by_id. destruct ok; [| reflexivity].
  pose proof (filter_by_key rows matchId) as H1.
  pose proof (filter_by_key rows' matchId) as H2.
  rewrite E, <- H2 in H1. clear H2 E.
  set (l := filter (fun r => (row_id r =? matchId)%nat) rows) in *.
  set (l' := filter (fun r => (row_id r =? matchId)%nat) rows') in *.
  clearbody l l'.
  destruct l as [|r [|? ?]], l' as [|r' [|? ?]];
    cbn [map] in H1; try discriminate; try reflexivity.
  cbn [option_map]. congruence.
Qed.

(** X24.  [processMatchReport] does not read the status column: on two
    stores whose rows agree on id, pair, score and distance it ends the same
    way.  In particular a second call for a match that was reported sends
    the report again. *)
Theorem processMatchReport_ignores_status
        (rw : ReportWorld) (rows rows' : list MatchRow) (matchId : nat) :
  map row_key rows = map row_key rows' ->
  processMatchReport rw rows matchId = processMatchReport rw rows' matchId.
Proof.
  intros E. unfold processMatchReport.
  pose proof (@match_by_id_keys (match_query_ok rw) rows rows' matchId E) as Hk.
  destruct (match_by_id _ rows matchId) as [m|],
           (match_by_id _ rows' matchId) as [m'|]; cbn in Hk;
    try discriminate; [| reflexivity].
  unfold row_key in Hk. injection Hk as _ Hl Hf _ _. now rewrite Hl, Hf.
Qed.

Lemma processMatchReport_ignores_status_witness :
  processMatchReport demo_report_world demo_rows 1
  = processMatchReport demo_report_world
      (rows_after_report demo_report_world demo_rows 1) 1.
Proof.
  apply (@processMatchReport_ignores_status demo_report_world demo_rows
           (rows_after_report demo_report_world demo_rows 1) 1).
  reflexivity.
Defined.

(** * The scanner as the program computes it *)

(** ** Binary64 arithmetic: signs and comparisons *)

Lemma SFopp_involutive (x : SpecFloat.spec_float) :
  SpecFloat.SFopp (SpecFloat.SFopp x) = x.
Proof. destruct x as [s|s| |s m e]; simpl; now rewrite ?negb_involutive. Qed.

Lemma float_opp_involutive (x : float) : (- - x)%float = x.
Proof.
  apply FloatAxioms.Prim2SF_inj. rewrite !FloatAxioms.opp_spec.
  apply SFopp_involutive.
Qed.

Lemma binary_round_aux_opp (prec emax : Z) (s : bool) (m e : Z)
      (l : SpecFloat.location) :
  SpecFloat.binary_round_aux prec emax (negb s) m e l
  = SpecFloat.SFopp (SpecFloat.binary_round_aux prec emax s m e l).
Proof.
  unfold SpecFloat.binary_round_aux.
  destruct (SpecFloat.shr_fexp prec emax m e l) as [mrs' e'].
  destruct (SpecFloat.shr_fexp prec emax _ e' SpecFloat.loc_Exact) as [mrs'' e''].
  destruct (SpecFloat.shr_m mrs'') as [|p|p]; simpl; try reflexivity.
  now destruct (Z.leb e'' (Z.sub emax prec)).
Qed.

Lemma SFmul_opp_l (prec emax : Z) (x y : SpecFloat.spec_float) :
  SpecFloat.SFmul prec emax (SpecFloat.SFopp x) y
  = SpecFloat.SFopp (SpecFloat.SFmul prec emax x y).
Proof.
  destruct x as [sx|sx| |sx mx ex], y as [sy|sy| |sy my ey]; simpl;
    rewrite <- ?negb_xorb_l; try reflexivity.
  apply binary_round_aux_opp.
Qed.

Lemma SFdiv_opp_l (prec emax : Z) (x y : SpecFloat.spec_float) :
  SpecFloat.SFdiv prec emax (SpecFloat.SFopp x) y
  = SpecFloat.SFopp (SpecFloat.SFdiv prec emax x y).
Proof.
  destruct x as [sx|sx| |sx mx ex], y as [sy|sy| |sy my ey]; simpl;
    rewrite <- ?negb_xorb_l; try reflexivity.
  destruct (SpecFloat.SFdiv_core_binary prec emax (Zpos mx) ex (Zpos my) ey)
    as [[mz ez] lz].
  apply binary_round_aux_opp.
Qed.

Lemma float_mul_opp_l (x y : float) : (- x * y)%float = (- (x * y))%float.
Proof.
  apply FloatAxioms.Prim2SF_inj.
  rewrite FloatAxioms.mul_spec, !FloatAxioms.opp_spec, FloatAxioms.mul_spec.
  apply SFmul_opp_l.
Qed.

Lemma float_div_opp_l (x y : float) : (- x / y)%float = (- (x / y))%float.
Proof.
  apply FloatAxioms.Prim2SF_inj.
  rewrite FloatAxioms.div_spec, !FloatAxioms.opp_spec, FloatAxioms.div_spec.
  apply SFdiv_opp_l.
Qed.

Lemma binary_normalize_opp (prec emax : Z) (m e : Z) :
  m <> 0%Z ->
  SpecFloat.binary_normalize prec emax (Z.opp m) e false
  = SpecFloat.SFopp (SpecFloat.binary_normalize prec emax m e false).
Proof.
  intros Hm. destruct m as [|p|p]; [contradiction | |]; simpl;
    unfold SpecFloat.binary_round;
    destruct (SpecFloat.shl_align _ _ _) as [mz ez].
  - apply (binary_round_aux_opp prec emax false).
  - rewrite <- (binary_round_aux_opp prec emax true). reflexivity.
Qed.

Lemma SFsub_swap (prec emax : Z) (x y : SpecFloat.spec_float) :
  SpecFloat.SFsub prec emax y x = SpecFloat.SFopp (SpecFloat.SFsub prec emax x y)
  \/ SpecFloat.SFsub prec emax y x = SpecFloat.SFsub prec emax x y.
Proof.
  destruct x as [sx|sx| |sx mx ex], y as [sy|sy| |sy my ey]; simpl;
    try (left; reflexivity);
    try (destruct sx, sy; simpl; auto; fail);
    try (destruct sx; simpl; auto; fail);
    try (destruct sy; simpl; auto; fail).
  change (IntDef.Z.min ey ex) with (Z.min ey ex).
  change (IntDef.Z.min ex ey) with (Z.min ex ey).
  rewrite (Z.min_comm ey ex).
  set (A := SpecFloat.cond_Zopp sx _). set (B := SpecFloat.cond_Zopp sy _).
  destruct (Z.eq_dec (Z.sub A B) 0) as [E | E].
  - right. replace (Z.sub B A) with 0%Z by lia. now rewrite E.
  - left. replace (Z.sub B A) with (Z.opp (Z.sub A B)) by lia.
    now apply binary_normalize_opp.
Qed.

Lemma float_sub_swap (x y : float) :
  (y - x)%float = (- (x - y))%float \/ (y - x)%float = (x - y)%float.
Proof.
  destruct (SFsub_swap FloatOps.prec FloatOps.emax (FloatOps.Prim2SF x) (FloatOps.Prim2SF y))
    as [H | H]; [left | right]; apply FloatAxioms.Prim2SF_inj;
    rewrite ?FloatAxioms.opp_spec, !FloatAxioms.sub_spec; exact H.
Qed.

Lemma float_mul_opp_opp (x : float) : (- x * - x)%float = (x * x)%float.
Proof.
  rewrite float_mul_opp_l, (float_mul_comm x (- x)), float_mul_opp_l.
  apply float_opp_involutive.
Qed.

Lemma float_mul_opp_r (x y : float) : (x * - y)%float = (- (x * y))%float.
Proof. now rewrite (float_mul_comm x), float_mul_opp_l, (float_mul_comm y). Qed.



(** ** Candidates and distances on binary64 numbers *)

Module Binary64Props.
Import Binary64.

Section Symmetry.
Variable M : Math.
Hypothesis sin_odd : forall x : float, Math_sin M (- x) = (- Math_sin M x)%float.

(** The sine term of the haversine formula for a difference and for the
    difference taken the other way round. *)
Lemma sin_term_swap (x y : float) :
  let d := ((y - x) * Math_PI / 180 / 2)%float in
  let d' := ((x - y) * Math_PI / 180 / 2)%float in
  Math_sin M d' = Math_sin M d \/ Math_sin M d' = (- Math_sin M d)%float.
Proof.
  cbv zeta. destruct (float_sub_swap y x) as [E | E]; rewrite E.
  - right. rewrite float_mul_opp_l, !float_div_opp_l. apply sin_odd.
  - now left.
Qed.

Lemma haversine_swap (lat1 lon1 lat2 lon2 : float) (c : float) :
  let a (la1 lo1 la2 lo2 : float) (c : float) :=
    (Math_sin M ((la2 - la1) * Math_PI / 180 / 2)
     * Math_sin M ((la2 - la1) * Math_PI / 180 / 2)
     + c * Math_sin M ((lo2 - lo1) * Math_PI / 180 / 2)
       * Math_sin M ((lo2 - lo1) * Math_PI / 180 / 2))%float in
  a lat2 lon2 lat1 lon1 c = a lat1 lon1 lat2 lon2 c.
Proof.
  cbv zeta.
  destruct (sin_term_swap lat1 lat2) as [-> | ->],
           (sin_term_swap lon1 lon2) as [-> | ->];
    rewrite ?float_mul_opp_opp, ?float_mul_opp_r, ?float_mul_opp_l,
      ?float_opp_involutive; reflexivity.
Qed.

End Symmetry.

(** C10, as the code has it: for every Math library whose sine is odd,
    [calculateDistance] returns the same binary64 value for both orders of
    its endpoints, the [Infinity] of the guard included; so [==] holds
    between the two results exactly when that value is not [NaN]. *)
Theorem calculateDistance_binary64_symmetric
        (M : Math) (lat1 lon1 lat2 lon2 : coordinate) :
  (forall x : float, Math_sin M (- x) = (- Math_sin M x)%float) ->
  calculateDistance M lat1 lon1 lat2 lon2
  = calculateDistance M lat2 lon2 lat1 lon1
  /\ PrimFloat.eqb (calculateDistance M lat1 lon1 lat2 lon2)
                   (calculateDistance M lat2 lon2 lat1 lon1)
     = negb (PrimFloat.is_nan (calculateDistance M lat1 lon1 lat2 lon2)).
Proof.
  intros Hodd.
  assert (E : calculateDistance M lat1 lon1 lat2 lon2
              = calculateDistance M lat2 lon2 lat1 lon1).
  { unfold calculateDistance.
    destruct (truthy lat1) as [a1|], (truthy lon1) as [o1|],
             (truthy lat2) as [a2|], (truthy lon2) as [o2|]; try reflexivity.
    cbv zeta.
    rewrite (float_mul_comm (Math_cos M (a2 * Math_PI / 180))).
    pose proof (@haversine_swap M Hodd a1 o1 a2 o2
                  (Math_cos M (a1 * Math_PI / 180)
                   * Math_cos M (a2 * Math_PI / 180))%float) as H.
    cbv zeta in H. now rewrite H. }
  split; [exact E|]. rewrite <- E. unfold PrimFloat.is_nan.
  now rewrite negb_involutive.
Qed.

Section SortFacts64.
Variable A : Type.
Variable cmp : A -> A -> float.



End SortFacts64.

Lemma Math_max_nan_l (b : float) : Math_max PrimFloat.nan b = PrimFloat.nan.
Proof. reflexivity. Qed.





Lemma SFltb_zero_opp (x : SpecFloat.spec_float) :
  SpecFloat.SFltb (SpecFloat.SFopp x) (SpecFloat.S754_zero false)
  = SpecFloat.SFltb (SpecFloat.S754_zero false) x
  /\ SpecFloat.SFltb (SpecFloat.S754_zero false) (SpecFloat.SFopp x)
     = SpecFloat.SFltb x (SpecFloat.S754_zero false)
  /\ (SpecFloat.SFltb x (SpecFloat.S754_zero false) = true ->
      SpecFloat.SFltb (SpecFloat.S754_zero false) x = false).
Proof. destruct x as [[|]|[|]| |[|] m e]; repeat split; discriminate. Qed.

Lemma float_ltb_zero_opp (x : float) :
  PrimFloat.ltb (- x) 0 = PrimFloat.ltb 0 x
  /\ PrimFloat.ltb 0 (- x) = PrimFloat.ltb x 0
  /\ (PrimFloat.ltb x 0 = true -> PrimFloat.ltb 0 x = false).
Proof.
  rewrite !FloatAxioms.ltb_spec, !FloatAxioms.opp_spec.
  apply SFltb_zero_opp.
Qed.

Lemma odd_extension_odd (f : float -> float) (x : float) :
  odd_extension f (- x) = (- odd_extension f x)%float.
Proof.
  unfold odd_extension.
  destruct (float_ltb_zero_opp x) as (-> & -> & H).
  destruct (PrimFloat.ltb x 0) eqn:Hneg.
  - rewrite (H eq_refl). now rewrite float_opp_involutive.
  - destruct (PrimFloat.ltb 0 x); [now rewrite float_opp_involutive | reflexivity].
Qed.

Lemma calculateDistance_binary64_symmetric_witness :
  calculateDistance rounded_math (Some 12%float) (Some 1%float)
                                 (Some (-12)%float) (Some 1%float)
  = calculateDistance rounded_math (Some (-12)%float) (Some 1%float)
                                   (Some 12%float) (Some 1%float)
  /\ PrimFloat.eqb
       (calculateDistance rounded_math (Some 12%float) (Some 1%float)
                                       (Some (-12)%float) (Some 1%float))
       (calculateDistance rounded_math (Some (-12)%float) (Some 1%float)
                                       (Some 12%float) (Some 1%float))
     = negb (PrimFloat.is_nan
               (calculateDistance rounded_math (Some 12%float) (Some 1%float)
                                               (Some (-12)%float) (Some 1%float))).
Proof.
  apply (@calculateDistance_binary64_symmetric rounded_math
           (Some 12%float) (Some 1%float) (Some (-12)%float) (Some 1%float)).
  intros x. apply odd_extension_odd.
Defined.

(** The distance between two points 24 degrees of latitude apart, computed
    on binary64 numbers with that library: about 1658.34 miles. *)
Lemma calculateDistance_binary64_value :
  calculateDistance rounded_math (Some 12%float) (Some 1%float)
                                 (Some (-12)%float) (Some 1%float)
  = 0x1.9e95e404716c1p+10%float.
Proof. vm_compute. reflexivity. Qed.

(** The run of [calculateDistance(12, -179, -12, 1)] on binary64 numbers:
    the three angles, the sines and cosines taken of them, the haversine
    term, which is [1.0000000000000002], and the square root of [1 - a]. *)
Lemma calculateDistance_antipodal_trace :
  ((-12 - 12) * Math_PI / 180 / 2 = - 0x1.acee9f37bebd5p-3)%float
  /\ ((1 - -179) * Math_PI / 180 / 2 = 0x1.921fb54442d18p+0)%float
  /\ (12 * Math_PI / 180 = 0x1.acee9f37bebd5p-3)%float
  /\ (-12 * Math_PI / 180 = - 0x1.acee9f37bebd5p-3)%float
  /\ (Math_sin rounded_math (- 0x1.acee9f37bebd5p-3)
      = - 0x1.a9cd9ac4258f5p-3)%float
  /\ Math_sin rounded_math 0x1.921fb54442d18p+0 = 1%float
  /\ Math_cos rounded_math 0x1.acee9f37bebd5p-3 = 0x1.f4cfc327a0080p-1%float
  /\ (Math_cos rounded_math (- 0x1.acee9f37bebd5p-3)
      = 0x1.f4cfc327a0080p-1)%float
  /\ (- 0x1.a9cd9ac4258f5p-3 * - 0x1.a9cd9ac4258f5p-3
      + 0x1.f4cfc327a0080p-1 * 0x1.f4cfc327a0080p-1 * 1 * 1
      = 0x1.0000000000001p+0)%float
  /\ PrimFloat.sqrt (1 - 0x1.0000000000001p+0) = PrimFloat.nan.
Proof. repeat split; vm_compute; reflexivity. Qed.

(** C10 as stated fails for two valid points that are nearly antipodal: the
    haversine term rounds to a number above [1], the square root of
    [1 - a] is [NaN], and so is the result, in both orders; and [NaN == NaN]
    is false. *)
Lemma calculateDistance_antipodal_nan :
  calculateDistance rounded_math (Some 12%float) (Some (-179)%float)
                                 (Some (-12)%float) (Some 1%float)
  = PrimFloat.nan
  /\ calculateDistance rounded_math (Some (-12)%float) (Some 1%float)
                                    (Some 12%float) (Some (-179)%float)
     = PrimFloat.nan
  /\ PrimFloat.eqb
       (calculateDistance rounded_math (Some 12%float) (Some (-179)%float)
                                       (Some (-12)%float) (Some 1%float))
       (calculateDistance rounded_math (Some (-12)%float) (Some 1%float)
                                       (Some 12%float) (Some (-179)%float))
     = false.
Proof. repeat split; vm_compute; reflexivity. Qed.

(** The threshold the program compares with is the double [0.85]: a
    similarity that is this double passes, although it is below 17/20. *)
Lemma threshold_is_a_double :
  cosineSimilarity (Some [1; 0]%float) (Some [0x1.9d12d4cfd6f0ep+0; 1]%float)
  = 0x1.b333333333333p-1%float
  /\ PrimFloat.leb (MATCH_THRESHOLD CONFIG)
       (cosineSimilarity (Some [1; 0]%float)
                         (Some [0x1.9d12d4cfd6f0ep+0; 1]%float)) = true.
Proof. split; vm_compute; reflexivity. Qed.

(** The scan of a pool that holds this one counterpart keeps it, with the
    similarity [0.85] and the distance [0]. *)
Lemma scan_keeps_similarity_at_threshold :
  findMatchesForLostPet rounded_math (Some [found_at_threshold])
                        lost_at_threshold
  = [ {| foundPetId := 2; foundPetName := "Stray"%string;
         similarity := 0x1.b333333333333p-1%float;
         distance := 0%float;
         foundPet := found_at_threshold |} ].
Proof. vm_compute. reflexivity. Qed.

End Binary64Props.

(** * Failure isolation: what a failure does not stop *)

Lemma for_matches_app (w : World) (i : nat) (lostPet : Pet)
      (l1 l2 : list Match) :
  forall (j : nat) (s : PassState),
    for_matches w i j lostPet (l1 ++ l2) s
    = for_matches w i (j + length l1) lostPet l2 (for_matches w i j lostPet l1 s).
Proof.
  induction l1 as [|m l1 IH]; intros j s; simpl.
  - now rewrite Nat.add_0_r.
  - rewrite IH. f_equal. lia.
Qed.

Lemma for_lostPets_app (w : World) (table : list Pet) (l1 l2 : list Pet) :
  forall (i : nat) (s : PassState),
    for_lostPets w table i (l1 ++ l2) s
    = for_lostPets w table (i + length l1) l2 (for_lostPets w table i l1 s).
Proof.
  induction l1 as [|p l1 IH]; intros i s; simpl.
  - now rewrite Nat.add_0_r.
  - rewrite IH. f_equal. lia.
Qed.

Lemma nth_error_split_at (A : Type) (l : list A) (n : nat) (x : A) :
  nth_error l n = Some x ->
  l = firstn n l ++ x :: skipn (S n) l /\ length (firstn n l) = n.
Proof.
  revert n. induction l as [|y l IH]; intros [|n] H; simpl in *;
    try discriminate.
  - injection H as ->. auto.
  - destruct (IH n H) as [E Hlen]. split; [now rewrite <- E | now rewrite Hlen].
Qed.

(** The log and the store only grow. *)
Lemma process_match_extends (w : World) (i j : nat) (lostPet : Pet) (m : Match)
      (s : PassState) :
  exists (more : list Event) (added : list MatchRow),
    events (process_match w i j lostPet m s) = events s ++ more
    /\ map row_key (match_rows (process_match w i j lostPet m s))
       = map row_key (match_rows s) ++ map row_key added.
Proof.
  unfold process_match. destruct (matchExists _ _ _ _).
  - exists [], []. now rewrite !app_nil_r.
  - unfold saveMatch. destruct (insert_reply w i j) as [[|n]|];
      cbn [truthy_id match_rows events].
    + eexists. exists [pending_row 0 (id lostPet) (foundPetId m)
                                     (similarity m) (distance m)].
      now rewrite map_app.
    + eexists. exists [pending_row (S n) (id lostPet) (foundPetId m)
                                     (similarity m) (distance m)].
      rewrite <- app_assoc. split; [reflexivity|].
      destruct (report_writes _); [rewrite updateMatchStatus_keys|];
        now rewrite map_app.
    + exists [], []. now rewrite !app_nil_r.
Qed.

Lemma for_matches_extends (w : World) (i : nat) (lostPet : Pet)
      (matches : list Match) :
  forall (j : nat) (s : PassState),
  exists (more : list Event) (added : list MatchRow),
    events (for_matches w i j lostPet matches s) = events s ++ more
    /\ map row_key (match_rows (for_matches w i j lostPet matches s))
       = map row_key (match_rows s) ++ map row_key added.
Proof.
  induction matches as [|m rest IH]; intros j s; simpl.
  - exists [], []. now rewrite !app_nil_r.
  - destruct (IH (S j) (process_match w i j lostPet m s))
      as (more2 & added2 & -> & ->).
    destruct (process_match_extends w i j lostPet m s)
      as (more1 & added1 & -> & ->).
    exists (more1 ++ more2), (added1 ++ added2).
    now rewrite map_app, !app_assoc.
Qed.

Lemma for_lostPets_extends (w : World) (table : list Pet) (lostPets : list Pet) :
  forall (i : nat) (s : PassState),
  exists (more : list Event) (added : list MatchRow),
    events (for_lostPets w table i lostPets s) = events s ++ more
    /\ map row_key (match_rows (for_lostPets w table i lostPets s))
       = map row_key (match_rows s) ++ map row_key added.
Proof.
  induction lostPets as [|p rest IH]; intros i s; simpl.
  - exists [], []. now rewrite !app_nil_r.
  - destruct (IH (S i) (process_pet w table i p s))
      as (more2 & added2 & -> & ->).
    unfold process_pet.
    destruct (for_matches_extends w i p
                (findMatchesForLostPet
                   (query (found_query_ok w i) StatusFound 1000 table) p) 0 s)
      as (more1 & added1 & -> & ->).
    exists (more1 ++ more2), (added1 ++ added2).
    now rewrite map_app, !app_assoc.
Qed.

(** A pass from the match at index [j] of the lost pet at index [i] on. *)
Lemma processMatches_from (w : World) (table : list Pet) (rows : list MatchRow)
      (i j : nat) (lostPet : Pet) (m : Match) :
  lost_query_ok w = true ->
  nth_error (select_pets StatusLost (BATCH_SIZE CONFIG) table) i = Some lostPet ->
  nth_error (matches_of w table i lostPet) j = Some m ->
  exists (more : list Event) (added : list MatchRow),
    events_of (processMatches w table rows)
    = events (process_match w i j lostPet m (state_before w table rows i j))
      ++ more
    /\ map row_key (rows_after rows (processMatches w table rows))
       = map row_key (match_rows (process_match w i j lostPet m
                                    (state_before w table rows i j)))
         ++ map row_key added.
Proof.
  intros Hl Hp Hm. unfold processMatches, query, state_before. rewrite Hl, Hp.
  cbn [events_of rows_after]. fold (pass_start rows).
  destruct (nth_error_split_at _ _ Hp) as [Ep Hlenp].
  destruct (nth_error_split_at _ _ Hm) as [Em Hlenm].
  set (lostPets := select_pets StatusLost (BATCH_SIZE CONFIG) table) in *.
  set (sB := process_match w i j lostPet m _).
  assert (E : for_lostPets w table 0 lostPets (pass_start rows)
              = for_lostPets w table (S i) (skipn (S i) lostPets)
                  (for_matches w i (S j) lostPet
                     (skipn (S j) (matches_of w table i lostPet)) sB)).
  { rewrite Ep at 1. rewrite for_lostPets_app, Hlenp. cbn [for_lostPets plus].
    unfold process_pet at 1. fold (matches_of w table i lostPet).
    rewrite Em at 1. rewrite for_matches_app, Hlenm. reflexivity. }
  rewrite E.
  destruct (for_matches_extends w i lostPet
              (skipn (S j) (matches_of w table i lostPet)) (S j) sB)
    as (more1 & added1 & E1 & K1).
  destruct (for_lostPets_extends w table (skipn (S i) lostPets) (S i)
              (for_matches w i (S j) lostPet
                 (skipn (S j) (matches_of w table i lostPet)) sB))
    as (more2 & added2 & E2 & K2).
  exists (more1 ++ more2), (added1 ++ added2).
  rewrite E2, K2, E1, K1, map_app, !app_assoc. auto.
Qed.

Lemma same_calls_refl (s : PassState) : same_calls s s.
Proof. now repeat split. Qed.

(** The state in which the loops reach a match makes the same calls
    whatever the outcomes of the SMS posts and of the reports before it. *)
Lemma state_before_same_calls (w : World) (post : nat -> nat -> bool)
      (report : nat -> nat -> ReportOutcome) (table : list Pet)
      (rows : list MatchRow) (i j : nat) :
  same_calls (state_before w table rows i j)
             (state_before (with_outcomes w post report) table rows i j).
Proof.
  unfold state_before.
  assert (H0 : same_calls
                 (for_lostPets w table 0
                    (firstn i (select_pets StatusLost (BATCH_SIZE CONFIG) table))
                    (pass_start rows))
                 (for_lostPets (with_outcomes w post report) table 0
                    (firstn i (select_pets StatusLost (BATCH_SIZE CONFIG) table))
                    (pass_start rows)))
    by apply for_lostPets_same_calls, same_calls_refl.
  destruct (nth_error _ i) as [lostPet|]; [| exact H0].
  change (matches_of (with_outcomes w post report) table i lostPet)
    with (matches_of w table i lostPet).
  now apply for_matches_same_calls.
Qed.

Lemma new_match_outcomes (w : World) (post : nat -> nat -> bool)
      (report : nat -> nat -> ReportOutcome) (table : list Pet)
      (rows : list MatchRow) (i j : nat) (lostPet : Pet) (m : Match) :
  new_match w table rows i j lostPet m ->
  new_match (with_outcomes w post report) table rows i j lostPet m.
Proof.
  intros (Hl & Hp & Hm & Hex). repeat split; try assumption.
  destruct (state_before_same_calls w post report table rows i j)
    as (Hrows & _).
  cbn [exists_query_ok with_outcomes].
  now rewrite <- (@matchExists_pairs _ _ _ _ _ (@row_key_pairs _ _ Hrows)).
Qed.

(** C7.  A failure of the SMS post or of the report generator for one match
    does not keep another match of the pass from being processed.  Let a
    match be new in a pass (the loop reaches it and its lookup does not find
    the pair) and let the store accept its insert.  Then in the pass run
    against any other outcomes of the SMS posts and of the reports, those of
    every other match failing among them, the match is new again, its row
    is inserted and is in the store after the pass, and the insert is
    followed at once by its own notification call and its own report call. *)
Theorem fanout_failure_spares_other_matches
        (w : World) (table : list Pet) (rows : list MatchRow)
        (post : nat -> nat -> bool) (report : nat -> nat -> ReportOutcome)
        (i j : nat) (lostPet : Pet) (m : Match) (n : nat) :
  new_match w table rows i j lostPet m ->
  insert_reply w i j = Some (S n) ->
  let w' := with_outcomes w post report in
  let pass := processMatches w' table rows in
  let row := pending_row (S n) (id lostPet) (foundPetId m)
                         (similarity m) (distance m) in
  new_match w' table rows i j lostPet m
  /\ (exists before after : list Event,
         events_of pass
         = before
           ++ [ Persisted row;
                Notified (id lostPet) (foundPetId m)
                         (sendMatchNotification (sms_configured w) (post i j)
                                                lostPet m);
                Reported (S n) (report i j) ]
           ++ after)
  /\ In (row_key row) (map row_key (rows_after rows pass)).
Proof.
  intros Hnew Hins w' pass row.
  pose proof (new_match_outcomes post report Hnew) as Hnew'.
  fold w' in Hnew'. split; [exact Hnew'|].
  destruct Hnew' as (Hl & Hp & Hm & Hex).
  destruct (processMatches_from w' table rows i j Hl Hp Hm)
    as (more & added & Hev & Hrows).
  fold pass in Hev, Hrows.
  assert (Hstep :
            events (process_match w' i j lostPet m (state_before w' table rows i j))
            = events (state_before w' table rows i j)
              ++ [ Persisted row;
                   Notified (id lostPet) (foundPetId m)
                            (sendMatchNotification (sms_configured w) (post i j)
                                                   lostPet m);
                   Reported (S n) (report i j) ]
            /\ In (row_key row)
                  (map row_key
                     (match_rows (process_match w' i j lostPet m
                                    (state_before w' table rows i j))))).
  { unfold process_match. rewrite Hex. unfold saveMatch.
    change (insert_reply w' i j) with (insert_reply w i j). rewrite Hins.
    cbn [truthy_id match_rows events]. split.
    - now rewrite <- app_assoc.
    - destruct (report_writes _); [rewrite updateMatchStatus_keys |];
        rewrite map_app; apply in_or_app; right; now left. }
  destruct Hstep as [Hstep Hin]. split.
  - exists (events (state_before w' table rows i j)), more.
    rewrite Hev, Hstep, <- app_assoc. reflexivity.
  - rewrite Hrows. apply in_or_app. now left.
Qed.

Lemma fanout_failure_spares_other_matches_witness :
  let pass := processMatches first_fanout_fails demo_table2 [] in
  exists before after : list Event,
    events_of pass
    = before
      ++ [ Persisted (pending_row 2 1 3 1 (Finite 0));
           Notified 1 3 (SmsSent "+15550100"%string);
           Reported 2 (ReportSent "shelter@example.org"%string true) ]
      ++ after.
Proof.
  cbv zeta.
  assert (Hnew : new_match (store_up_from 1) demo_table2 [] 0 1
                           demo_lost demo_match2).
  { assert (Hsel : select_pets StatusLost (BATCH_SIZE CONFIG) demo_table2
                   = [demo_lost]) by reflexivity.
    unfold new_match, state_before, matches_of, pass_start.
    rewrite Hsel.
    cbn [lost_query_ok found_query_ok store_up_from query nth_error firstn
         for_lostPets].
    rewrite demo_scan2. repeat split. }
  apply (@fanout_failure_spares_other_matches
           (store_up_from 1) demo_table2 []
           (sms_post_ok first_fanout_fails) (report_outcome first_fanout_fails)
           0 1 demo_lost demo_match2 1 Hnew eq_refl).
Defined.
